(** * Route-registration radix tree (tree.go): shallow embedding and properties

    The Go source builds a compressed prefix tree of URL patterns by in-place
    mutation through a cursor pointer [n].  The embedding keeps the shape of
    the code: every method on [*node] is a computation in a small
    state-and-failure monad whose state is the subtree under the cursor;
    moving the cursor into a child ([n = n.children[k]]) is [in_child k],
    which runs the rest of the method on that child and stores the result
    back at index [k].  A Go [panic] keeps the mutations made so far, so a
    failing computation still returns the mutated subtree. *)

From Stdlib Require Import ZArith Ascii String Lia Bool.
From stdpp Require Import base tactics option list sorting strings.

Set Warnings "-register-all".
Open Scope Z_scope.
Open Scope nat_scope.
Open Scope list_scope.

(** ** Go strings as byte lists *)

Abbreviation gostring := (list ascii).

Definition str (s : string) : gostring := list_ascii_of_string s.

(** [s[i]] with a non-negative index; [None] is Go's index-out-of-range
    run-time panic. *)
Definition byteAt (s : gostring) (i : nat) : option ascii := s !! i.

(** [s[i]] with a signed index. *)
Definition byteAtZ (s : gostring) (i : Z) : option ascii :=
  if (i <? 0)%Z then None else s !! Z.to_nat i.

(** [s[lo:hi]]; [None] is Go's slice-bounds-out-of-range run-time panic. *)
Definition slice (s : gostring) (lo hi : nat) : option gostring :=
  if (lo <=? hi) && (hi <=? length s) then Some (take (hi - lo) (drop lo s))
  else None.

Definition sliceZ (s : gostring) (lo hi : Z) : option gostring :=
  if ((0 <=? lo) && (0 <=? hi))%Z then slice s (Z.to_nat lo) (Z.to_nat hi)
  else None.

Fixpoint hasPrefix (s pre : gostring) : bool :=
  match pre, s with
  | [], _ => true
  | b :: pre', c :: s' => (c =? b)%char && hasPrefix s' pre'
  | _ :: _, [] => false
  end.

(** [strings.Index(s, substr)]: offset of the first occurrence, or -1. *)
Fixpoint strings_Index_from (s substr : gostring) (k : nat) : Z :=
  if hasPrefix s substr then Z.of_nat k
  else match s with
       | [] => (-1)%Z
       | _ :: s' => strings_Index_from s' substr (S k)
       end.

Definition strings_Index (s substr : gostring) : Z :=
  strings_Index_from s substr 0.

(** [strings.SplitN(s, "/", 2)[0]]: the part of [s] before its first '/',
    or all of [s] when it has none. *)
Fixpoint strings_SplitN_slash_2_0 (s : gostring) : gostring :=
  match s with
  | [] => []
  | c :: s' => if (c =? "/")%char then [] else c :: strings_SplitN_slash_2_0 s'
  end.

(** ** The node *)

Inductive nodeType : Set := static | root | param | catchAll.

#[global] Instance nodeType_eq_dec : EqDecision nodeType.
Proof. solve_decision. Defined.

(** [HandlersChain] is an opaque function value in the source; handler
    chains are identified by a number here and [None] is Go's [nil]. *)
Definition HandlersChain : Type := option nat.

Inductive node : Type := mkNode {
  path : gostring;
  indices : gostring;
  wildChild : bool;
  nType : nodeType;
  priority : Z;              (* uint32 *)
  children : list node;
  handlers : HandlersChain;
  fullPath : gostring
}.

(** The zero value [node{}]. *)
Definition zeroNode : node := mkNode [] [] false static 0 [] None [].

Definition set_path (v : gostring) (n : node) : node :=
  mkNode v n.(indices) n.(wildChild) n.(nType) n.(priority) n.(children)
         n.(handlers) n.(fullPath).
Definition set_indices (v : gostring) (n : node) : node :=
  mkNode n.(path) v n.(wildChild) n.(nType) n.(priority) n.(children)
         n.(handlers) n.(fullPath).
Definition set_wildChild (v : bool) (n : node) : node :=
  mkNode n.(path) n.(indices) v n.(nType) n.(priority) n.(children)
         n.(handlers) n.(fullPath).
Definition set_nType (v : nodeType) (n : node) : node :=
  mkNode n.(path) n.(indices) n.(wildChild) v n.(priority) n.(children)
         n.(handlers) n.(fullPath).
Definition set_priority (v : Z) (n : node) : node :=
  mkNode n.(path) n.(indices) n.(wildChild) n.(nType) v n.(children)
         n.(handlers) n.(fullPath).
Definition set_children (v : list node) (n : node) : node :=
  mkNode n.(path) n.(indices) n.(wildChild) n.(nType) n.(priority) v
         n.(handlers) n.(fullPath).
Definition set_handlers (v : HandlersChain) (n : node) : node :=
  mkNode n.(path) n.(indices) n.(wildChild) n.(nType) n.(priority)
         n.(children) v n.(fullPath).
Definition set_fullPath (v : gostring) (n : node) : node :=
  mkNode n.(path) n.(indices) n.(wildChild) n.(nType) n.(priority)
         n.(children) n.(handlers) v.

(** uint32 arithmetic. *)
Definition wrap32 (z : Z) : Z := (z mod 2 ^ 32)%Z.

(** [n.priority++] *)
Definition incPriority (n : node) : node :=
  set_priority (wrap32 (n.(priority) + 1)) n.

(** ** The cursor monad *)

Inductive failure : Type :=
| Panic (msg : gostring)      (* an explicit [panic("...")] *)
| RuntimeError                (* index or slice bounds out of range *)
| OutOfFuel.                  (* loop bound of the embedding exhausted *)

Inductive result (A : Type) : Type :=
| Ok (a : A)
| Fail (f : failure).
Arguments Ok {A} a.
Arguments Fail {A} f.

Definition M (A : Type) : Type := node → node * result A.

#[global] Instance M_ret : MRet M := λ A a n, (n, Ok a).
#[global] Instance M_bind : MBind M := λ A B f m n,
  match m n with
  | (n', Ok a) => f a n'
  | (n', Fail e) => (n', Fail e)
  end.

Definition getN : M node := λ n, (n, Ok n).
Definition modify (f : node → node) : M unit := λ n, (f n, Ok tt).
Definition mfail {A} (e : failure) : M A := λ n, (n, Fail e).
Definition panic {A} (msg : gostring) : M A := mfail (Panic msg).

(** A checked index or slice: [None] raises the run-time panic. *)
Definition checked {A} (o : option A) : M A :=
  match o with
  | Some a => mret a
  | None => mfail RuntimeError
  end.

(** [n = n.children[k]] followed by [m]: the cursor moves into child [k]
    and never comes back, so the rest of the method runs on that child. *)
Definition in_child {A} (k : nat) (m : M A) : M A := λ n,
  match n.(children) !! k with
  | None => (n, Fail RuntimeError)
  | Some c =>
      let '(c', r) := m c in
      (set_children (<[k := c']> n.(children)) n, r)
  end.

(** ** min, longestCommonPrefix *)

Definition min (a b : nat) : nat := if a <=? b then a else b.

(** The loop [for i < max && a[i] == b[i] { i++ }]; it runs at most [max]
    times, which is the bound [k]. *)
Fixpoint lcp_loop (a b : gostring) (max i k : nat) : nat :=
  match k with
  | 0 => i
  | S k' =>
      if i <? max then
        match a !! i, b !! i with
        | Some x, Some y =>
            if (x =? y)%char then lcp_loop a b max (S i) k' else i
        | _, _ => i
        end
      else i
  end.

Definition longestCommonPrefix (a b : gostring) : nat :=
  let max := min (length a) (length b) in
  lcp_loop a b max 0 max.

(** ** findWildcard *)

Definition isWildByte (c : ascii) : bool := (c =? ":")%char || (c =? "*")%char.

(** Inner loop over [path[start+1:]]: [rest] is what is left of it and
    [end_] the loop index. *)
Fixpoint findWildcardEnd (p : gostring) (start : nat) (rest : gostring)
    (end_ : nat) (valid : bool) : gostring * Z * bool :=
  match rest with
  | [] => (drop start p, Z.of_nat start, valid)
  | c :: rest' =>
      if (c =? "/")%char then
        (take (1 + end_) (drop start p), Z.of_nat start, valid)
      else if isWildByte c then findWildcardEnd p start rest' (S end_) false
      else findWildcardEnd p start rest' (S end_) valid
  end.

(** Outer loop over [path]: [cur] is what is left of it and [start] the
    loop index. *)
Fixpoint findWildcardStart (p cur : gostring) (start : nat)
    : gostring * Z * bool :=
  match cur with
  | [] => ([], (-1)%Z, false)
  | c :: cur' =>
      if negb (c =? ":")%char && negb (c =? "*")%char then
        findWildcardStart p cur' (S start)
      else findWildcardEnd p start (drop (start + 1) p) 0 true
  end.

Definition findWildcard (p : gostring) : gostring * Z * bool :=
  findWildcardStart p p 0.

(** ** addChild, incrementChildPrio *)

(** [addChild] keeps a wildcard child at the end.  The result is the index
    at which [child] now sits: the source keeps the pointer [child]. *)
Definition addChild (child : node) : M nat :=
  n ← getN;
  if n.(wildChild) && (0 <? length n.(children)) then
    wildcardChild ← checked (n.(children) !! (length n.(children) - 1));
    modify (set_children
              (take (length n.(children) - 1) n.(children)
                 ++ [child; wildcardChild]));;
    mret (length n.(children) - 1)
  else
    modify (set_children (n.(children) ++ [child]));;
    mret (length n.(children)).

(** The swap loop of [incrementChildPrio]. *)
Fixpoint moveToFront (cs : list node) (newPos : nat) (prio : Z)
    : list node * nat :=
  match newPos with
  | 0 => (cs, 0)
  | S prev =>
      match cs !! prev, cs !! newPos with
      | Some l, Some x =>
          if (l.(priority) <? prio)%Z then
            moveToFront (<[prev := x]> (<[newPos := l]> cs)) prev prio
          else (cs, newPos)
      | _, _ => (cs, newPos)
      end
  end.

Definition incrementChildPrio (pos : nat) : M nat :=
  n ← getN;
  c ← checked (n.(children) !! pos);
  let cs := <[pos := incPriority c]> n.(children) in
  let prio := (incPriority c).(priority) in
  let '(cs', newPos) := moveToFront cs pos prio in
  modify (set_children cs');;
  (if bool_decide (newPos ≠ pos) then
     idx ← checked (a ← slice n.(indices) 0 newPos;
                    b ← slice n.(indices) pos (pos + 1);
                    c ← slice n.(indices) newPos pos;
                    d ← slice n.(indices) (pos + 1) (length n.(indices));
                    Some (a ++ b ++ c ++ d));
     modify (set_indices idx)
   else mret tt);;
  mret newPos.

(** Where the child that sat at [k] is after the child at [pos] has been
    moved to [newPos] (the source holds it by pointer). *)
Definition indexAfterMove (pos newPos k : nat) : nat :=
  if k =? pos then newPos
  else if (newPos <=? k) && (k <? pos) then S k
  else k.

(** ** insertChild *)

Definition msg_onlyOneWildcard (wildcard fullP : gostring) : gostring :=
  str "only one wildcard per path segment is allowed, has: '" ++ wildcard
    ++ str "' in path '" ++ fullP ++ str "'".
Definition msg_unnamedWildcard (fullP : gostring) : gostring :=
  str "wildcards must be named with a non-empty name in path '" ++ fullP
    ++ str "'".
Definition msg_catchAllNotLast (fullP : gostring) : gostring :=
  str "catch-all routes are only allowed at the end of the path in path '"
    ++ fullP ++ str "'".
Definition msg_catchAllConflict (fullP : gostring) : gostring :=
  str "catch-all conflicts with existing handle for the path segment root in path '"
    ++ fullP ++ str "'".
Definition msg_noSlashBeforeCatchAll (fullP : gostring) : gostring :=
  str "no / before catch-all in path '" ++ fullP ++ str "'".

(** One iteration of the [for] loop per unit of [fuel]; every [continue]
    shortens [path] (see [insertChild]). *)
Fixpoint insertChild_loop (fuel : nat) (p fullP : gostring)
    (hs : HandlersChain) : M unit :=
  match fuel with
  | 0 => mfail OutOfFuel
  | S fuel' =>
    let '(wildcard, i, valid) := findWildcard p in
    if (i <? 0)%Z then
      (* no wildcard found: leave the loop *)
      modify (set_path p);;
      modify (set_handlers hs);;
      modify (set_fullPath fullP)
    else if negb valid then panic (msg_onlyOneWildcard wildcard fullP)
    else if length wildcard <? 2 then panic (msg_unnamedWildcard fullP)
    else
      w0 ← checked (byteAt wildcard 0);
      if (w0 =? ":")%char then
        (* param *)
        p ← (if (0 <? i)%Z then
               pre ← checked (sliceZ p 0 i);
               modify (set_path pre);;
               checked (sliceZ p i (Z.of_nat (length p)))
             else mret p);
        k ← addChild (mkNode wildcard [] false param 0 [] None fullP);
        modify (set_wildChild true);;
        in_child k (
          modify incPriority;;
          if length wildcard <? length p then
            p ← checked (slice p (length wildcard) (length p));
            k ← addChild (mkNode [] [] false static 1 [] None fullP);
            in_child k (insertChild_loop fuel' p fullP hs)
          else
            modify (set_handlers hs))
      else
        (* catchAll *)
        if negb (i + Z.of_nat (length wildcard) =? Z.of_nat (length p))%Z then
          panic (msg_catchAllNotLast fullP)
        else
          n ← getN;
          if (0 <? length n.(path))
             && bool_decide (byteAt n.(path) (length n.(path) - 1) = Some "/"%char)
          then panic (msg_catchAllConflict fullP)
          else
            let i := (i - 1)%Z in
            b ← checked (byteAtZ p i);
            if negb (b =? "/")%char then
              panic (msg_noSlashBeforeCatchAll fullP)
            else
              pre ← checked (sliceZ p 0 i);
              modify (set_path pre);;
              k ← addChild (mkNode [] [] true catchAll 0 [] None fullP);
              modify (set_indices ["/"%char]);;
              in_child k (
                modify incPriority;;
                suffix ← checked (sliceZ p i (Z.of_nat (length p)));
                modify (set_children
                          [mkNode suffix [] false catchAll 1 [] hs fullP]))
  end.

Definition insertChild (p fullP : gostring) (hs : HandlersChain) : M unit :=
  insertChild_loop (S (length p)) p fullP hs.

(** ** addRoute *)

Definition msg_wildcardConflict (pathSeg fullP existing prefix : gostring)
    : gostring :=
  str "'" ++ pathSeg ++ str "' in new path '" ++ fullP
    ++ str "' conflicts with existing wildcard '" ++ existing
    ++ str "' in existing prefix '" ++ prefix ++ str "'".
Definition msg_duplicate (fullP : gostring) : gostring :=
  str "handlers are already registered for path '" ++ fullP ++ str "'".

(** The body of [if i < len(n.path) { ... }]: split the cursor node. *)
Definition splitNode (i : nat) (p fullP : gostring)
    (parentFullPathIndex : nat) : M unit :=
  n ← getN;
  tail ← checked (slice n.(path) i (length n.(path)));
  let child :=
    mkNode tail n.(indices) n.(wildChild) static (wrap32 (n.(priority) - 1))
           n.(children) n.(handlers) n.(fullPath) in
  modify (set_children [child]);;
  b ← checked (byteAt n.(path) i);
  modify (set_indices [b]);;
  pre ← checked (slice p 0 i);
  modify (set_path pre);;
  modify (set_handlers None);;
  modify (set_wildChild false);;
  fp ← checked (slice fullP 0 (parentFullPathIndex + i));
  modify (set_fullPath fp).

(** The scan [for i := 0; i < len(n.indices); i++ { if c == n.indices[i] ] :
    the first index holding [c]. *)
Fixpoint indexOfByte (c : ascii) (idx : gostring) (i : nat) : option nat :=
  match idx with
  | [] => None
  | b :: idx' => if (c =? b)%char then Some i else indexOfByte c idx' (S i)
  end.

(** The test that lets the walk go on below an existing wildcard child
    [n] with the remaining path [p]. *)
Definition wildcardMatches (n : node) (p : gostring) : bool :=
  (length n.(path) <=? length p)
  && bool_decide (Some n.(path) = slice p 0 (length n.(path)))
  && negb (bool_decide (n.(nType) = catchAll))
  && ((length p <=? length n.(path))
      || bool_decide (byteAt p (length n.(path)) = Some "/"%char)).

(** The wildcard-conflict panic, with the cursor on the existing wildcard
    child. *)
Definition wildcardConflict {A} (p fullP : gostring) : M A :=
  n ← getN;
  let pathSeg :=
    if negb (bool_decide (n.(nType) = catchAll))
    then strings_SplitN_slash_2_0 p else p in
  pre ← checked (sliceZ fullP 0 (strings_Index fullP pathSeg));
  let prefix := pre ++ n.(path) in
  panic (msg_wildcardConflict pathSeg fullP n.(path) prefix).

(** One iteration of the loop labelled [walk] per unit of [fuel]. *)
Fixpoint walk (fuel : nat) (p fullP : gostring) (hs : HandlersChain)
    (parentFullPathIndex : nat) : M unit :=
  match fuel with
  | 0 => mfail OutOfFuel
  | S fuel' =>
    n ← getN;
    let i := longestCommonPrefix p n.(path) in
    (if i <? length n.(path)
     then splitNode i p fullP parentFullPathIndex else mret tt);;
    if i <? length p then
      p ← checked (slice p i (length p));
      c ← checked (byteAt p 0);
      n ← getN;
      if bool_decide (n.(nType) = param) && (c =? "/")%char
         && (length n.(children) =? 1) then
        (* '/' after param *)
        in_child 0 (
          modify incPriority;;
          walk fuel' p fullP hs (parentFullPathIndex + length n.(path)))
      else
        match indexOfByte c n.(indices) 0 with
        | Some j =>
            (* a child with the next path byte exists *)
            j ← incrementChildPrio j;
            in_child j
              (walk fuel' p fullP hs (parentFullPathIndex + length n.(path)))
        | None =>
            if negb (c =? ":")%char && negb (c =? "*")%char
               && negb (bool_decide (n.(nType) = catchAll)) then
              modify (set_indices (n.(indices) ++ [c]));;
              k ← addChild (mkNode [] [] false static 0 [] None fullP);
              n ← getN;
              newPos ← incrementChildPrio (length n.(indices) - 1);
              in_child (indexAfterMove (length n.(indices) - 1) newPos k)
                (insertChild p fullP hs)
            else if n.(wildChild) then
              in_child (length n.(children) - 1) (
                modify incPriority;;
                n ← getN;
                if wildcardMatches n p
                then walk fuel' p fullP hs parentFullPathIndex
                else wildcardConflict p fullP)
            else insertChild p fullP hs
        end
    else
      n ← getN;
      if bool_decide (n.(handlers) ≠ None) then panic (msg_duplicate fullP)
      else
        modify (set_handlers hs);;
        modify (set_fullPath fullP)
  end.

Fixpoint height (n : node) : nat :=
  S ((fix go (cs : list node) : nat :=
        match cs with
        | [] => 0
        | c :: cs' => Nat.max (height c) (go cs')
        end) n.(children)).

(** Each [continue walk] moves the cursor to a child, or to the tail a
    split has just made; [walkFuel] bounds the number of iterations (see
    [walk_fuel_enough]). *)
Definition walkFuel (n : node) : nat := 2 * height n + 2.

Definition addRoute (p : gostring) (hs : HandlersChain) : M unit :=
  let fullP := p in
  modify incPriority;;
  n ← getN;
  if (length n.(path) =? 0) && (length n.(children) =? 0) then
    insertChild p fullP hs;;
    modify (set_nType root)
  else walk (walkFuel n) p fullP hs 0.

(** Running a list of registrations from a given tree; [None] as soon as
    one of them fails. *)
Fixpoint addRoutes (rs : list (gostring * HandlersChain)) (t : node)
    : option node :=
  match rs with
  | [] => Some t
  | (p, hs) :: rs' =>
      match addRoute p hs t with
      | (t', Ok _) => addRoutes rs' t'
      | (_, Fail _) => None
      end
  end.

(** ** Specification-side vocabulary *)

(** Structural reading of the longest common prefix. *)
Fixpoint commonPrefix (a b : gostring) : nat :=
  match a, b with
  | x :: a', y :: b' => if (x =? y)%char then S (commonPrefix a' b') else 0
  | _, _ => 0
  end.

(** Remove the element at [pos]; put [x] at index [k]. *)
Definition removeAt {A} (pos : nat) (l : list A) : list A :=
  take pos l ++ drop (S pos) l.
Definition insertAt {A} (k : nat) (x : A) (l : list A) : list A :=
  take k l ++ x :: drop k l.

(** The order [incrementChildPrio] works for: children by non-increasing
    priority. *)
Definition byPriority (cs : list node) : Prop :=
  StronglySorted (λ x y, (y.(priority) ≤ x.(priority))%Z) cs.

(** Bytes that do not start a wildcard; bytes other than '/'. *)
Definition noWild (c : ascii) : Prop := isWildByte c = false.
Definition notSlash (c : ascii) : Prop := c ≠ "/"%char.

(** The test [len(s) > 0 && s[len(s)-1] == '/']. *)
Definition endsWithSlash (s : gostring) : bool :=
  (0 <? length s) && bool_decide (byteAt s (length s - 1) = Some "/"%char).

(** What must hold of the path [p] and the cursor [n] given to
    [insertChild] for the catch-all conflict panic, and for the
    missing-slash panic. *)
Definition catchAllConflictCase (p : gostring) (n : node) : Prop :=
  ∃ (w : gostring) (i : Z),
    findWildcard p = (w, i, true) ∧ 2 ≤ length w ∧ head w = Some "*"%char
    ∧ (i + Z.of_nat (length w) = Z.of_nat (length p))%Z
    ∧ ∃ s', n.(path) = s' ++ ["/"%char].

Definition noSlashCase (p : gostring) : Prop :=
  ∃ (p' w : gostring) (i : Z) (b : ascii),
    p' `suffix_of` p
    ∧ findWildcard p' = (w, i, true) ∧ 2 ≤ length w ∧ head w = Some "*"%char
    ∧ (1 ≤ i)%Z ∧ byteAtZ p' (i - 1) = Some b ∧ b ≠ "/"%char.

(** ** Well-formed trees *)

(** The two shapes of catch-all nodes that [insertChild] builds: the
    empty-segment node hung under the '/' index byte, and below it the leaf
    that holds "/*name" and the action. *)
Definition isCatchAllLeaf (c : node) : Prop :=
  c.(nType) = catchAll ∧ c.(children) = [] ∧ c.(indices) = []
  ∧ c.(wildChild) = false
  ∧ ∃ name, c.(path) = "/"%char :: "*"%char :: name ∧ name ≠ []
            ∧ Forall notSlash name.

Definition isCatchAllHolder (c : node) : Prop :=
  c.(nType) = catchAll ∧ c.(path) = [] ∧ c.(indices) = []
  ∧ c.(wildChild) = true
  ∧ ∃ l, c.(children) = [l] ∧ isCatchAllLeaf l.

(** How an index byte [b] relates to the child it dispatches to. *)
Definition headOk (b : ascii) (c : node) : Prop :=
  head c.(path) = Some b ∨ (c.(path) = [] ∧ b = "/"%char).

Definition indexedOk (b : ascii) (c : node) : Prop :=
  headOk b c ∧ (c.(nType) = static ∨ isCatchAllHolder c).

(** A param node whose only child is the tail made by [insertChild]; that
    child has no index byte. *)
Definition isParamTail (n : node) : Prop :=
  n.(nType) = param ∧ n.(indices) = [] ∧ n.(wildChild) = false
  ∧ ∃ c, n.(children) = [c] ∧ c.(nType) = static.

(** Every other node: its children are the indexed ones, one per index
    byte and in the same order, followed by the wildcard child when the
    flag is set. *)
Definition isPlain (n : node) : Prop :=
  n.(nType) ≠ catchAll
  ∧ NoDup n.(indices)
  ∧ (∃ indexed wildPart,
        n.(children) = indexed ++ wildPart
        ∧ Forall2 indexedOk n.(indices) indexed
        ∧ if n.(wildChild)
          then ∃ w, wildPart = [w] ∧ w.(nType) = param
          else wildPart = [])
  ∧ (n.(nType) = param →
       n.(wildChild) = false ∧ length n.(children) ≤ 1
       ∧ Forall (λ b, b = "/"%char) n.(indices)).

Definition localShape (n : node) : Prop :=
  isCatchAllLeaf n ∨ isCatchAllHolder n ∨ isParamTail n ∨ isPlain n.

Inductive wf : node → Prop :=
| wf_intro n : localShape n → Forall wf n.(children) → wf n.

(** [subnode x t]: [x] is a node of the tree [t]. *)
Inductive subnode (x : node) : node → Prop :=
| subnode_here : subnode x x
| subnode_child t c : c ∈ t.(children) → subnode x c → subnode x t.

(** What [addRoute]'s walk may assume of the remaining path when the
    cursor is a param node: the node's segment is a prefix of it, followed
    by nothing or by '/'. *)
Definition paramCompat (n : node) (p : gostring) : Prop :=
  ∃ rest, p = n.(path) ++ rest ∧ (rest = [] ∨ head rest = Some "/"%char).

Definition walkPre (n : node) (p : gostring) : Prop :=
  wf n
  ∧ (n.(nType) = catchAll → isCatchAllHolder n)
  ∧ (n.(nType) = param → paramCompat n p).

Definition walkPost (p : gostring) (n n' : node) : Prop :=
  wf n' ∧ n'.(nType) = n.(nType)
  ∧ n'.(path) = take (commonPrefix p n.(path)) n.(path).

(** What [insertChild] needs of the node it is called on, and what it
    leaves: it is called either with a path that starts with a wildcard
    marker or on a node without segment and children. *)
Definition insertChildPost (p : gostring) (n n' : node) : Prop :=
  wf n' ∧ n'.(nType) = n.(nType)
  ∧ ((∃ c, head p = Some c ∧ isWildByte c = true) → n'.(path) = n.(path))
  ∧ (n.(path) = [] → ∀ c, head p = Some c → isWildByte c = false →
       headOk c n').

Definition insertChildPre (p : gostring) (n : node) : Prop :=
  wf n ∧ n.(wildChild) = false ∧ (n.(nType) = static ∨ n.(nType) = root)
  ∧ ((∃ c, head p = Some c ∧ isWildByte c = true)
     ∨ (n.(path) = [] ∧ n.(children) = [] ∧ n.(indices) = [])).

(** The root between two registrations: the zero value, or a well-formed
    node of kind root. *)
Definition rootOk (t : node) : Prop :=
  wf t ∧ (t.(nType) = root ∨ t = zeroNode).

(** Weakest precondition of a cursor computation. *)
Definition wp {A} (m : M A) (Q : result A → node → Prop) (n : node) : Prop :=
  Q (m n).2 (m n).1.

(** Postconditions that only speak about normal termination. *)
Definition onOk {A} (Q : A → node → Prop) : result A → node → Prop :=
  λ r n, match r with Ok a => Q a n | Fail _ => True end.

(** Postconditions that also bound how a call may fail: by an explicit
    panic; by a run-time error only when [safe] does not hold; never by
    exhausting the loop bound of the embedding. *)
Definition outcome {A} (safe : Prop) (Q : A → node → Prop)
    : result A → node → Prop :=
  λ r n, match r with
         | Ok a => Q a n
         | Fail (Panic _) => True
         | Fail RuntimeError => ¬ safe
         | Fail OutOfFuel => False
         end.

(** Paths without a catch-all marker. *)
Definition noCatchAll (p : gostring) : Prop := "*"%char ∉ p.

(** ** Routes of wildcard-free trees *)

(** Nodes of a tree that holds no wildcard: no wildcard flag, kinds
    static and root only. *)
Inductive staticTree : node → Prop :=
| staticTree_intro n :
    n.(wildChild) = false → n.(nType) = static ∨ n.(nType) = root →
    Forall staticTree n.(children) → staticTree n.

(** The action a wildcard-free path leads to, read-only: the descent of
    the walk of [addRoute] (the whole segment of the node, then the child
    under the next byte of the path). *)
Fixpoint findStatic (n : node) (p : gostring) : option HandlersChain :=
  let i := commonPrefix p n.(path) in
  if i <? length n.(path) then None
  else
    match drop i p with
    | [] => Some n.(handlers)
    | c :: _ =>
        match indexOfByte c n.(indices) 0 with
        | Some k =>
            (fix nth (cs : list node) (k : nat) : option HandlersChain :=
               match cs, k with
               | c :: _, 0 => findStatic c (drop i p)
               | _ :: cs', S k' => nth cs' k'
               | [], _ => None
               end) n.(children) k
        | None => None
        end
    end.

(** The routes of [n] that carry an action are routes of [n'] with the
    same action. *)
Definition keepsRoutes (n n' : node) : Prop :=
  ∀ q h, findStatic n q = Some (Some h) → findStatic n' q = Some (Some h).

(** The routes of [n'] that carry an action are routes of [n], but for
    the path [p] with the action [hs]. *)
Definition onlyRoutes (p : gostring) (hs : HandlersChain) (n n' : node)
    : Prop :=
  ∀ q h, findStatic n' q = Some (Some h) →
         findStatic n q = Some (Some h) ∨ (q = p ∧ hs = Some h).

(** What the walk leaves when the tree and the path hold no wildcard: the
    path leads to its action and the other routes are as before; it fails
    only where the path led to an action already. *)
Definition staticWalkPost (hs : HandlersChain) (p : gostring) (n : node)
    : result unit → node → Prop :=
  λ r n',
    match r with
    | Ok _ => staticTree n' ∧ findStatic n' p = Some hs
              ∧ keepsRoutes n n' ∧ onlyRoutes p hs n n'
    | Fail _ => ∃ h, findStatic n p = Some (Some h)
    end.

(** The routes of a tree built by the registrations [seen], of non-empty
    paths: the tree leads to an action exactly along the paths registered
    with it. *)
Definition routesOf (seen : list (gostring * HandlersChain)) (t : node)
    : Prop :=
  Forall (λ r, r.1 ≠ []) seen ∧ rootOk t ∧ staticTree t
  ∧ ∀ q h, findStatic t q = Some (Some h) ↔ (q, Some h) ∈ seen.

(** * Properties *)

(** ** Strings *)

Section strings.
Implicit Types s a b : gostring.

Lemma min_eq (x y : nat) : min x y = Nat.min x y.
Proof. unfold min. destruct (Nat.leb_spec x y); lia. Qed.

Lemma slice_Some s lo hi :
  lo ≤ hi → hi ≤ length s → slice s lo hi = Some (take (hi - lo) (drop lo s)).
Proof.
  intros Hlo Hhi. unfold slice.
  destruct (Nat.leb_spec lo hi); [|lia].
  destruct (Nat.leb_spec hi (length s)); [|lia]. done.
Qed.

Lemma slice_None s lo hi : hi < lo ∨ length s < hi → slice s lo hi = None.
Proof.
  intros H. unfold slice.
  destruct (Nat.leb_spec lo hi); destruct (Nat.leb_spec hi (length s));
    simpl; try done; lia.
Qed.

Lemma slice_prefix s i : i ≤ length s → slice s 0 i = Some (take i s).
Proof.
  intros. rewrite slice_Some by lia. by rewrite Nat.sub_0_r, drop_0.
Qed.

Lemma slice_suffix s i : i ≤ length s → slice s i (length s) = Some (drop i s).
Proof.
  intros. rewrite slice_Some by lia.
  by rewrite <- (length_drop s i), firstn_all.
Qed.

Lemma slice_one s i c : s !! i = Some c → slice s i (i + 1) = Some [c].
Proof.
  intros H. pose proof (lookup_lt_Some _ _ _ H).
  rewrite slice_Some by lia. f_equal.
  replace (i + 1 - i) with 1 by lia.
  rewrite (drop_S _ _ _ H). done.
Qed.

Lemma sliceZ_nat s (lo hi : nat) :
  sliceZ s (Z.of_nat lo) (Z.of_nat hi) = slice s lo hi.
Proof.
  unfold sliceZ.
  destruct (Z.leb_spec 0 (Z.of_nat lo)); [|lia].
  destruct (Z.leb_spec 0 (Z.of_nat hi)); [|lia].
  simpl. by rewrite !Nat2Z.id.
Qed.

Lemma byteAtZ_nat s (i : nat) : byteAtZ s (Z.of_nat i) = s !! i.
Proof.
  unfold byteAtZ. destruct (Z.ltb_spec (Z.of_nat i) 0); [lia|].
  by rewrite Nat2Z.id.
Qed.

Lemma byteAtZ_neg s (i : Z) : (i < 0)%Z → byteAtZ s i = None.
Proof. unfold byteAtZ. destruct (Z.ltb_spec i 0); [done|lia]. Qed.

Lemma lcp_loop_spec a b i k :
  i + k = Nat.min (length a) (length b) →
  lcp_loop a b (Nat.min (length a) (length b)) i k
  = i + commonPrefix (drop i a) (drop i b).
Proof.
  revert i. induction k as [|k IH]; intros i Hk; cbn [lcp_loop].
  - assert (length (drop i a) = 0 ∨ length (drop i b) = 0) as [H|H]
      by (rewrite !length_drop; lia).
    + apply nil_length_inv in H. rewrite H. simpl. lia.
    + apply nil_length_inv in H. rewrite H.
      destruct (drop i a); simpl; lia.
  - destruct (Nat.ltb_spec i (Nat.min (length a) (length b))); [|lia].
    destruct (lookup_lt_is_Some_2 a i) as [x Hx]; [lia|].
    destruct (lookup_lt_is_Some_2 b i) as [y Hy]; [lia|].
    rewrite Hx, Hy, (drop_S _ _ _ Hx), (drop_S _ _ _ Hy).
    cbn [commonPrefix]. destruct (x =? y)%char; [|lia].
    rewrite IH by lia. lia.
Qed.

Lemma longestCommonPrefix_eq a b : longestCommonPrefix a b = commonPrefix a b.
Proof.
  unfold longestCommonPrefix. rewrite min_eq.
  rewrite lcp_loop_spec by lia. by rewrite !drop_0.
Qed.

Lemma commonPrefix_le_l a b : commonPrefix a b ≤ length a.
Proof.
  revert b. induction a as [|x a IH]; intros [|y b]; simpl; try lia.
  destruct (x =? y)%char; [|lia]. specialize (IH b). lia.
Qed.

Lemma commonPrefix_le_r a b : commonPrefix a b ≤ length b.
Proof.
  revert b. induction a as [|x a IH]; intros [|y b]; simpl; try lia.
  destruct (x =? y)%char; [|lia]. specialize (IH b). lia.
Qed.

Lemma commonPrefix_take a b :
  take (commonPrefix a b) a = take (commonPrefix a b) b.
Proof.
  revert b. induction a as [|x a IH]; intros [|y b]; simpl; try done.
  destruct (Ascii.eqb_spec x y); [|done]. simpl. subst. by rewrite IH.
Qed.

Lemma commonPrefix_differ a b x y :
  a !! commonPrefix a b = Some x → b !! commonPrefix a b = Some y → x ≠ y.
Proof.
  revert b. induction a as [|x' a IH]; intros [|y' b]; simpl; try done.
  destruct (Ascii.eqb_spec x' y'); simpl.
  - apply IH.
  - congruence.
Qed.

Lemma commonPrefix_app a b : commonPrefix (a ++ b) a = length a.
Proof.
  induction a as [|x a IH]; simpl; [by destruct b|].
  by rewrite Ascii.eqb_refl, IH.
Qed.

Lemma commonPrefix_full a b :
  commonPrefix a b = length b → a = b ++ drop (length b) a.
Proof.
  intros H. pose proof (commonPrefix_take a b) as Ht.
  rewrite H, firstn_all in Ht.
  rewrite <- Ht at 1. by rewrite take_drop.
Qed.

Lemma hasPrefix_spec s pre : hasPrefix s pre = true ↔ ∃ t, s = pre ++ t.
Proof.
  revert s. induction pre as [|b pre IH]; intros s; simpl.
  - destruct s; split; eauto.
  - destruct s as [|c s]; [split; [done|intros [? ?]; done]|].
    simpl. rewrite andb_true_iff, IH. split.
    + intros [Hc [t ->]]. apply Ascii.eqb_eq in Hc. subst. eauto.
    + intros [t Ht]. simplify_eq. split; [apply Ascii.eqb_refl|eauto].
Qed.

Lemma strings_Index_from_unfold s sub k :
  strings_Index_from s sub k
  = if hasPrefix s sub then Z.of_nat k
    else match s with
         | [] => (-1)%Z
         | _ :: s' => strings_Index_from s' sub (S k)
         end.
Proof. by destruct s. Qed.

(** A substring is found, at or before any of its occurrences. *)
Lemma strings_Index_from_found s sub k a b :
  s = a ++ sub ++ b →
  (Z.of_nat k ≤ strings_Index_from s sub k ≤ Z.of_nat (k + length a))%Z.
Proof.
  revert k s. induction a as [|x a IH]; intros k s ->; cbn [app];
    rewrite strings_Index_from_unfold.
  - rewrite (proj2 (hasPrefix_spec (sub ++ b) sub)) by eauto. simpl. lia.
  - destruct (hasPrefix _ _); [simpl; lia|].
    specialize (IH (S k) _ eq_refl). simpl. lia.
Qed.

Lemma strings_SplitN_prefix s :
  ∃ t, s = strings_SplitN_slash_2_0 s ++ t.
Proof.
  induction s as [|c s [t IH]]; simpl; [by exists []|].
  destruct (c =? "/")%char; [by eexists|].
  exists t. simpl. by rewrite <- IH.
Qed.
End strings.

(** ** findWildcard *)

Section findWildcard.
Implicit Types p pre tok rest scanned : gostring.

Lemma findWildcardEnd_spec p start c scanned tok rest valid :
  drop start p = c :: scanned ++ tok ++ rest →
  Forall notSlash tok →
  rest = [] ∨ head rest = Some "/"%char →
  findWildcardEnd p start (tok ++ rest) (length scanned) valid
  = (c :: scanned ++ tok, Z.of_nat start,
     valid && negb (existsb isWildByte tok)).
Proof.
  revert scanned valid.
  induction tok as [|x tok IH]; intros scanned valid Hp Htok Hrest.
  - rewrite app_nil_r, andb_true_r. simpl in *.
    destruct Hrest as [->|Hrest].
    + simpl. by rewrite Hp, app_nil_r.
    + destruct rest as [|r rest]; [done|]. simpl in Hrest. simplify_eq.
      simpl. rewrite Hp. do 2 f_equal. simpl. f_equal.
      by rewrite take_app_length.
  - inversion Htok as [|? ? Hx Htok']; subst. simpl.
    destruct (Ascii.eqb_spec x "/"); [done|].
    specialize (IH (scanned ++ [x])).
    rewrite length_app, Nat.add_1_r in IH. simpl in IH.
    destruct (isWildByte x) eqn:Hw; simpl.
    + rewrite IH; [|by rewrite <- app_assoc|done..].
      by rewrite <- app_assoc, andb_false_r.
    + rewrite IH; [|by rewrite <- app_assoc|done..].
      by rewrite <- app_assoc.
Qed.

Lemma findWildcardStart_none p cur start :
  Forall noWild cur → findWildcardStart p cur start = ([], (-1)%Z, false).
Proof.
  revert start. induction cur as [|c cur IH]; intros start H; [done|].
  inversion H as [|? ? Hc Hcur]; subst. simpl.
  unfold noWild, isWildByte in Hc. apply orb_false_elim in Hc as [-> ->].
  simpl. by apply IH.
Qed.

Lemma findWildcardStart_some p done_ pre c tok rest :
  p = done_ ++ pre ++ c :: tok ++ rest →
  Forall noWild pre →
  isWildByte c = true →
  Forall notSlash tok →
  rest = [] ∨ head rest = Some "/"%char →
  findWildcardStart p (pre ++ c :: tok ++ rest) (length done_)
  = (c :: tok, Z.of_nat (length done_ + length pre),
     negb (existsb isWildByte tok)).
Proof.
  revert done_. induction pre as [|x pre IH]; intros done_ Hp Hpre Hc Htok Hr.
  - simpl. unfold isWildByte in Hc.
    replace (negb (c =? ":")%char && negb (c =? "*")%char) with false
      by (destruct (c =? ":")%char, (c =? "*")%char; done).
    assert (drop (length done_) p = c :: [] ++ tok ++ rest) as Hd
      by (by rewrite Hp, drop_app_length).
    assert (drop (length done_ + 1) p = tok ++ rest) as ->.
    { rewrite <- drop_drop, Hd. done. }
    pose proof (findWildcardEnd_spec p _ c [] tok rest true Hd Htok Hr) as E.
    simpl in E. rewrite E. by rewrite Nat.add_0_r.
  - inversion Hpre as [|? ? Hx Hpre']; subst. simpl.
    unfold noWild, isWildByte in Hx. apply orb_false_elim in Hx as [-> ->].
    simpl. specialize (IH (done_ ++ [x])).
    rewrite length_app, Nat.add_1_r in IH. simpl in IH.
    rewrite IH; [|by rewrite <- app_assoc|done..].
    do 2 f_equal. lia.
Qed.

Lemma wildcard_decompose p :
  Forall noWild p ∨
  ∃ pre c tok rest,
    p = pre ++ c :: tok ++ rest ∧ Forall noWild pre ∧ isWildByte c = true
    ∧ Forall notSlash tok ∧ (rest = [] ∨ head rest = Some "/"%char).
Proof.
  assert (∀ s : gostring, ∃ tok rest,
             s = tok ++ rest ∧ Forall notSlash tok
             ∧ (rest = [] ∨ head rest = Some "/"%char)) as Hsplit.
  { induction s as [|x s (tok & rest & -> & Ht & Hr)].
    - exists [], []. eauto.
    - destruct (decide (x = "/"%char)) as [->|Hx].
      + exists [], ("/"%char :: tok ++ rest). eauto.
      + exists (x :: tok), rest. split_and!; [done|by constructor|done]. }
  induction p as [|x p IH]; [by left|].
  destruct (isWildByte x) eqn:Hx.
  - right. destruct (Hsplit p) as (tok & rest & -> & Ht & Hr).
    exists [], x, tok, rest. split_and!; done.
  - destruct IH as [IH|(pre & c & tok & rest & -> & ? & ? & ? & ?)].
    + left. by constructor.
    + right. exists (x :: pre), c, tok, rest.
      split_and!; try done. by constructor.
Qed.
End findWildcard.

(** C5. [findWildcard] scans for the first ':' or '*'.  A path without one
    yields the empty token, offset -1 and valid = false.  Otherwise the
    token runs from that first special byte up to, and excluding, the next
    '/' (or to the end of the string), the offset is the index of the
    special byte, and valid is false exactly when a further ':' or '*'
    occurs inside the token after its first byte.  Every path falls under
    one of the two cases. *)
Theorem findWildcard_spec (p : gostring) :
  (Forall noWild p → findWildcard p = ([], (-1)%Z, false))
  ∧ (∀ (pre : gostring) (c : ascii) (tok rest : gostring),
        p = pre ++ c :: tok ++ rest →
        Forall noWild pre →
        isWildByte c = true →
        Forall notSlash tok →
        rest = [] ∨ head rest = Some "/"%char →
        findWildcard p
        = (c :: tok, Z.of_nat (length pre), negb (existsb isWildByte tok)))
  ∧ (Forall noWild p
     ∨ ∃ (pre : gostring) (c : ascii) (tok rest : gostring),
         p = pre ++ c :: tok ++ rest ∧ Forall noWild pre
         ∧ isWildByte c = true ∧ Forall notSlash tok
         ∧ (rest = [] ∨ head rest = Some "/"%char)).
Proof.
  split_and!.
  - apply findWildcardStart_none.
  - intros pre c tok rest Hp Hpre Hc Htok Hrest.
    unfold findWildcard.
    pose proof (findWildcardStart_some p [] pre c tok rest Hp Hpre Hc Htok
                  Hrest) as E.
    simpl in E. by rewrite <- Hp in E.
  - apply wildcard_decompose.
Qed.

(** ** The cursor monad *)

Ltac munfold :=
  unfold mbind, M_bind, mret, M_ret, getN, modify, panic, mfail in *.

Section wp.
Context {A B : Type}.
Implicit Types Q : result A → node → Prop.

Lemma wp_ret (a : A) Q n : Q (Ok a) n → wp (mret a) Q n.
Proof. done. Qed.

Lemma wp_fail (e : failure) Q n : Q (Fail e) n → wp (mfail e) Q n.
Proof. done. Qed.

Lemma wp_panic msg Q n : Q (Fail (Panic msg)) n → wp (panic msg) Q n.
Proof. done. Qed.

Lemma wp_bind (m : M B) (f : B → M A) Q n :
  wp m (λ r n', match r with
                | Ok b => wp (f b) Q n'
                | Fail e => Q (Fail e) n'
                end) n →
  wp (m ≫= f) Q n.
Proof.
  unfold wp, mbind, M_bind. simpl. by destruct (m n) as [n' [b|e]].
Qed.

Lemma wp_checked (o : option A) Q n :
  match o with Some a => Q (Ok a) n | None => Q (Fail RuntimeError) n end →
  wp (checked o) Q n.
Proof. by destruct o. Qed.

Lemma wp_in_child k (m : M A) Q n :
  match n.(children) !! k with
  | Some c =>
      wp m (λ r c', Q r (set_children (<[k := c']> n.(children)) n)) c
  | None => Q (Fail RuntimeError) n
  end →
  wp (in_child k m) Q n.
Proof.
  unfold wp, in_child. destruct (children n !! k) as [c|]; [|done].
  by destruct (m c).
Qed.

Lemma wp_mono (m : M A) Q Q' n :
  wp m Q n → (∀ r n', Q r n' → Q' r n') → wp m Q' n.
Proof. unfold wp. eauto. Qed.

Lemma wp_run (m : M A) Q n n' r : wp m Q n → m n = (n', r) → Q r n'.
Proof. unfold wp. intros H E. by rewrite E in H. Qed.
End wp.

Lemma wp_get (Q : result node → node → Prop) n :
  Q (Ok n) n → wp getN Q n.
Proof. done. Qed.

Lemma wp_modify f (Q : result unit → node → Prop) n :
  Q (Ok tt) (f n) → wp (modify f) Q n.
Proof. done. Qed.

(** ** incrementChildPrio *)

Section incrementChildPrio.
Implicit Types cs front back : list node.

Lemma moveToFront_app front x back prio :
  ∃ f1 f2,
    front = f1 ++ f2
    ∧ moveToFront (front ++ x :: back) (length front) prio
      = (f1 ++ x :: f2 ++ back, length f1)
    ∧ Forall (λ y, (y.(priority) < prio)%Z) f2
    ∧ (f1 = [] ∨ ∃ f1' y, f1 = f1' ++ [y] ∧ (prio ≤ y.(priority))%Z).
Proof.
  revert back. induction front as [|l fr IH] using rev_ind; intros back.
  - exists [], []. split_and!; eauto.
  - rewrite length_app, Nat.add_1_r. cbn [moveToFront].
    rewrite <- app_assoc. cbn [app].
    rewrite (list_lookup_middle fr (x :: back) l (length fr) eq_refl).
    replace ((fr ++ l :: x :: back) !! S (length fr)) with (Some x); last first.
    { rewrite lookup_app_r by lia.
      by replace (S (length fr) - length fr) with 1 by lia. }
    destruct (Z.ltb_spec l.(priority) prio) as [Hlt|Hge].
    + replace (<[length fr:=x]> (<[S (length fr):=l]> (fr ++ l :: x :: back)))
        with (fr ++ x :: l :: back); last first.
      { rewrite insert_app_r_alt by lia.
        replace (S (length fr) - length fr) with 1 by lia. cbn.
        rewrite insert_app_r_alt by lia.
        by rewrite Nat.sub_diag. }
      destruct (IH (l :: back)) as (f1 & f2 & -> & -> & Hf2 & Hf1).
      exists f1, (f2 ++ [l]). split_and!.
      * by rewrite app_assoc.
      * by rewrite <- !app_assoc.
      * apply Forall_app. split; [done|]. by constructor.
      * done.
    + exists (fr ++ [l]), []. split_and!.
      * by rewrite app_nil_r.
      * by rewrite <- !app_assoc, length_app, Nat.add_1_r.
      * constructor.
      * right. eauto.
Qed.

Lemma removeAt_middle {A} (l1 l2 : list A) x :
  removeAt (length l1) (l1 ++ x :: l2) = l1 ++ l2.
Proof.
  unfold removeAt. rewrite take_app_length. f_equal.
  replace (l1 ++ x :: l2) with ((l1 ++ [x]) ++ l2) by (by rewrite <- app_assoc).
  apply drop_app_length'. rewrite length_app. simpl. lia.
Qed.

Lemma insertAt_app {A} (l1 l2 : list A) x :
  insertAt (length l1) x (l1 ++ l2) = l1 ++ x :: l2.
Proof. unfold insertAt. by rewrite take_app_length, drop_app_length. Qed.

Lemma insertAt_removeAt_same {A} (l : list A) pos x :
  l !! pos = Some x → insertAt pos x (removeAt pos l) = l.
Proof.
  intros H. pose proof (take_drop_middle _ _ _ H) as Hl.
  assert (length (take pos l) = pos) as Hlen.
  { rewrite length_take. apply lookup_lt_Some in H. lia. }
  rewrite <- Hl at 1. rewrite <- Hlen at 1 2.
  by rewrite removeAt_middle, insertAt_app.
Qed.
End incrementChildPrio.

Section incrementChildPrio_run.
Implicit Types front back : list node.

Lemma rebuild_indices (idx : gostring) (newPos pos : nat) (b : ascii) :
  newPos ≤ pos → idx !! pos = Some b →
  (a ← slice idx 0 newPos;
   b' ← slice idx pos (pos + 1);
   c ← slice idx newPos pos;
   d ← slice idx (pos + 1) (length idx);
   Some (a ++ b' ++ c ++ d))
  = Some (insertAt newPos b (removeAt pos idx)).
Proof.
  intros Hle Hb. pose proof (lookup_lt_Some _ _ _ Hb) as Hlt.
  rewrite slice_prefix, (slice_one _ _ _ Hb), slice_suffix by lia.
  rewrite (slice_Some idx newPos pos) by lia.
  cbn [mbind option_bind app]. f_equal.
  unfold insertAt, removeAt.
  rewrite take_app_le by (rewrite length_take; lia).
  rewrite take_take, Nat.min_l by lia.
  rewrite drop_app_le by (rewrite length_take; lia).
  rewrite take_drop_commute.
  replace (newPos + (pos - newPos)) with pos by lia.
  by replace (pos + 1) with (S pos) by lia.
Qed.

Lemma rebuild_indices_None (idx : gostring) (newPos pos : nat) :
  idx !! pos = None →
  (a ← slice idx 0 newPos;
   b' ← slice idx pos (pos + 1);
   c ← slice idx newPos pos;
   d ← slice idx (pos + 1) (length idx);
   Some (a ++ b' ++ c ++ d))
  = None.
Proof.
  intros Hb. apply lookup_ge_None in Hb.
  destruct (slice idx 0 newPos); cbn [mbind option_bind]; [|done].
  by rewrite (slice_None idx pos (pos + 1)) by lia.
Qed.

Lemma incrementChildPrio_run n front c back :
  n.(children) = front ++ c :: back →
  ∃ f1 f2,
    front = f1 ++ f2
    ∧ Forall (λ y, (y.(priority) < wrap32 (c.(priority) + 1))%Z) f2
    ∧ (f1 = [] ∨ ∃ f1' y, f1 = f1' ++ [y]
                           ∧ (wrap32 (c.(priority) + 1) ≤ y.(priority))%Z)
    ∧ incrementChildPrio (length front) n
      = let n1 := set_children (f1 ++ incPriority c :: f2 ++ back) n in
        if bool_decide (length f1 ≠ length front) then
          match n.(indices) !! length front with
          | Some b =>
              (set_indices
                 (insertAt (length f1) b (removeAt (length front) n.(indices)))
                 n1, Ok (length f1))
          | None => (n1, Fail RuntimeError)
          end
        else (n1, Ok (length f1)).
Proof.
  intros Hcs.
  destruct (moveToFront_app front (incPriority c) back
              (wrap32 (c.(priority) + 1))) as (f1 & f2 & Hfr & Hmv & Hf2 & Hf1).
  exists f1, f2. split_and!; try done.
  unfold incrementChildPrio. munfold. unfold checked. munfold. cbn beta.
  rewrite Hcs, list_lookup_middle by done. cbn beta iota.
  rewrite insert_app_r_alt, Nat.sub_diag by lia. cbn [insert list_insert].
  change (priority (incPriority c)) with (wrap32 (priority c + 1)).
  rewrite Hmv. cbn beta iota.
  assert (length f1 ≤ length front) by (rewrite Hfr, length_app; lia).
  case_bool_decide; [|done].
  destruct (indices n !! length front) as [b|] eqn:Hb.
  - by rewrite (rebuild_indices _ _ _ b).
  - by rewrite rebuild_indices_None.
Qed.
End incrementChildPrio_run.

(** C9. [incrementChildPrio pos] on a node whose child at [pos] is [c]:
    the children split as [f1 ++ f2 ++ c :: back] with [pos] the length of
    [f1 ++ f2]; the priority of [c] is incremented by one (uint32); the
    bumped child moves left past [f2], the neighbours of strictly smaller
    priority, and stops at position 0 or behind the last node of [f1],
    whose priority is greater than or equal (equal priorities do not move).
    When [pos] is also an index of firstBytes, the result is the final
    index, the length of [f1], and firstBytes is rebuilt by removing the
    byte at [pos] and putting it back at the new index, the other bytes
    keeping their order.  When the child did not move, the result is [pos]
    and firstBytes is left alone.  When the child moved and [pos] is not an
    index of firstBytes (the child is the wildcard child, which has no
    first byte), the call ends in the slice-out-of-range panic, with the
    children already reordered.  Nothing else of the node changes. *)
Theorem incrementChildPrio_spec (n : node) (pos : nat) (c : node) :
  n.(children) !! pos = Some c →
  ∃ (f1 f2 back : list node),
    n.(children) = f1 ++ f2 ++ c :: back
    ∧ length (f1 ++ f2) = pos
    ∧ (incPriority c).(priority) = ((c.(priority) + 1) mod 2 ^ 32)%Z
    ∧ Forall (λ y, (y.(priority) < (incPriority c).(priority))%Z) f2
    ∧ (f1 = [] ∨ ∃ f1' y, f1 = f1' ++ [y]
                           ∧ ((incPriority c).(priority) ≤ y.(priority))%Z)
    ∧ let n' := (incrementChildPrio pos n).1 in
      n'.(children) = f1 ++ incPriority c :: f2 ++ back
      ∧ n'.(path) = n.(path) ∧ n'.(wildChild) = n.(wildChild)
      ∧ n'.(nType) = n.(nType) ∧ n'.(priority) = n.(priority)
      ∧ n'.(handlers) = n.(handlers) ∧ n'.(fullPath) = n.(fullPath)
      ∧ (∀ b, n.(indices) !! pos = Some b →
           (incrementChildPrio pos n).2 = Ok (length f1)
           ∧ n'.(indices) = insertAt (length f1) b (removeAt pos n.(indices)))
      ∧ (f2 = [] →
           (incrementChildPrio pos n).2 = Ok pos
           ∧ n'.(indices) = n.(indices))
      ∧ (n.(indices) !! pos = None → f2 ≠ [] →
           (incrementChildPrio pos n).2 = Fail RuntimeError).
Proof.
  intros Hc.
  pose proof (take_drop_middle _ _ _ Hc) as Hcs. symmetry in Hcs.
  pose proof (lookup_lt_Some _ _ _ Hc) as Hlt.
  destruct (incrementChildPrio_run n _ c _ Hcs)
    as (f1 & f2 & Hfr & Hf2 & Hf1 & Hrun).
  rewrite length_take, Nat.min_l in Hrun by lia.
  assert (length (f1 ++ f2) = pos) as Hlen
    by (rewrite <- Hfr, length_take; lia).
  exists f1, f2, (drop (S pos) n.(children)).
  split_and!; try done.
  - by rewrite app_assoc, <- Hfr.
  - rewrite Hrun. cbn zeta.
    rewrite length_app in Hlen.
    case_bool_decide as Hmv.
    + destruct (indices n !! pos) as [b|] eqn:Hb; cbn.
      * split_and!; try done.
        -- intros ? [= <-]. done.
        -- intros ->. simpl in *. lia.
      * split_and!; try done. intros ->. simpl in *. lia.
    + cbn. split_and!; try done.
      * intros b Hb. split; [by rewrite Hmv|].
        assert (f2 = []) as -> by (apply nil_length_inv; lia).
        rewrite Hmv. by rewrite insertAt_removeAt_same.
      * intros _. by rewrite Hmv.
      * intros _ Hne. destruct Hne. apply nil_length_inv. lia.
Qed.

(** ** splitNode *)

Lemma splitNode_run (n : node) (p fullP : gostring) (pfi : nat) :
  let i := longestCommonPrefix p n.(path) in
  i < length n.(path) →
  ∃ b, n.(path) !! i = Some b
    ∧ let child :=
        mkNode (drop i n.(path)) n.(indices) n.(wildChild) static
               (wrap32 (n.(priority) - 1)) n.(children) n.(handlers)
               n.(fullPath) in
      let n1 :=
        mkNode (take i n.(path)) [b] false n.(nType) n.(priority) [child] None
               n.(fullPath) in
      splitNode i p fullP pfi n
      = match slice fullP 0 (pfi + i) with
        | Some fp => (set_fullPath fp n1, Ok tt)
        | None => (n1, Fail RuntimeError)
        end.
Proof.
  intros i Hi.
  destruct (lookup_lt_is_Some_2 n.(path) i Hi) as [b Hb].
  exists b. split; [done|].
  assert (i ≤ length p) as Hip
    by (unfold i; rewrite longestCommonPrefix_eq; apply commonPrefix_le_l).
  assert (take i p = take i n.(path)) as Htake
    by (unfold i; rewrite longestCommonPrefix_eq; apply commonPrefix_take).
  unfold splitNode. munfold. unfold checked, byteAt. munfold. cbn beta.
  rewrite slice_suffix by lia. cbn beta iota.
  cbn [path set_children]. rewrite Hb. cbn beta iota.
  rewrite slice_prefix by lia. cbn beta iota. rewrite Htake.
  by destruct (slice fullP 0 (pfi + i)).
Qed.

(** C3. When the longest common prefix [i] of the remaining path and the
    cursor's segment is shorter than the segment, the split makes one new
    child carrying [n.path[i:]] with the former children, firstBytes,
    wildcard flag and action of [n] and the priority of [n] less one
    (uint32); [n] keeps the first [i] bytes of its segment, that child as
    its only child, the child's first byte as firstBytes, no wildcard flag
    and no action. *)
Theorem splitNode_spec (n : node) (p fullP : gostring) (pfi : nat) :
  let i := longestCommonPrefix p n.(path) in
  i < length n.(path) →
  let n' := (splitNode i p fullP pfi n).1 in
  ∃ child,
    n'.(children) = [child]
    ∧ child.(path) = drop i n.(path)
    ∧ child.(children) = n.(children)
    ∧ child.(indices) = n.(indices)
    ∧ child.(wildChild) = n.(wildChild)
    ∧ child.(handlers) = n.(handlers)
    ∧ child.(priority) = ((n.(priority) - 1) mod 2 ^ 32)%Z
    ∧ ((0 < n.(priority) < 2 ^ 32)%Z → child.(priority) = (n.(priority) - 1)%Z)
    ∧ n'.(path) = take i n.(path)
    ∧ n'.(indices) = take 1 child.(path)
    ∧ length n'.(indices) = 1
    ∧ n'.(wildChild) = false
    ∧ n'.(handlers) = None.
Proof.
  intros i Hi n'.
  destruct (splitNode_run n p fullP pfi Hi) as (b & Hb & Hrun).
  fold i in Hrun. unfold n'. rewrite Hrun.
  fold i in Hb.
  eexists. destruct (slice fullP 0 (pfi + i)); cbn;
    (split_and!; try done; simpl;
     [ intros ?; unfold wrap32; rewrite Z.mod_small; [done|];
       change (2 ^ 32)%Z with 4294967296%Z in *; lia
     | by rewrite (drop_S _ _ _ Hb) ]).
Qed.

(** ** insertChild *)

Lemma findWildcard_inv (p w : gostring) (i : Z) (v : bool) :
  findWildcard p = (w, i, v) →
  (Forall noWild p ∧ w = [] ∧ i = (-1)%Z ∧ v = false)
  ∨ ∃ (pre : gostring) (c : ascii) (tok rest : gostring),
      p = pre ++ c :: tok ++ rest ∧ Forall noWild pre ∧ isWildByte c = true
      ∧ Forall notSlash tok ∧ (rest = [] ∨ head rest = Some "/"%char)
      ∧ w = c :: tok ∧ i = Z.of_nat (length pre)
      ∧ v = negb (existsb isWildByte tok).
Proof.
  intros Hfw. unfold findWildcard in Hfw.
  destruct (wildcard_decompose p)
    as [Hp|(pre & c & tok & rest & Hp & Hpre & Hc & Htok & Hr)].
  - left. rewrite findWildcardStart_none in Hfw by done. by simplify_eq.
  - right. exists pre, c, tok, rest.
    pose proof (findWildcardStart_some p [] pre c tok rest Hp Hpre Hc Htok Hr)
      as E.
    simpl in E. rewrite <- Hp, Hfw in E. by simplify_eq.
Qed.

Lemma addChild_plain (n child : node) :
  n.(wildChild) = false →
  addChild child n
  = (set_children (n.(children) ++ [child]) n, Ok (length n.(children))).
Proof. intros H. unfold addChild. munfold. cbn beta. by rewrite H. Qed.

Lemma addChild_nil (n child : node) :
  n.(children) = [] → addChild child n = (set_children [child] n, Ok 0).
Proof.
  intros H. unfold addChild. munfold. cbn beta. rewrite H. cbn.
  by rewrite andb_false_r.
Qed.

Lemma addChild_wild (n child w : node) (init : list node) :
  n.(wildChild) = true → n.(children) = init ++ [w] →
  addChild child n = (set_children (init ++ [child; w]) n, Ok (length init)).
Proof.
  intros Hw Hcs. unfold addChild. munfold. cbn beta. rewrite Hw, Hcs.
  rewrite length_app, Nat.add_1_r. cbn [Nat.ltb Nat.leb andb].
  replace (S (length init) - 1) with (length init) by lia.
  rewrite list_lookup_middle by done. cbn.
  by rewrite take_app_length.
Qed.

Lemma endsWithSlash_spec (s : gostring) :
  endsWithSlash s = true ↔ ∃ s', s = s' ++ ["/"%char].
Proof.
  unfold endsWithSlash, byteAt. split.
  - intros [Hlen Hlast]%andb_true_iff. apply bool_decide_eq_true in Hlast.
    exists (take (length s - 1) s).
    pose proof (take_drop_middle _ _ _ Hlast) as E.
    rewrite drop_ge in E by lia. done.
  - intros [s' ->]. rewrite length_app, Nat.add_1_r. cbn.
    rewrite Nat.sub_0_r, list_lookup_middle by done.
    by rewrite bool_decide_eq_true_2.
Qed.

Lemma wp_seq {A B} (m : M B) (f : B → M A) (Qmid : result B → node → Prop)
    (Q : result A → node → Prop) n :
  wp m Qmid n →
  (∀ b n', Qmid (Ok b) n' → wp (f b) Q n') →
  (∀ e n', Qmid (Fail e) n' → Q (Fail e) n') →
  wp (m ≫= f) Q n.
Proof.
  intros Hm Hok Hfail. apply wp_bind. eapply wp_mono; [exact Hm|].
  intros [b|e] n' H; eauto.
Qed.

Lemma wp_eq {A} (m : M A) (Q : result A → node → Prop) n n' r :
  m n = (n', r) → Q r n' → wp m Q n.
Proof. unfold wp. by intros ->. Qed.

Lemma wp_addChild child (Q : result nat → node → Prop) n :
  (∀ k cs', cs' !! k = Some child → Q (Ok k) (set_children cs' n)) →
  wp (addChild child) Q n.
Proof.
  intros H. unfold wp.
  destruct (wildChild n) eqn:Hw; [|rewrite addChild_plain by done; apply H;
    by rewrite lookup_app_r, Nat.sub_diag by lia].
  destruct (children n) as [|c cs] eqn:Hcs using rev_ind.
  - rewrite addChild_nil by done. by apply H.
  - rewrite (addChild_wild n child c cs) by done. apply H.
    by rewrite list_lookup_middle.
Qed.

Ltac wp_step :=
  lazymatch goal with
  | |- wp (mbind _ _) _ _ => apply wp_bind
  | |- wp getN _ _ => apply wp_get
  | |- wp (modify _) _ _ => apply wp_modify
  | |- wp (checked _) _ _ => apply wp_checked
  | |- wp (in_child _ _) _ _ => apply wp_in_child
  | |- wp (mret _) _ _ => apply wp_ret
  | |- wp (panic _) _ _ => apply wp_panic
  | |- wp (mfail _) _ _ => apply wp_fail
  end; cbn beta iota.

Ltac wp_steps := repeat wp_step.

(** Reduce the record projections and setters, and nothing else. *)
Ltac nsimpl :=
  cbn [path indices wildChild nType priority children handlers fullPath
       set_path set_indices set_wildChild set_nType set_priority set_children
       set_handlers set_fullPath incPriority fst snd].
Tactic Notation "nsimpl" "in" hyp(H) :=
  cbn [path indices wildChild nType priority children handlers fullPath
       set_path set_indices set_wildChild set_nType set_priority set_children
       set_handlers set_fullPath incPriority fst snd] in H.




Lemma slice_inv (s : gostring) lo hi x :
  slice s lo hi = Some x → lo ≤ hi ∧ hi ≤ length s ∧ x = take (hi - lo) (drop lo s).
Proof.
  unfold slice. destruct (Nat.leb_spec lo hi); [|done].
  destruct (Nat.leb_spec hi (length s)); [|done]. intros [= <-]. done.
Qed.

Lemma slice_to_end_inv (s : gostring) lo x :
  slice s lo (length s) = Some x → lo ≤ length s ∧ x = drop lo s.
Proof.
  intros (? & ? & ->)%slice_inv. split; [done|].
  by rewrite <- (length_drop s lo), firstn_all.
Qed.

Lemma sliceZ_inv (s : gostring) (lo hi : Z) x :
  sliceZ s lo hi = Some x →
  (0 ≤ lo)%Z ∧ (0 ≤ hi)%Z ∧ slice s (Z.to_nat lo) (Z.to_nat hi) = Some x.
Proof.
  unfold sliceZ. destruct (Z.leb_spec 0 lo); [|done].
  destruct (Z.leb_spec 0 hi); [|done]. done.
Qed.

Lemma sliceZ_to_end_inv (s : gostring) (lo : Z) x :
  sliceZ s lo (Z.of_nat (length s)) = Some x →
  (0 ≤ lo)%Z ∧ Z.to_nat lo ≤ length s ∧ x = drop (Z.to_nat lo) s.
Proof.
  intros Hs. apply sliceZ_inv in Hs. destruct Hs as (? & ? & H).
  rewrite Nat2Z.id in H. by destruct (slice_to_end_inv _ _ _ H) as [? ->].
Qed.

Lemma sliceZ_from_start_inv (s : gostring) (hi : Z) x :
  sliceZ s 0 hi = Some x →
  (0 ≤ hi)%Z ∧ Z.to_nat hi ≤ length s ∧ x = take (Z.to_nat hi) s.
Proof.
  intros Hs. apply sliceZ_inv in Hs. destruct Hs as (? & ? & H).
  change (Z.to_nat 0) with 0 in H.
  apply slice_inv in H. destruct H as (? & ? & ->).
  by rewrite Nat.sub_0_r, drop_0.
Qed.

Ltac msg_absurd :=
  match goal with
  | H : Fail (Panic ?a) = Fail (Panic ?b) |- _ =>
      exfalso; injection H as H; discriminate H
  end.

Lemma insertChild_loop_panics fuel p fullP hs n :
  wp (insertChild_loop fuel p fullP hs)
     (λ r _,
        (r = Fail (Panic (msg_catchAllConflict fullP)) →
         catchAllConflictCase p n)
        ∧ (r = Fail (Panic (msg_noSlashBeforeCatchAll fullP)) →
           noSlashCase p)) n.
Proof.
  revert p n. induction fuel as [|fuel IH]; intros p n; [done|].
  cbn [insertChild_loop].
  destruct (findWildcard p) as [[w i] v] eqn:Hfw.
  destruct (findWildcard_inv _ _ _ _ Hfw)
    as [(Hp & -> & -> & ->)
       |(pre & c & tok & rest & Hp & Hpre & Hc & Htok & Hr & -> & -> & ->)].
  { cbn. by wp_steps. }
  destruct (Z.ltb_spec (Z.of_nat (length pre)) 0); [lia|].
  destruct (negb (existsb isWildByte tok)) eqn:Hv; cbn [negb];
    [|wp_step; split; intros; msg_absurd].
  destruct (Nat.ltb_spec (length (c :: tok)) 2) as [|Hlen];
    [wp_step; split; intros; msg_absurd|].
  wp_steps. cbn [byteAt lookup list_lookup].
  destruct (Ascii.eqb_spec c ":") as [->|Hcolon].
  - apply wp_seq with
      (Qmid := λ r _, match r with
                      | Ok p' => p' `suffix_of` p
                      | Fail e => e = RuntimeError
                      end).
    { destruct (0 <? Z.of_nat (length pre))%Z; [|by wp_steps].
      wp_steps. destruct (sliceZ p 0 _); [|done].
      wp_steps. destruct (sliceZ p _ _) eqn:Hs; [|done].
      apply sliceZ_to_end_inv in Hs as (_ & _ & ->). apply suffix_drop. }
    2:{ by intros e n' ->. }
    intros p' n1 Hsuf.
    wp_step. eapply wp_addChild. intros k cs' Hk.
    wp_steps. nsimpl. rewrite Hk. wp_steps.
    destruct (length (":"%char :: tok) <? length p'); [|by wp_steps].
    wp_steps. destruct (slice p' _ (length p')) as [p''|] eqn:Hp''; [|done].
    wp_step. eapply wp_eq; [by apply addChild_nil|]. cbn beta iota.
    wp_step. nsimpl. cbn [lookup list_lookup].
    eapply wp_mono; [by apply IH|]. cbn beta.
    intros r _ [Hconf Hns]. split.
    + intros Hr'. destruct (Hconf Hr') as (? & ? & _ & _ & _ & _ & s' & Hs').
      by destruct s'.
    + intros Hr'. destruct (Hns Hr') as (q & w & i & b & Hq & Hrest).
      exists q, w, i, b. split; [|done].
      apply slice_to_end_inv in Hp'' as (_ & ->).
      etrans; [exact Hq|]. etrans; [apply suffix_drop|done].
  - assert (c = "*"%char) as ->.
    { unfold isWildByte in Hc. apply orb_true_iff in Hc as [Hc|Hc];
        apply Ascii.eqb_eq in Hc; done. }
    destruct (Z.eqb_spec (Z.of_nat (length pre) + Z.of_nat (length ("*"%char :: tok)))
                (Z.of_nat (length p))) as [Hend|Hend]; cbn [negb];
      [|wp_step; split; intros; msg_absurd].
    wp_steps. fold (endsWithSlash n.(path)).
    destruct (endsWithSlash n.(path)) eqn:Hslash.
    { wp_step. split; [|intros; msg_absurd]. intros _.
      exists ("*"%char :: tok), (Z.of_nat (length pre)).
      split_and!; try done. by apply endsWithSlash_spec. }
    wp_steps.
    destruct (byteAtZ _ _) as [b|] eqn:Hb; [|done].
    destruct (Ascii.eqb_spec b "/") as [->|Hbs]; cbn [negb].
    2:{ wp_step. split; [intros; msg_absurd|]. intros _.
        exists p, ("*"%char :: tok), (Z.of_nat (length pre)), b.
        split_and!; try done.
        destruct (Z.le_gt_cases 1 (Z.of_nat (length pre))); [done|].
        rewrite byteAtZ_neg in Hb by lia. done. }
    wp_steps.
    destruct (sliceZ _ _ _); [|done]. wp_steps.
    eapply wp_addChild. intros k cs' Hk.
    wp_steps. nsimpl. rewrite Hk. wp_steps.
    destruct (sliceZ _ _ _); [|done]. by wp_steps.
Qed.

(** C6 (as amended). [insertChild] fails with the "catch-all conflicts with
    existing handle for the path segment root" panic exactly when the first
    wildcard token of its path is a well-formed catch-all (one marker, a
    non-empty name) that runs to the end of the path and the segment of the
    node it is called on is non-empty and ends in '/'; whether that node
    carries an action plays no part. *)
Theorem insertChild_catchAll_conflict_iff (n : node) (p fullP : gostring)
    (hs : HandlersChain) :
  (insertChild p fullP hs n).2 = Fail (Panic (msg_catchAllConflict fullP))
  ↔ catchAllConflictCase p n.
Proof.
  split.
  - pose proof (insertChild_loop_panics (S (length p)) p fullP hs n) as H.
    unfold wp in H. apply H.
  - intros (w & i & Hfw & Hlen & Hw & Hend & Hs).
    apply endsWithSlash_spec in Hs.
    destruct (findWildcard_inv _ _ _ _ Hfw)
      as [(_ & -> & _)
         |(pre & c & tok & rest & _ & _ & _ & _ & _ & -> & -> & _)];
      [simpl in Hlen; lia|].
    simpl in Hw. simplify_eq.
    unfold insertChild. cbn [insertChild_loop]. rewrite Hfw.
    destruct (Z.ltb_spec (Z.of_nat (length pre)) 0); [lia|].
    cbn [negb].
    destruct (Nat.ltb_spec (length ("*"%char :: tok)) 2); [lia|].
    apply Z.eqb_eq in Hend.
    munfold. unfold checked. cbn [byteAt lookup list_lookup]. munfold.
    cbn beta iota. rewrite Hend. cbn [negb Ascii.eqb Bool.eqb].
    fold (endsWithSlash n.(path)). by rewrite Hs.
Qed.

(** C6, the claim as stated fails: a node whose segment ends in '/' and
    which carries no action still gets the segment-root conflict panic; it
    is the root reached by registering "/a/b" and "/a/c", and registering
    "/a/*x" on it fails with that panic. *)
Lemma catchAll_conflict_without_action :
  ∃ t : node,
    addRoutes [(str "/a/b", Some 1); (str "/a/c", Some 2)] zeroNode = Some t
    ∧ t.(path) = str "/a/" ∧ t.(handlers) = None
    ∧ (addRoute (str "/a/*x") (Some 3) t).2
      = Fail (Panic (msg_catchAllConflict (str "/a/*x")))
    ∧ ¬ ((insertChild (str "*x") (str "/a/*x") (Some 3) t).2
         = Fail (Panic (msg_catchAllConflict (str "/a/*x")))
         ↔ (endsWithSlash t.(path) = true ∧ t.(handlers) ≠ None)).
Proof.
  eexists. split; [vm_compute; reflexivity|].
  split_and!; [vm_compute; reflexivity..|].
  intros [H _]. destruct H as [_ H]; [vm_compute; reflexivity|]. by apply H.
Qed.

(** C10. A catch-all token at offset 0 that passes the earlier checks (it
    holds no second ':' or '*', it has a name, it runs to the end of the
    path, and the segment of the node does not end in '/') makes
    [insertChild] index [path[-1]]: the call ends in the run-time
    index-out-of-range panic with the node untouched, not in the
    "no / before catch-all" panic; registering "*name" in an empty tree
    does so.  The "no / before catch-all" panic is only raised for a
    catch-all token at an offset of at least 1 of the path then being
    processed, whose preceding byte is not '/'.  The last part gives the
    outcome for every catch-all token at offset 0: the panic of the first
    of the earlier checks that fails, and the out-of-range access when
    none does. *)
Theorem insertChild_catchAll_offset_0 :
  (∀ (n : node) (p fullP w : gostring) (hs : HandlersChain),
      findWildcard p = (w, 0%Z, true) → 2 ≤ length w →
      head w = Some "*"%char → length w = length p →
      endsWithSlash n.(path) = false →
      insertChild p fullP hs n = (n, Fail RuntimeError))
  ∧ (∀ hs, addRoute (str "*name") hs zeroNode
           = (incPriority zeroNode, Fail RuntimeError))
  ∧ (∀ (n : node) (p fullP : gostring) (hs : HandlersChain),
        (insertChild p fullP hs n).2
        = Fail (Panic (msg_noSlashBeforeCatchAll fullP)) →
        noSlashCase p)
  ∧ (∀ (n : node) (p fullP w : gostring) (hs : HandlersChain)
       (valid : bool),
        findWildcard p = (w, 0%Z, valid) → head w = Some "*"%char →
        insertChild p fullP hs n
        = (n, Fail (if negb valid
                    then Panic (msg_onlyOneWildcard w fullP)
                    else if length w <? 2
                    then Panic (msg_unnamedWildcard fullP)
                    else if negb (length w =? length p)
                    then Panic (msg_catchAllNotLast fullP)
                    else if endsWithSlash n.(path)
                    then Panic (msg_catchAllConflict fullP)
                    else RuntimeError))).
Proof.
  split_and!.
  - intros n p fullP w hs Hfw Hlen Hw Hend Hs.
    destruct w as [|c tok]; [done|]. simpl in Hw. simplify_eq.
    unfold insertChild. cbn [insertChild_loop]. rewrite Hfw.
    cbn [Z.ltb Z.compare negb].
    destruct (Nat.ltb_spec (length ("*"%char :: tok)) 2); [lia|].
    munfold. unfold checked. cbn [byteAt lookup list_lookup]. munfold.
    cbn beta iota. rewrite Hend, Z.add_0_l, Z.eqb_refl.
    cbn [negb Ascii.eqb Bool.eqb].
    fold (endsWithSlash n.(path)). by rewrite Hs.
  - intros hs. vm_compute. reflexivity.
  - intros n p fullP hs H.
    pose proof (insertChild_loop_panics (S (length p)) p fullP hs n) as Hp.
    unfold wp in Hp. by apply Hp.
  - intros n p fullP w hs valid Hfw Hw.
    destruct w as [|c tok]; [done|]. simpl in Hw. simplify_eq.
    unfold insertChild. cbn [insertChild_loop]. rewrite Hfw.
    cbn [Z.ltb Z.compare].
    destruct valid; cbn [negb]; [|reflexivity].
    destruct (length ("*"%char :: tok) <? 2); [reflexivity|].
    munfold. unfold checked. cbn [byteAt lookup list_lookup]. munfold.
    cbn beta iota. rewrite Z.add_0_l.
    cbn [negb Ascii.eqb Bool.eqb].
    destruct (Nat.eqb_spec (length ("*"%char :: tok)) (length p))
      as [Hend|Hend].
    + rewrite Hend, Z.eqb_refl. cbn [negb].
      fold (endsWithSlash n.(path)).
      by destruct (endsWithSlash (path n)).
    + destruct (Z.eqb_spec (Z.of_nat (length ("*"%char :: tok)))
                  (Z.of_nat (length p))) as [E|_]; [|reflexivity].
      apply Nat2Z.inj in E. done.
Qed.

(** ** Wildcard conflicts *)

(** C1. After "/user/:name" is registered, registering "/user/:id" panics
    with the wildcard-conflict message naming the conflicting segment
    ":id", the new full path "/user/:id", the existing wildcard ":name" and
    the prefix "/user/:name"; registering "/user/:name/profile" succeeds
    instead, and in the resulting tree the param node ":name" still carries
    the first action and its child "/profile" carries the second. *)
Theorem wildcard_conflict_user_name :
  ∃ t : node,
    addRoute (str "/user/:name") (Some 1) zeroNode = (t, Ok tt)
    ∧ (addRoute (str "/user/:id") (Some 2) t).2
      = Fail (Panic (msg_wildcardConflict (str ":id") (str "/user/:id")
                       (str ":name") (str "/user/:name")))
    ∧ msg_wildcardConflict (str ":id") (str "/user/:id") (str ":name")
        (str "/user/:name")
      = str "':id' in new path '/user/:id' conflicts with existing wildcard ':name' in existing prefix '/user/:name'"
    ∧ addRoute (str "/user/:name/profile") (Some 2) t
      = (mkNode (str "/user/") [] true root 2
           [mkNode (str ":name") (str "/") false param 2
              [mkNode (str "/profile") [] false static 1 [] (Some 2)
                 (str "/user/:name/profile")]
              (Some 1) (str "/user/:name")]
           None [],
         Ok tt).
Proof.
  eexists. split; [vm_compute; reflexivity|].
  split_and!; vm_compute; reflexivity.
Qed.

(** ** Well-formedness is preserved *)

Lemma wf_inv n : wf n → localShape n ∧ Forall wf n.(children).
Proof. by inversion 1. Qed.

Lemma wf_fields n m :
  n.(path) = m.(path) → n.(indices) = m.(indices) →
  n.(wildChild) = m.(wildChild) → n.(nType) = m.(nType) →
  n.(children) = m.(children) → wf n → wf m.
Proof.
  destruct n, m. simpl. intros -> -> -> -> -> H.
  inversion H as [? Hl Hc]; subst. constructor; [|done].
  exact Hl.
Qed.

Lemma wf_incPriority n : wf n → wf (incPriority n).
Proof. by apply wf_fields. Qed.

Lemma wf_set_handlers hs n : wf n → wf (set_handlers hs n).
Proof. by apply wf_fields. Qed.

Lemma wf_set_fullPath fp n : wf n → wf (set_fullPath fp n).
Proof. by apply wf_fields. Qed.

Lemma isCatchAllLeaf_wf l : isCatchAllLeaf l → wf l.
Proof.
  intros Hl. constructor; [by left|].
  destruct Hl as (_ & -> & _). constructor.
Qed.

Lemma isCatchAllHolder_wf c : isCatchAllHolder c → wf c.
Proof.
  intros Hc. constructor; [by right; left|].
  destruct Hc as (_ & _ & _ & _ & l & -> & Hl).
  constructor; [by apply isCatchAllLeaf_wf|constructor].
Qed.

Lemma blank_wf n :
  n.(nType) ≠ catchAll → n.(nType) ≠ param →
  n.(children) = [] → n.(indices) = [] → n.(wildChild) = false → wf n.
Proof.
  intros Ht Hp Hc Hi Hw. constructor; [|rewrite Hc; constructor].
  right; right; right. split_and!; try done.
  - rewrite Hi. constructor.
  - exists [], []. rewrite Hc, Hi, Hw. split_and!; done.
Qed.

Lemma plain_of_wf n :
  wf n → n.(nType) ≠ catchAll → n.(nType) ≠ param → isPlain n.
Proof.
  intros [Hl _]%wf_inv Hc Hp.
  destruct Hl as [(? & _)|[(? & _)|[(? & _)|?]]]; done.
Qed.

Lemma sliceZ_pre (pre s : gostring) :
  sliceZ (pre ++ s) 0 (Z.of_nat (length pre)) = Some pre.
Proof.
  change 0%Z with (Z.of_nat 0). rewrite sliceZ_nat, slice_prefix.
  - by rewrite take_app_length.
  - rewrite length_app. lia.
Qed.

Lemma sliceZ_post (pre s : gostring) :
  sliceZ (pre ++ s) (Z.of_nat (length pre)) (Z.of_nat (length (pre ++ s)))
  = Some s.
Proof.
  rewrite sliceZ_nat, slice_suffix.
  - by rewrite drop_app_length.
  - rewrite length_app. lia.
Qed.

Lemma slice_post (pre s : gostring) :
  slice (pre ++ s) (length pre) (length (pre ++ s)) = Some s.
Proof.
  rewrite slice_suffix.
  - by rewrite drop_app_length.
  - rewrite length_app. lia.
Qed.

Lemma outcome_fail {A B} (safe safe' : Prop) (Q : A → node → Prop)
    (Q' : B → node → Prop) (e : failure) (n n' : node) :
  (safe' → safe) → outcome safe Q (Fail e) n → outcome safe' Q' (Fail e) n'.
Proof. destruct e; simpl; eauto. Qed.

Lemma noCatchAll_app (a b : gostring) :
  noCatchAll (a ++ b) ↔ noCatchAll a ∧ noCatchAll b.
Proof.
  unfold noCatchAll. rewrite elem_of_app. split.
  - intros H. split; intros ?; apply H; eauto.
  - intros [? ?] [?|?]; eauto.
Qed.

Lemma noCatchAll_suffix (p' p : gostring) :
  p' `suffix_of` p → noCatchAll p → noCatchAll p'.
Proof. intros [k ->] H. by apply noCatchAll_app in H as [_ ?]. Qed.

Lemma noCatchAll_cons (c : ascii) (p : gostring) :
  noCatchAll (c :: p) ↔ c ≠ "*"%char ∧ noCatchAll p.
Proof.
  unfold noCatchAll. rewrite elem_of_cons. split.
  - intros H. split; [intros ->|intros ?]; apply H; eauto.
  - intros [? ?] [?|?]; eauto.
Qed.

Section insertChild_wf.
Variables (fullP : gostring) (hs : HandlersChain) (fuel : nat).
Hypothesis IH : ∀ p n,
  insertChildPre p n → length p < fuel →
  wp (insertChild_loop fuel p fullP hs)
     (outcome (noCatchAll p) (λ _ n', insertChildPost p n n')) n.

Lemma insertChild_param_child (w rest : gostring) :
  rest = [] ∨ head rest = Some "/"%char → length rest < fuel →
  wp (modify incPriority;;
      if length w <? length (w ++ rest) then
        p ← checked (slice (w ++ rest) (length w) (length (w ++ rest)));
        k ← addChild (mkNode [] [] false static 1 [] None fullP);
        in_child k (insertChild_loop fuel p fullP hs)
      else modify (set_handlers hs))
     (outcome (noCatchAll rest) (λ _ pc', wf pc' ∧ pc'.(nType) = param))
     (mkNode w [] false param 0 [] None fullP).
Proof.
  intros Hrest Hfuel. wp_steps.
  destruct (Nat.ltb_spec (length w) (length (w ++ rest))) as [Hlt|Hge].
  - wp_steps. rewrite slice_post. wp_step.
    eapply wp_eq; [by apply addChild_nil|]. cbn beta iota.
    wp_step. nsimpl. cbn [lookup list_lookup].
    eapply wp_mono.
    { apply IH; [|done]. split_and!; try done; [|by left|by right].
      by apply blank_wf. }
    intros [[]|e] t'; [|by apply outcome_fail]. cbn.
    intros (Hwf & Hty & _ & _).
    nsimpl in Hty. split; [|done].
    constructor; [|by apply Forall_singleton].
    right; right; left. split_and!; try done. by exists t'.
  - wp_steps. cbn. split; [|done].
    apply wf_set_handlers, wf_incPriority.
    constructor; [|by constructor].
    right; right; right. split_and!; try done.
    + constructor.
    + exists [], []. split_and!; try done.
    + intros _. split_and!; [done|simpl; lia|constructor].
Qed.

Lemma insertChild_step_wf p n :
  insertChildPre p n → length p < S fuel →
  wp (insertChild_loop (S fuel) p fullP hs)
     (outcome (noCatchAll p) (λ _ n', insertChildPost p n n')) n.
Proof.
  intros (Hwf & Hwild & Hty & Hcase) Hfuel.
  assert (isPlain n) as Hplain
    by (apply plain_of_wf; [done|destruct Hty as [-> | ->]; done..]).
  cbn [insertChild_loop].
  destruct (findWildcard p) as [[w i] v] eqn:Hfw.
  destruct (findWildcard_inv _ _ _ _ Hfw)
    as [(Hp & -> & -> & ->)
       |(pre & c & tok & rest & Hp & Hpre & Hc & Htok & Hr & -> & -> & ->)].
  { (* no wildcard *)
    cbn [Z.ltb Z.compare]. wp_steps. cbn.
    destruct Hcase as [(c & Hc & Hw)|(Hpath & Hcs & Hidx)].
    { destruct p as [|c' p]; [done|]. simpl in Hc. simplify_eq.
      apply Forall_cons in Hp as [Hp _]. unfold noWild in Hp. congruence. }
    split_and!; try done.
    - apply wf_set_fullPath, wf_set_handlers.
      apply blank_wf; nsimpl; try done; destruct Hty as [-> | ->]; done.
    - intros (c & Hc & Hw). destruct p as [|c' p]; [done|].
      simpl in Hc. simplify_eq.
      apply Forall_cons in Hp as [Hp _]. unfold noWild in Hp. congruence.
    - intros _ c Hc _. by left. }
  destruct (Z.ltb_spec (Z.of_nat (length pre)) 0); [lia|].
  destruct (negb (existsb isWildByte tok)); cbn [negb]; [|by wp_step].
  destruct (Nat.ltb_spec (length (c :: tok)) 2) as [|Hlen]; [by wp_step|].
  wp_steps. cbn [byteAt lookup list_lookup].
  destruct Hplain as (Hnc & Hnd & (indexed & wildPart & Hcs & Hidx & Hwp) & _).
  rewrite Hwild in Hwp. subst wildPart. rewrite app_nil_r in Hcs.
  assert (pre = [] ∨ (pre ≠ [] ∧ n.(path) = [] ∧ n.(children) = []
                      ∧ n.(indices) = [])) as Hpre'.
  { destruct pre as [|b0 pre0]; [by left|right]. split; [done|].
    destruct Hcase as [(c' & Hc' & Hw')|?]; [|done].
    rewrite Hp in Hc'. simpl in Hc'. simplify_eq.
    apply Forall_cons in Hpre as [Hb0 _]. unfold noWild in Hb0. congruence. }
  destruct (Ascii.eqb_spec c ":") as [->|Hcolon].
  - (* param *)
    apply wp_seq with
      (Qmid := λ r n1, r = Ok (":"%char :: tok ++ rest)
                       ∧ n1 = if decide (pre = []) then n else set_path pre n).
    { destruct Hpre' as [->|(Hne & _)].
      - simpl in Hp. subst p. by wp_steps.
      - destruct (Z.ltb_spec 0 (Z.of_nat (length pre)));
          [|destruct pre; [done|simpl in *; lia]].
        wp_steps. rewrite Hp, sliceZ_pre. wp_steps.
        rewrite sliceZ_post. wp_steps. by rewrite decide_False. }
    2:{ by intros e n' [? _]. }
    intros p1 n1 [[= ->] ->].
    set (n1 := if decide (pre = []) then n else set_path pre n).
    assert (n1.(wildChild) = false ∧ n1.(children) = n.(children)
            ∧ n1.(indices) = n.(indices) ∧ n1.(nType) = n.(nType))
      as (Hw1 & Hc1 & Hi1 & Ht1) by (unfold n1; by destruct (decide _)).
    wp_step. eapply wp_eq; [by apply addChild_plain|]. cbn beta iota.
    wp_steps. nsimpl. rewrite Hc1.
    rewrite lookup_app_r, Nat.sub_diag by lia. cbn [lookup list_lookup].
    assert (length rest < fuel) as Hfuel'.
    { rewrite Hp, length_app in Hfuel. simpl in Hfuel.
      rewrite length_app in Hfuel. lia. }
    eapply wp_mono;
      [apply (insertChild_param_child (":"%char :: tok) rest Hr Hfuel')|].
    intros [[]|e] pc'.
    2:{ apply outcome_fail. rewrite Hp. intros Hs.
        apply noCatchAll_app in Hs as [_ Hs].
        apply noCatchAll_cons in Hs as [_ Hs].
        by apply noCatchAll_app in Hs as [_ Hs]. }
    cbn [outcome]. intros [Hpc Hpt].
    rewrite insert_app_r_alt, Nat.sub_diag by lia. cbn [insert list_insert].
    apply wf_inv in Hwf as [_ Hch].
    split_and!.
    + constructor; nsimpl.
      * right; right; right. split_and!; nsimpl.
        -- by rewrite Ht1.
        -- by rewrite Hi1.
        -- exists n.(children), [pc']. rewrite Hi1, Hcs.
           split_and!; try done. by exists pc'.
        -- rewrite Ht1. by destruct Hty as [-> | ->].
      * apply Forall_app. split; [done|]. by apply Forall_singleton.
    + nsimpl. done.
    + intros (c' & Hc' & Hw'). nsimpl. unfold n1.
      destruct pre as [|b0 pre0]; [done|].
      rewrite Hp in Hc'. simpl in Hc'. simplify_eq.
      apply Forall_cons in Hpre as [Hb0 _]. unfold noWild in Hb0.
      congruence.
    + intros Hpath c0 Hc0 Hnw. left. nsimpl. unfold n1.
      destruct pre as [|b0 pre0].
      * rewrite Hp in Hc0. simpl in Hc0. by simplify_eq.
      * rewrite decide_False by done. nsimpl.
        rewrite Hp in Hc0. by simpl in *.
  - (* catchAll *)
    assert (c = "*"%char) as ->.
    { unfold isWildByte in Hc. apply orb_true_iff in Hc as [Hc|Hc];
        apply Ascii.eqb_eq in Hc; done. }
    destruct (Z.eqb_spec (Z.of_nat (length pre)
                          + Z.of_nat (length ("*"%char :: tok)))
                (Z.of_nat (length p))) as [Hend|Hend]; cbn [negb];
      [|by wp_step].
    assert (rest = []) as ->.
    { apply nil_length_inv. rewrite Hp in Hend.
      rewrite !length_app in Hend. simpl in Hend.
      rewrite !length_app in Hend. lia. }
    rewrite app_nil_r in Hp.
    wp_steps. fold (endsWithSlash n.(path)).
    destruct (endsWithSlash n.(path)); [by wp_step|].
    wp_steps.
    destruct pre as [|b pre0 _] using rev_ind.
    { rewrite byteAtZ_neg by (simpl; lia). cbn [outcome].
      rewrite Hp. intros Hs. by apply noCatchAll_cons in Hs as [? _]. }
    destruct Hpre' as [?|(_ & Hpath & Hchildren & Hindices)];
      [by destruct pre0|].
    replace (Z.of_nat (length (pre0 ++ [b])) - 1)%Z
      with (Z.of_nat (length pre0)) by (rewrite length_app; simpl; lia).
    rewrite <- app_assoc in Hp. cbn [app] in Hp.
    rewrite byteAtZ_nat, Hp, list_lookup_middle by done.
    destruct (Ascii.eqb_spec b "/") as [->|]; cbn [negb]; [|by wp_step].
    wp_steps. rewrite sliceZ_pre. wp_steps.
    eapply wp_eq; [by apply addChild_nil|]. cbn beta iota.
    wp_steps. nsimpl. cbn [lookup list_lookup]. wp_steps.
    rewrite sliceZ_post. wp_steps. cbn [outcome insert list_insert]. nsimpl.
    set (leaf := mkNode ("/"%char :: "*"%char :: tok) [] false catchAll 1
                   [] hs fullP).
    assert (isCatchAllLeaf leaf) as Hleaf.
    { split_and!; try done. exists tok. split_and!; try done.
      destruct tok; [simpl in Hlen; lia|done]. }
    match goal with
    | |- insertChildPost _ _ (set_children [?h] _) => set (holder := h)
    end.
    assert (isCatchAllHolder holder) as Hholder.
    { split_and!; try done. by exists leaf. }
    apply Forall_app in Hpre as [Hpre0 _].
    split_and!.
    + constructor; nsimpl.
      * right; right; right. split_and!; nsimpl.
        -- by destruct Hty as [-> | ->].
        -- apply NoDup_singleton.
        -- exists [holder], []. rewrite Hwild. split_and!; try done.
           constructor; [|constructor].
           split; [by right|by right].
        -- by destruct Hty as [-> | ->].
      * apply Forall_singleton. by apply isCatchAllHolder_wf.
    + done.
    + intros (c' & Hc' & Hw').
      destruct pre0 as [|b0 pre0]; simpl in Hc'; simplify_eq.
      apply Forall_cons in Hpre0 as [Hb0 _]. unfold noWild in Hb0.
      congruence.
    + intros _ c0 Hc0 Hnw. nsimpl.
      destruct pre0 as [|b0 pre0]; simpl in Hc0; simplify_eq.
      * by right.
      * by left.
Qed.
End insertChild_wf.

Lemma insertChild_loop_wf fuel fullP hs p n :
  insertChildPre p n → length p < fuel →
  wp (insertChild_loop fuel p fullP hs)
     (outcome (noCatchAll p) (λ _ n', insertChildPost p n n')) n.
Proof.
  revert p n. induction fuel as [|fuel IH]; intros p n Hpre Hfuel; [lia|].
  by apply insertChild_step_wf.
Qed.

Lemma indexOfByte_Some c idx k j :
  indexOfByte c idx k = Some j →
  k ≤ j ∧ idx !! (j - k) = Some c ∧ ∀ j', j' < j - k → idx !! j' ≠ Some c.
Proof.
  revert k. induction idx as [|b idx IH]; intros k; simpl; [done|].
  destruct (Ascii.eqb_spec c b) as [->|Hne].
  - intros [= ->]. rewrite Nat.sub_diag. split_and!; [lia|done|lia].
  - intros (Hk & Hj & Hfirst)%IH.
    replace (j - k) with (S (j - S k)) by lia. split_and!; [lia|done|].
    intros [|j'] Hj'; simpl; [congruence|]. apply Hfirst. lia.
Qed.

Lemma indexOfByte_None c idx k : indexOfByte c idx k = None → c ∉ idx.
Proof.
  revert k. induction idx as [|b idx IH]; intros k; simpl.
  - intros _. apply not_elem_of_nil.
  - destruct (Ascii.eqb_spec c b) as [->|Hne]; [done|].
    intros H%IH. by apply not_elem_of_cons.
Qed.

Lemma indexOfByte_NoDup c idx j :
  NoDup idx → idx !! j = Some c → indexOfByte c idx 0 = Some j.
Proof.
  intros Hnd Hj.
  destruct (indexOfByte c idx 0) as [j'|] eqn:E.
  - apply indexOfByte_Some in E as (_ & Hj' & _).
    rewrite Nat.sub_0_r in Hj'. f_equal.
    by eapply NoDup_lookup.
  - apply indexOfByte_None in E. exfalso. apply E.
    by eapply list_elem_of_lookup_2.
Qed.

Lemma wildcardMatches_spec n p :
  wildcardMatches n p = true ↔ paramCompat n p ∧ n.(nType) ≠ catchAll.
Proof.
  unfold wildcardMatches, paramCompat, byteAt.
  rewrite !andb_true_iff, orb_true_iff, negb_true_iff.
  rewrite !bool_decide_eq_true, bool_decide_eq_false.
  rewrite !Nat.leb_le. split.
  - intros [[[Hle Hpre] Hty] Hnext]. split; [|done].
    rewrite slice_prefix in Hpre by done. simplify_eq.
    exists (drop (length n.(path)) p). split.
    + rewrite Hpre at 1. by rewrite take_drop.
    + destruct Hnext as [Hlen|Hnext].
      * left. apply nil_length_inv. rewrite length_drop. lia.
      * right. by rewrite head_lookup, lookup_drop, Nat.add_0_r.
  - intros [(rest & -> & Hrest) Hty]. rewrite length_app.
    split_and!; try done; [lia| |].
    + rewrite slice_prefix by (rewrite length_app; lia).
      by rewrite take_app_length.
    + destruct Hrest as [->|Hrest]; [left; simpl; lia|right].
      rewrite lookup_app_r, Nat.sub_diag by lia.
      by destruct rest.
Qed.

Lemma incrementChildPrio_indexed n (indexed wildPart : list node) j b :
  n.(children) = indexed ++ wildPart →
  length n.(indices) = length indexed →
  n.(indices) !! j = Some b →
  ∃ f1 f2 cj back if1 if2 iback n',
    indexed = f1 ++ f2 ++ cj :: back
    ∧ n.(indices) = if1 ++ if2 ++ b :: iback
    ∧ length if1 = length f1 ∧ length if2 = length f2
    ∧ length (f1 ++ f2) = j
    ∧ incrementChildPrio j n = (n', Ok (length f1))
    ∧ n'.(children) = f1 ++ incPriority cj :: f2 ++ back ++ wildPart
    ∧ n'.(indices) = if1 ++ b :: if2 ++ iback
    ∧ n'.(path) = n.(path) ∧ n'.(nType) = n.(nType)
    ∧ n'.(wildChild) = n.(wildChild) ∧ n'.(priority) = n.(priority)
    ∧ n'.(handlers) = n.(handlers) ∧ n'.(fullPath) = n.(fullPath).
Proof.
  intros Hcs Hlen Hb.
  pose proof (lookup_lt_Some _ _ _ Hb) as Hj.
  destruct (lookup_lt_is_Some_2 indexed j) as [cj Hcj]; [lia|].
  pose proof (take_drop_middle _ _ _ Hcj) as Hmid.
  assert (length (take j indexed) = j) as Hlj by (rewrite length_take; lia).
  assert (n.(children)
          = take j indexed ++ cj :: (drop (S j) indexed ++ wildPart)) as Hch.
  { rewrite Hcs. rewrite <- Hmid at 1. by rewrite <- app_assoc. }
  destruct (incrementChildPrio_run n _ cj _ Hch)
    as (f1 & f2 & Hfr & _ & _ & Hrun).
  rewrite Hlj, Hb in Hrun. cbn zeta in Hrun.
  assert (length f1 + length f2 = j) as Hl
    by (rewrite <- Hlj, Hfr, length_app; lia).
  exists f1, f2, cj, (drop (S j) indexed).
  exists (take (length f1) n.(indices)),
         (drop (length f1) (take j n.(indices))),
         (drop (S j) n.(indices)), (incrementChildPrio j n).1.
  assert (n.(indices)
          = take (length f1) n.(indices)
              ++ drop (length f1) (take j n.(indices))
              ++ b :: drop (S j) n.(indices)) as Hidx.
  { rewrite <- (take_drop j n.(indices)) at 1.
    rewrite <- (take_drop (length f1) (take j n.(indices))) at 1.
    rewrite take_take, Nat.min_l by lia.
    rewrite <- app_assoc. do 2 f_equal. by rewrite (drop_S _ _ _ Hb). }
  split_and!; try done.
  - rewrite <- Hmid at 1. by rewrite Hfr, <- app_assoc.
  - rewrite length_take. lia.
  - rewrite length_drop, length_take. lia.
  - by rewrite length_app.
  - rewrite Hrun. by case_bool_decide.
  - rewrite Hrun. by case_bool_decide.
  - rewrite Hrun. case_bool_decide as Hmv; nsimpl.
    + unfold insertAt, removeAt.
      rewrite take_app_le by (rewrite length_take; lia).
      rewrite take_take, Nat.min_l by lia.
      by rewrite drop_app_le by (rewrite length_take; lia).
    + assert (length f1 = j) as Hf1 by lia.
      rewrite Hidx at 1. rewrite Hf1.
      rewrite (drop_ge (take j _)) by (rewrite length_take; lia). done.
  - rewrite Hrun. by case_bool_decide.
  - rewrite Hrun. by case_bool_decide.
  - rewrite Hrun. by case_bool_decide.
  - rewrite Hrun. by case_bool_decide.
  - rewrite Hrun. by case_bool_decide.
  - rewrite Hrun. by case_bool_decide.
Qed.

(** The predicates on shapes only read segment, indices, flag, kind and
    children. *)
Ltac shape_unfold :=
  unfold indexedOk, headOk, isCatchAllHolder, isCatchAllLeaf, isParamTail,
    paramCompat in *.

Lemma indexedOk_incPriority b c : indexedOk b (incPriority c) ↔ indexedOk b c.
Proof. by shape_unfold. Qed.

Lemma isCatchAllHolder_incPriority c :
  isCatchAllHolder (incPriority c) ↔ isCatchAllHolder c.
Proof. by shape_unfold. Qed.

Lemma wf_catchAll_shape c :
  wf c → c.(nType) = catchAll → isCatchAllLeaf c ∨ isCatchAllHolder c.
Proof.
  intros [Hl _]%wf_inv Hc.
  destruct Hl as [?|[?|[(? & _)|(? & _)]]]; [by left|by right|congruence..].
Qed.

Lemma indexedOk_after_walk b c c' p :
  indexedOk b c → head p = Some b → walkPost p c c' → indexedOk b c'.
Proof.
  intros [Hhead Hkind] Hp (Hwf & Hty & Hpath). split.
  - destruct Hhead as [Hhead|[Hnil ->]].
    + left. rewrite Hpath.
      destruct p as [|b' p], (path c) as [|b'' s]; simplify_eq/=.
      by rewrite Ascii.eqb_refl.
    + right. split; [|done]. by rewrite Hpath, Hnil, take_nil.
  - destruct Hkind as [Hst|Hholder]; [left; congruence|right].
    destruct Hholder as (Hca & Hnil & _).
    destruct (wf_catchAll_shape c') as [Hleaf|?]; [done|congruence| |done].
    destruct Hleaf as (_ & _ & _ & _ & name & Hname & _).
    rewrite Hpath, Hnil, take_nil in Hname. done.
Qed.

Lemma commonPrefix_paramCompat n p :
  paramCompat n p → commonPrefix p n.(path) = length n.(path).
Proof. intros (rest & -> & _). apply commonPrefix_app. Qed.

Lemma split_wf n p fullP pfi :
  walkPre n p →
  commonPrefix p n.(path) < length n.(path) →
  pfi + length p ≤ length fullP →
  wp (splitNode (longestCommonPrefix p n.(path)) p fullP pfi)
     (outcome True
        (λ _ n1, walkPre n1 p ∧ n1.(nType) = n.(nType)
                 ∧ n1.(path) = take (commonPrefix p n.(path)) n.(path)
                 ∧ n1.(nType) ≠ param ∧ n1.(wildChild) = false
                 ∧ ∀ c, p !! commonPrefix p n.(path) = Some c →
                        c ∉ n1.(indices)))
     n.
Proof.
  intros (Hwf & Hca & Hpar) Hlt Hpfi.
  assert (n.(nType) ≠ param) as Hnp.
  { intros Hp. apply Hpar, commonPrefix_paramCompat in Hp. lia. }
  assert (n.(nType) ≠ catchAll) as Hnc.
  { intros Hc. destruct (Hca Hc) as (_ & Hnil & _). rewrite Hnil in Hlt.
    simpl in Hlt. lia. }
  pose proof (plain_of_wf n Hwf Hnc Hnp) as (_ & Hnd & Hdec & _).
  apply wf_inv in Hwf as [_ Hch].
  rewrite <- longestCommonPrefix_eq in Hlt.
  destruct (splitNode_run n p fullP pfi Hlt) as (b & Hb & Hrun).
  cbn zeta in Hrun. rewrite longestCommonPrefix_eq in *.
  pose proof (commonPrefix_le_l p n.(path)) as Hle.
  rewrite slice_prefix in Hrun by lia.
  eapply wp_eq; [exact Hrun|].
  cbn [outcome]. nsimpl.
  split_and!; try done.
  2:{ intros c Hc ->%list_elem_of_singleton.
      by eapply commonPrefix_differ. }
  unfold walkPre. nsimpl. split_and!; try done.
  - constructor; nsimpl.
    + right; right; right. split_and!; nsimpl; try done.
      * apply NoDup_singleton.
      * eexists [_], []. split_and!; try done.
        constructor; [|constructor]. split; [|by left].
        left. nsimpl. by rewrite (drop_S _ _ _ Hb).
    + apply Forall_singleton. constructor; nsimpl; [|done].
      right; right; right. split_and!; nsimpl; done.
Qed.

Lemma wf_plain_intro n indexed wildPart :
  n.(nType) ≠ catchAll →
  NoDup n.(indices) →
  n.(children) = indexed ++ wildPart →
  Forall2 indexedOk n.(indices) indexed →
  (if n.(wildChild) then ∃ w, wildPart = [w] ∧ w.(nType) = param
   else wildPart = []) →
  (n.(nType) = param →
   n.(wildChild) = false ∧ length n.(children) ≤ 1
   ∧ Forall (λ b, b = "/"%char) n.(indices)) →
  Forall wf indexed → Forall wf wildPart →
  wf n.
Proof.
  intros ? ? Hcs ? ? ? ? ?. constructor.
  - right; right; right. split_and!; try done. by exists indexed, wildPart.
  - rewrite Hcs. by apply Forall_app.
Qed.

Lemma wf_update_child n k c c' :
  wf n → n.(nType) ≠ catchAll →
  n.(children) !! k = Some c →
  wf c' → c'.(nType) = c.(nType) →
  (∀ b, n.(indices) !! k = Some b → indexedOk b c → indexedOk b c') →
  wf (set_children (<[k := c']> n.(children)) n).
Proof.
  intros [Hshape Hch]%wf_inv Hnc Hk Hwf' Hty Hidx.
  destruct Hshape as [(? & _)|[(? & _)|[Htail|Hplain]]]; [done..| |].
  - destruct Htail as (Hp & Hi & Hw & c0 & Hcs & Hst).
    rewrite Hcs in Hk |- *. destruct k; simplify_eq/=.
    constructor; nsimpl; [|by apply Forall_singleton].
    right; right; left. split_and!; try done. exists c'. split; [done|congruence].
  - destruct Hplain as (_ & Hnd & (indexed & wildPart & Hcs & Hall & Hwp) & Hpar).
    pose proof (Forall2_length _ _ _ Hall) as Hlen.
    rewrite Hcs in Hch. apply Forall_app in Hch as [Hch1 Hch2].
    destruct (decide (k < length indexed)) as [Hlt|Hge].
    + apply (wf_plain_intro _ (<[k := c']> indexed) wildPart); nsimpl;
        try done.
      * rewrite Hcs. by rewrite insert_app_l.
      * rewrite Hcs in Hk. rewrite lookup_app_l in Hk by done.
        destruct (lookup_lt_is_Some_2 n.(indices) k) as [b Hb]; [lia|].
        rewrite <- (list_insert_id _ _ _ Hb).
        apply Forall2_insert; [done|]. apply Hidx; [done|].
        by eapply Forall2_lookup_lr.
      * intros Hp. destruct (Hpar Hp) as (? & ? & ?).
        split_and!; try done. by rewrite length_insert.
      * by apply Forall_insert.
    + rewrite Hcs in Hk. rewrite lookup_app_r in Hk by lia.
      apply (wf_plain_intro _ indexed (<[k - length indexed := c']> wildPart));
        nsimpl; try done.
      * rewrite Hcs. by rewrite insert_app_r_alt by lia.
      * destruct n.(wildChild); [|by subst].
        destruct Hwp as (w & -> & Hw).
        destruct (k - length indexed); simplify_eq/=.
        exists c'. split; [done|congruence].
      * intros Hp. destruct (Hpar Hp) as (? & ? & ?).
        split_and!; try done. by rewrite length_insert.
      * by apply Forall_insert.
Qed.

Lemma param_child_kind n c0 :
  wf n → n.(nType) = param → c0 ∈ n.(children) →
  c0.(nType) = static ∨ isCatchAllHolder c0.
Proof.
  intros [Hshape _]%wf_inv Hp Hin.
  destruct Hshape as [(? & _)|[(? & _)|[Htail|Hplain]]]; [congruence..| |].
  - destruct Htail as (_ & _ & _ & c & Hcs & Hst).
    rewrite Hcs in Hin. apply list_elem_of_singleton in Hin as ->. by left.
  - destruct Hplain as (_ & _ & (indexed & wildPart & Hcs & Hall & Hwp) & Hpar).
    destruct (Hpar Hp) as (Hw & _). rewrite Hw in Hwp. subst wildPart.
    rewrite app_nil_r in Hcs. rewrite Hcs in Hin.
    apply list_elem_of_lookup in Hin as [j Hj].
    destruct (Forall2_lookup_r _ _ _ _ _ Hall Hj) as (b & _ & _ & ?). done.
Qed.

Lemma wildcardConflict_fails {A} p fullP safe (Q : A → node → Prop) n :
  p `suffix_of` fullP →
  wp (wildcardConflict p fullP) (outcome safe Q) n.
Proof.
  intros [k ->]. unfold wildcardConflict. wp_steps.
  match goal with
  | |- context [strings_Index _ ?seg] =>
      assert (∃ t, p = seg ++ t) as [t Ht]
  end.
  { destruct (negb _); [apply strings_SplitN_prefix|].
    exists []. by rewrite app_nil_r. }
  match goal with
  | |- context [strings_Index ?s ?seg] =>
      pose proof (strings_Index_from_found s seg 0 k t) as Hi;
      fold (strings_Index s seg) in Hi;
      destruct (strings_Index s seg) as [|i|i] eqn:Ei
  end.
  - change 0%Z with (Z.of_nat 0). rewrite sliceZ_nat, slice_prefix by lia.
    by wp_steps.
  - rewrite <- (Z2Nat.id (Z.pos i)), <- Nat2Z.inj_0 by lia.
    rewrite sliceZ_nat, slice_prefix.
    + by wp_steps.
    + rewrite length_app.
      assert (Z.pos i ≤ Z.of_nat (0 + length k))%Z
        by (apply Hi; by rewrite Ht at 1).
      lia.
  - exfalso.
    assert (Z.of_nat 0 ≤ Z.neg i)%Z by (apply Hi; by rewrite Ht at 1).
    lia.
Qed.

Lemma height_child c n : c ∈ n.(children) → height c < height n.
Proof.
  destruct n as [? ? ? ? ? cs ? ?]. cbn [children height].
  induction cs as [|c' cs IH]; intros Hin.
  - by apply elem_of_nil in Hin.
  - apply elem_of_cons in Hin as [->|Hin]; [lia|].
    specialize (IH Hin). lia.
Qed.

Lemma height_fields n m : n.(children) = m.(children) → height n = height m.
Proof. destruct n, m. cbn [children height]. by intros ->. Qed.

Lemma addChild_decomp n indexed wildPart child :
  n.(children) = indexed ++ wildPart →
  (if n.(wildChild) then ∃ w, wildPart = [w] ∧ w.(nType) = param
   else wildPart = []) →
  addChild child n
  = (set_children ((indexed ++ [child]) ++ wildPart) n, Ok (length indexed)).
Proof.
  intros Hcs Hwp. destruct n.(wildChild) eqn:Hw.
  - destruct Hwp as (w & -> & _).
    rewrite (addChild_wild n child w indexed) by done.
    by rewrite <- app_assoc.
  - subst wildPart. rewrite app_nil_r in *. rewrite addChild_plain by done.
    by rewrite Hcs.
Qed.

Ltac solve_app := repeat (rewrite <- ?app_assoc; cbn [app]); done.

Section walk_wf.
Variables (fullP : gostring) (hs : HandlersChain) (fuel : nat).
Hypothesis IH : ∀ p pfi n,
  walkPre n p → height n < fuel →
  p `suffix_of` fullP → pfi + length p ≤ length fullP →
  wp (walk fuel p fullP hs pfi)
     (outcome (noCatchAll p) (λ _ n', walkPost p n n')) n.

Lemma walk_step_wf p pfi n :
  walkPre n p → height n < S fuel →
  p `suffix_of` fullP → pfi + length p ≤ length fullP →
  wp (walk (S fuel) p fullP hs pfi)
     (outcome (noCatchAll p) (λ _ n', walkPost p n n')) n.
Proof.
  intros Hpre Hfuel Hsuf Hpfi. cbn [walk]. do 2 wp_step.
  apply wp_seq with
    (Qmid := outcome True (λ _ n1, walkPre n1 p ∧ n1.(nType) = n.(nType)
               ∧ n1.(path) = take (commonPrefix p n.(path)) n.(path)
               ∧ commonPrefix p n.(path) = length n1.(path)
               ∧ (n1.(nType) = param ∨ n1.(wildChild) = true
                  ∨ (∃ c, p !! length n1.(path) = Some c
                          ∧ c ∈ n1.(indices))
                  → height n1 < S fuel))).
  { rewrite longestCommonPrefix_eq.
    destruct (Nat.ltb_spec (commonPrefix p n.(path)) (length n.(path)))
      as [Hlt|Hge].
    - rewrite <- longestCommonPrefix_eq at 1.
      eapply wp_mono; [by apply split_wf|].
      intros [[]|e] n1; [|done]. cbn [outcome].
      intros (? & ? & Hp1 & Hnp & Hnw & Hni).
      assert (commonPrefix p (path n) = length (path n1)) as Hl1
        by (rewrite Hp1, length_take; lia).
      split_and!; try done.
      intros [?|[?|(c & Hc & Hin)]]; [done|congruence|].
      rewrite <- Hl1 in Hc. by destruct (Hni c Hc).
    - wp_steps. cbn [outcome].
      pose proof (commonPrefix_le_r p n.(path)).
      split_and!; try done; [|lia].
      by rewrite take_ge by lia. }
  2:{ intros e n'. by apply outcome_fail. }
  intros [] n1 (Hpre1 & Hty1 & Hpath1 & Hi & Hh). cbn [outcome] in *.
  rewrite longestCommonPrefix_eq, Hi.
  assert (∀ n', wf n' → n'.(nType) = n1.(nType) → n'.(path) = n1.(path) →
                walkPost p n n') as Hpost.
  { intros n' ? ? ?. split_and!; congruence. }
  assert (take (length n1.(path)) p = n1.(path)) as Hprefix.
  { by rewrite <- Hi, commonPrefix_take, Hpath1. }
  clear Hpre Hty1 Hpath1 Hfuel.
  pose proof (commonPrefix_le_l p n.(path)) as Hle. rewrite Hi in Hle.
  clear Hi. revert Hpost. generalize (walkPost p n). intros Post Hpost.
  clear n. rename n1 into n. rename Hpre1 into Hpre.
  destruct Hpre as (Hwf & Hca & Hpar).
  pose proof (wf_inv _ Hwf) as [Hshape Hchildren].
  destruct (Nat.ltb_spec (length n.(path)) (length p)) as [Hlt|Hge].
  - (* more path to insert *)
    wp_steps. rewrite slice_suffix by lia. wp_steps.
    assert (p = n.(path) ++ drop (length n.(path)) p) as Hp.
    { rewrite <- Hprefix at 1. by rewrite take_drop. }
    destruct (drop (length n.(path)) p) as [|c p''] eqn:Hp'.
    { exfalso. rewrite Hp, length_app in Hlt. simpl in Hlt. lia. }
    set (p' := c :: p'') in *.
    unfold byteAt. change (p' !! 0) with (Some c). cbn beta iota. wp_steps.
    assert (n.(nType) = param → c = "/"%char) as Hslash.
    { intros (rest & Hrest & Hr)%Hpar. rewrite Hrest in Hp at 1.
      apply app_inv_head in Hp. subst rest.
      destruct Hr as [?|Hr]; [done|]. simpl in Hr. by simplify_eq. }
    assert (noCatchAll p → noCatchAll p') as Hsafe.
    { rewrite Hp. intros Hs. by apply noCatchAll_app in Hs as [_ ?]. }
    assert (p' `suffix_of` fullP) as Hsuf'.
    { etrans; [|exact Hsuf]. by exists n.(path). }
    assert (length p = length n.(path) + length p') as Hlen'.
    { rewrite Hp at 1. by rewrite length_app. }
    assert (p !! length n.(path) = Some c) as Hpc.
    { rewrite Hp. by apply list_lookup_middle. }
    destruct (bool_decide (nType n = param) && (c =? "/")%char
              && (length (children n) =? 1)) eqn:Hshort.
    { (* '/' after param *)
      apply andb_true_iff in Hshort as [[Hparam _]%andb_true_iff Hone].
      apply bool_decide_eq_true in Hparam. apply Nat.eqb_eq in Hone.
      specialize (Hslash Hparam) as Hc.
      destruct (children n) as [|c0 [|? ?]] eqn:Hcs; simplify_eq/=.
      wp_step. rewrite Hcs. cbn [lookup list_lookup]. wp_steps.
      assert (c0 ∈ children n) as Hin by (rewrite Hcs; apply list_elem_of_here).
      pose proof (param_child_kind n c0 Hwf Hparam Hin) as Hkind.
      rewrite Forall_singleton in Hchildren.
      eapply wp_mono.
      { apply IH; [split_and!|..].
        - by apply wf_incPriority.
        - intros Hca0. apply isCatchAllHolder_incPriority.
          destruct Hkind as [Hst|?]; [|done]. nsimpl in Hca0. congruence.
        - intros Hp0. nsimpl in Hp0.
          destruct Hkind as [Hst|(? & _)]; congruence.
        - rewrite (height_fields (incPriority c0) c0) by done.
          pose proof (height_child c0 n Hin).
          specialize (Hh (or_introl Hparam)). lia.
        - done.
        - simpl in *. lia. }
      intros [[]|e] c0' HW; [|by eapply outcome_fail; [exact Hsafe|exact HW]].
      cbn [outcome] in *.
      apply Hpost; nsimpl; try done.
      rewrite <- Hcs. destruct HW as (Hwf0 & Hty0 & Hpath0).
      apply wf_update_child with c0; try done.
      - congruence.
      - by rewrite Hcs.
      - intros b Hb Hok.
        assert (b = "/"%char) as ->.
        { destruct Hshape as [(? & _)|[(? & _)|[Htail|Hplain]]];
            [congruence..| |].
          - destruct Htail as (_ & Hi & _). by rewrite Hi in Hb.
          - destruct Hplain as (_ & _ & _ & Hparc).
            destruct (Hparc Hparam) as (_ & _ & Hall).
            rewrite Forall_lookup in Hall. by eapply Hall. }
        apply (indexedOk_after_walk _ (incPriority c0) _ ("/"%char :: p''));
          [by apply indexedOk_incPriority|done|done]. }
    destruct (indexOfByte c (indices n) 0) as [j|] eqn:Hidx.
    { (* a child with the next path byte exists *)
      apply indexOfByte_Some in Hidx as (_ & Hj & _).
      rewrite Nat.sub_0_r in Hj.
      assert (isPlain n) as Hplain.
      { destruct Hshape as [(_ & _ & Hi & _)|[(_ & _ & Hi & _)
                           |[(_ & Hi & _)|?]]]; [by rewrite Hi in Hj..|done]. }
      destruct Hplain
        as (Hnc & Hnd & (indexed & wildPart & Hcs & Hall & Hwp) & Hparc).
      destruct (incrementChildPrio_indexed n indexed wildPart j c Hcs
                  (Forall2_length _ _ _ Hall) Hj)
        as (f1 & f2 & cj & back & if1 & if2 & iback & n2 & Hindexed
            & Hindices & Hl1 & Hl2 & Hlj & Hrun & Hch2 & Hi2 & Hp2 & Ht2
            & Hw2 & _).
      wp_step. eapply wp_eq; [exact Hrun|]. cbn beta iota.
      wp_step. rewrite Hch2, list_lookup_middle by done.
      rewrite Hindexed, Hindices in Hall.
      apply Forall2_app_inv in Hall as [Hall1 Hall]; [|done].
      apply Forall2_app_inv in Hall as [Hall2 Hall]; [|done].
      apply Forall2_cons in Hall as [Hcj Hall3].
      rewrite Hcs, Hindexed in Hchildren.
      rewrite !Forall_app, Forall_cons in Hchildren.
      destruct Hchildren as ((Hwf1 & Hwf2 & Hwfj & Hwfb) & Hwfw).
      eapply wp_mono.
      { apply IH; [split_and!|..].
        - by apply wf_incPriority.
        - intros Hca0. apply isCatchAllHolder_incPriority.
          destruct Hcj as [_ [Hst|?]]; [|done]. nsimpl in Hca0. congruence.
        - intros Hp0. nsimpl in Hp0.
          destruct Hcj as [_ [Hst|(? & _)]]; congruence.
        - rewrite (height_fields (incPriority cj) cj) by done.
          assert (cj ∈ children n) as Hin.
          { rewrite Hcs, Hindexed, !elem_of_app, elem_of_cons.
            left; right; right; by left. }
          pose proof (height_child cj n Hin).
          assert (height n < S fuel); [|lia].
          apply Hh. right; right. exists c. split; [done|].
          by eapply list_elem_of_lookup_2.
        - done.
        - lia. }
      intros [[]|e] cj' HW; [|by eapply outcome_fail; [exact Hsafe|exact HW]].
      cbn [outcome] in *.
      destruct HW as (Hwfj' & Htyj & Hpathj).
      apply Hpost; nsimpl; [|congruence..].
      rewrite insert_app_r_alt, Nat.sub_diag by lia.
      cbn [insert list_insert].
      apply (wf_plain_intro _ (f1 ++ cj' :: f2 ++ back) wildPart); nsimpl.
      - congruence.
      - rewrite Hi2. rewrite Hindices in Hnd.
        by rewrite <- (Permutation_middle if2 iback c) in Hnd.
      - solve_app.
      - rewrite Hi2. apply Forall2_app; [done|].
        constructor; [|by apply Forall2_app].
        apply (indexedOk_after_walk _ (incPriority cj) _ p');
          [by apply indexedOk_incPriority|done|done].
      - by rewrite Hw2.
      - rewrite Ht2, Hw2, Hi2. intros Hp0.
        destruct (Hparc Hp0) as (? & Hlen & Hsl). split_and!; try done.
        + rewrite Hcs, Hindexed in Hlen. rewrite !length_app in *.
          simpl in *. rewrite !length_app in *. lia.
        + rewrite Hindices in Hsl.
          by rewrite <- (Permutation_middle if2 iback c) in Hsl.
      - apply Forall_app. split; [done|].
        constructor; [done|]. by apply Forall_app.
      - done. }
    destruct (negb (c =? ":")%char && negb (c =? "*")%char
              && negb (bool_decide (nType n = catchAll))) eqn:Hstatic.
    { (* a new static child *)
      apply andb_true_iff in Hstatic as [[Hc1 Hc2]%andb_true_iff Hnc].
      apply negb_true_iff in Hc1, Hc2, Hnc.
      apply bool_decide_eq_false in Hnc.
      assert (isWildByte c = false) as Hnw
        by (unfold isWildByte; by rewrite Hc1, Hc2).
      apply indexOfByte_None in Hidx.
      assert (isPlain n) as Hplain.
      { destruct Hshape as [(? & _)|[(? & _)|[Htail|?]]]; [done..| |done].
        destruct Htail as (Hparam & _ & _ & c0 & Hcs & _).
        rewrite Hparam, Hcs, (Hslash Hparam) in Hshort.
        by rewrite bool_decide_eq_true_2 in Hshort. }
      destruct Hplain
        as (_ & Hnd & (indexed & wildPart & Hcs & Hall & Hwp) & Hparc).
      pose proof (Forall2_length _ _ _ Hall) as Hlen.
      assert (n.(nType) = param → indexed = [] ∧ n.(indices) = []
                                  ∧ c = "/"%char) as Hparam.
      { intros Hparam. destruct (Hparc Hparam) as (Hw & Hle1 & _).
        rewrite (Hslash Hparam), Hparam in Hshort.
        rewrite bool_decide_eq_true_2 in Hshort by done.
        cbn in Hshort. apply Nat.eqb_neq in Hshort.
        rewrite Hcs, length_app in Hshort, Hle1.
        assert (indexed = []) as -> by (apply nil_length_inv; lia).
        split_and!; [done| |by apply Hslash].
        apply nil_length_inv. by rewrite Hlen. }
      wp_steps.
      eapply wp_eq; [by apply (addChild_decomp _ indexed wildPart)|].
      cbn beta iota. wp_steps. nsimpl.
      replace (length (indices n ++ [c]) - 1) with (length indexed)
        by (rewrite length_app; simpl; lia).
      match goal with
      | |- wp _ _ ?n1 =>
          destruct (incrementChildPrio_indexed n1 (indexed ++ [mkNode [] []
                      false static 0 [] None fullP]) wildPart
                      (length indexed) c)
            as (f1 & f2 & cj & back & if1 & if2 & iback & n2 & Hindexed
                & Hindices & Hl1 & Hl2 & Hlj & Hrun & Hch2 & Hi2 & Hp2 & Ht2
                & Hw2 & _)
      end.
      { done. }
      { nsimpl. rewrite !length_app. simpl. lia. }
      { nsimpl. rewrite lookup_app_r by lia.
        by replace (length indexed - length (indices n)) with 0 by lia. }
      nsimpl in Hindices. nsimpl in Hp2. nsimpl in Ht2. nsimpl in Hw2.
      rewrite app_assoc in Hindexed, Hindices.
      apply app_inj_1 in Hindexed as [Hindexed Hfresh]; [|done].
      rewrite length_app in Hlj.
      apply app_inj_1 in Hindices as [Hindices Hc];
        [|rewrite length_app; lia].
      simplify_eq.
      eapply wp_eq; [exact Hrun|]. cbn beta iota.
      unfold indexAfterMove. rewrite Nat.eqb_refl.
      wp_step. rewrite Hch2, list_lookup_middle by done.
      unfold insertChild. eapply wp_mono.
      { apply insertChild_loop_wf; [|lia].
        split_and!; try done; [|by left|by right].
        by apply blank_wf. }
      intros [[]|e] x' HW; [|by eapply outcome_fail; [exact Hsafe|exact HW]].
      cbn [outcome] in *.
      destruct HW as (Hwfx & Htyx & _ & Hhead).
      apply Hpost; nsimpl; [|congruence..].
      rewrite insert_app_r_alt, Nat.sub_diag by lia.
      cbn [insert list_insert].
      rewrite Hcs in Hchildren.
      apply Forall_app in Hchildren as [Hwfi Hwfw].
      apply Forall_app in Hwfi as [Hwf1 Hwf2].
      rewrite Hindices in Hall, Hnd, Hidx.
      apply Forall2_app_inv in Hall as [Hall1 Hall2]; [|done].
      apply (wf_plain_intro _ (f1 ++ x' :: f2) wildPart); nsimpl.
      - congruence.
      - rewrite Hi2, app_nil_r. rewrite <- Permutation_middle.
        apply NoDup_cons. split; [done|]. done.
      - solve_app.
      - rewrite Hi2, app_nil_r. apply Forall2_app; [done|].
        constructor; [|done]. split; [|left; by rewrite Htyx].
        by apply Hhead.
      - by rewrite Hw2.
      - rewrite Ht2, Hw2, Hi2. intros Hp0.
        destruct (Hparam Hp0) as (Hnil & Hinil & ->).
        destruct (Hparc Hp0) as (Hwf0 & Hlenc & _).
        rewrite Hwf0 in Hwp. subst wildPart.
        apply app_eq_nil in Hnil as [-> ->].
        rewrite Hindices in Hinil. apply app_eq_nil in Hinil as [-> ->].
        rewrite Hcs, length_app in Hlenc. simpl in *.
        split_and!; [done|simpl; lia|by repeat constructor].
      - apply Forall_app. split; [done|]. by constructor.
      - done. }
    destruct (wildChild n) eqn:Hwild.
    { (* an existing wildcard child *)
      wp_step.
      destruct Hshape as [(_ & _ & _ & Hw & _)|[Hholder|[(_ & _ & Hw & _)
                                                        |Hplain]]];
        [congruence| |congruence|].
      - destruct Hholder as (_ & _ & _ & _ & l & Hcs & Hleaf).
        rewrite Hcs. cbn [length Nat.sub lookup list_lookup]. wp_steps.
        replace (wildcardMatches (incPriority l) p') with false.
        { by apply wildcardConflict_fails. }
        symmetry. apply not_true_iff_false.
        intros [_ Hnc]%wildcardMatches_spec. by destruct Hleaf as (? & _).
      - destruct Hplain
          as (Hnc & Hnd & (indexed & wildPart & Hcs & Hall & Hwp) & Hparc).
        rewrite Hwild in Hwp. destruct Hwp as (w & -> & Hw).
        pose proof (Forall2_length _ _ _ Hall) as Hlen.
        assert (children n !! (length (children n) - 1) = Some w) as Hlast.
        { rewrite Hcs, length_app. simpl.
          replace (length indexed + 1 - 1) with (length indexed) by lia.
          by apply list_lookup_middle. }
        rewrite Hlast. wp_steps.
        destruct (wildcardMatches (incPriority w) p') eqn:Hmatch;
          [|by apply wildcardConflict_fails].
        apply wildcardMatches_spec in Hmatch as [Hcompat _].
        rewrite Forall_forall in Hchildren.
        eapply wp_mono.
        { apply IH; [split_and!|..].
          - apply wf_incPriority, Hchildren.
            by eapply list_elem_of_lookup_2.
          - intros Hca0. nsimpl in Hca0. congruence.
          - by intros _.
          - rewrite (height_fields (incPriority w) w) by done.
            assert (w ∈ children n) as Hin
              by (by eapply list_elem_of_lookup_2).
            pose proof (height_child w n Hin).
            assert (height n < S fuel); [|lia].
            apply Hh. right; by left.
          - done.
          - lia. }
        intros [[]|e] w' HW; [|by eapply outcome_fail; [exact Hsafe|exact HW]].
        cbn [outcome] in *.
        destruct HW as (Hwfw & Htyw & _).
        apply Hpost; nsimpl; try done.
        apply wf_update_child with w; try done.
        intros b Hb. apply lookup_lt_Some in Hb.
        rewrite Hcs, length_app in Hb. simpl in Hb. lia. }
    (* no wildcard child yet *)
    assert (isWildByte c = true) as Hcw.
    { apply andb_false_iff in Hstatic as [Hstatic|Hnc].
      - unfold isWildByte.
        apply andb_false_iff in Hstatic as [H|H];
          apply negb_false_iff in H; rewrite H; by rewrite ?orb_true_r.
      - apply negb_false_iff, bool_decide_eq_true in Hnc.
        destruct (Hca Hnc) as (_ & _ & _ & ? & _). congruence. }
    assert (n.(nType) ≠ param) as Hnp.
    { intros ->%Hslash. done. }
    assert (n.(nType) ≠ catchAll) as Hnc.
    { intros Hnc. destruct (Hca Hnc) as (_ & _ & _ & ? & _). congruence. }
    unfold insertChild. eapply wp_mono.
    { apply insertChild_loop_wf; [|lia]. split_and!; try done.
      - destruct (nType n); by eauto.
      - left. by exists c. }
    intros [[]|e] n' HW; [|by eapply outcome_fail; [exact Hsafe|exact HW]].
    cbn [outcome] in *.
    destruct HW as (? & ? & Hpathn & _).
    apply Hpost; try done. apply Hpathn. by exists c.
  - (* the node itself is the target *)
    wp_steps. case_bool_decide; [by wp_step|].
    wp_steps. cbn [outcome].
    apply Hpost; [|done..]. by apply wf_set_fullPath, wf_set_handlers.
Qed.
End walk_wf.

Lemma walk_wf fuel fullP hs p pfi n :
  walkPre n p → height n < fuel →
  p `suffix_of` fullP → pfi + length p ≤ length fullP →
  wp (walk fuel p fullP hs pfi)
     (outcome (noCatchAll p) (λ _ n', walkPost p n n')) n.
Proof.
  revert p pfi n.
  induction fuel as [|fuel IH]; intros p pfi n Hpre Hfuel Hsuf Hpfi; [lia|].
  by apply walk_step_wf.
Qed.



(** ** Registrations keep the tree well formed *)

Lemma zeroNode_wf : wf zeroNode.
Proof. by apply blank_wf. Qed.

Lemma wf_children_nil n :
  wf n → n.(nType) ≠ catchAll → n.(children) = [] →
  n.(indices) = [] ∧ n.(wildChild) = false.
Proof.
  intros [Hshape _]%wf_inv Hnc Hcs.
  destruct Hshape as [(? & _)|[(? & _)|[Htail|Hplain]]]; [done..| |].
  - destruct Htail as (_ & _ & _ & c & Hc & _). congruence.
  - destruct Hplain as (_ & _ & (indexed & wildPart & Hcs' & Hall & Hwp) & _).
    rewrite Hcs in Hcs'. symmetry in Hcs'.
    apply app_eq_nil in Hcs' as [-> ->].
    apply Forall2_nil_inv_r in Hall. split; [done|].
    destruct n.(wildChild); [|done]. by destruct Hwp as (? & ? & _).
Qed.

Lemma wf_set_nType_root n :
  wf n → n.(nType) = static ∨ n.(nType) = root → wf (set_nType root n).
Proof.
  intros Hwf Hty.
  assert (isPlain n) as (_ & Hnd & Hdec & _)
    by (apply plain_of_wf; [done|destruct Hty as [-> | ->]; done..]).
  apply wf_inv in Hwf as [_ Hch].
  constructor; [|done]. right; right; right. by split_and!.
Qed.

Lemma addRoute_outcome p hs t :
  rootOk t →
  wp (addRoute p hs)
     (outcome (noCatchAll p) (λ _ t', wf t' ∧ t'.(nType) = root)) t.
Proof.
  intros [Hwf Hroot].
  assert (t.(nType) = static ∨ t.(nType) = root) as Hty
    by (destruct Hroot as [->| ->]; eauto).
  assert (walkPre (incPriority t) p) as Hpre.
  { split_and!.
    - by apply wf_incPriority.
    - nsimpl. destruct Hty as [-> | ->]; done.
    - nsimpl. destruct Hty as [-> | ->]; done. }
  assert (wp (walk (walkFuel (incPriority t)) p p hs 0)
            (outcome (noCatchAll p)
               (λ _ t', wf t' ∧ t'.(nType) = t.(nType))) (incPriority t))
    as Hwalk.
  { eapply wp_mono.
    { apply walk_wf; [done|unfold walkFuel; lia|done|simpl; lia]. }
    intros [[]|e] n' HW; [|by eapply outcome_fail; [|exact HW]].
    cbn [outcome] in *. by destruct HW as (? & ? & _). }
  unfold addRoute. wp_steps.
  destruct (Nat.eqb_spec (length (path (incPriority t))) 0) as [Hp0|Hp0];
    cbn [andb].
  - destruct (Nat.eqb_spec (length (children (incPriority t))) 0)
      as [Hc0|Hc0].
    + (* the tree is empty *)
      nsimpl in Hp0. nsimpl in Hc0.
      apply nil_length_inv in Hp0, Hc0.
      destruct (wf_children_nil t) as [Hi Hw]; [done| |done|].
      { destruct Hty as [-> | ->]; done. }
      apply wp_seq with
        (Qmid := outcome (noCatchAll p)
                   (λ _ n', wf n' ∧ (n'.(nType) = static
                                     ∨ n'.(nType) = root))).
      * unfold insertChild. eapply wp_mono.
        { apply insertChild_loop_wf; [|lia].
          split_and!; try done; [|by right].
          by apply wf_incPriority. }
        intros [[]|e] n' HW; [|by eapply outcome_fail; [|exact HW]].
        cbn [outcome] in *.
        destruct HW as (? & Htn & _). nsimpl in Htn. split; [done|].
        by rewrite Htn.
      * intros [] n' [Hwf' Hty']. wp_steps. split; [|done].
        by apply wf_set_nType_root.
      * intros e n'. by apply outcome_fail.
    + eapply wp_mono; [exact Hwalk|].
      intros [[]|e] n' HW; [|by eapply outcome_fail; [|exact HW]].
      cbn [outcome] in *. destruct HW as [? Htn]. split; [done|].
      rewrite Htn. by destruct Hroot as [Hr| ->].
  - eapply wp_mono; [exact Hwalk|].
    intros [[]|e] n' HW; [|by eapply outcome_fail; [|exact HW]].
    cbn [outcome] in *. destruct HW as [? Htn]. split; [done|].
    rewrite Htn. by destruct Hroot as [Hr| ->].
Qed.

Lemma addRoute_rootOk p hs t t' :
  rootOk t → addRoute p hs t = (t', Ok tt) → rootOk t'.
Proof.
  intros Hroot Hrun.
  pose proof (wp_run _ _ _ _ _ (addRoute_outcome p hs t Hroot) Hrun)
    as [? ?].
  split; [done|by left].
Qed.

Lemma addRoutes_rootOk rs t t' :
  rootOk t → addRoutes rs t = Some t' → rootOk t'.
Proof.
  revert t. induction rs as [|[p hs] rs IH]; intros t Ht; simpl.
  - by intros [= <-].
  - destruct (addRoute p hs t) as [t1 [[]|e]] eqn:Hrun; [|done].
    apply IH. by eapply addRoute_rootOk.
Qed.

Lemma addRoutes_wf rs t : addRoutes rs zeroNode = Some t → wf t.
Proof.
  intros H. eapply addRoutes_rootOk in H as [? _]; [done|].
  split; [apply zeroNode_wf|by right].
Qed.

Lemma wf_subnode x t : wf t → subnode x t → wf x.
Proof.
  intros Hwf Hsub. induction Hsub as [|t c Hin _ IH]; [done|].
  apply IH. apply wf_inv in Hwf as [_ Hch].
  rewrite Forall_forall in Hch. by apply Hch.
Qed.

(** ** The structural invariants *)

(** C2. After every sequence of successful registrations, every node of
    the tree whose wildcard flag is set has a last child of kind param or
    catchAll, and no param child before it; a child of kind catchAll may
    stand before the last one.  [addChild] puts a new child just before
    the last child when the flag is set and there are children, and at the
    end otherwise; its result is the index of the new child.  The last
    part: a child of kind param is always the last child, and the flag of
    its parent is set. *)
Theorem wildcard_child_last :
  (∀ (rs : list (gostring * HandlersChain)) (t n : node),
      addRoutes rs zeroNode = Some t → subnode n t →
      n.(wildChild) = true →
      ∃ init w,
        n.(children) = init ++ [w]
        ∧ (w.(nType) = param ∨ w.(nType) = catchAll)
        ∧ Forall (λ c, c.(nType) ≠ param) init)
  ∧ (∀ (n child w : node) (init : list node),
        n.(wildChild) = true → n.(children) = init ++ [w] →
        addChild child n
        = (set_children (init ++ [child; w]) n, Ok (length init)))
  ∧ (∀ (n child : node),
        n.(wildChild) = false ∨ n.(children) = [] →
        addChild child n
        = (set_children (n.(children) ++ [child]) n,
           Ok (length n.(children))))
  ∧ (∀ (rs : list (gostring * HandlersChain)) (t n c : node),
        addRoutes rs zeroNode = Some t → subnode n t →
        c ∈ n.(children) → c.(nType) = param →
        n.(wildChild) = true ∧ last n.(children) = Some c).
Proof.
  split_and!.
  - intros rs t n Hrs Hsub Hw.
    pose proof (wf_subnode n t (addRoutes_wf rs t Hrs) Hsub) as Hwf.
    apply wf_inv in Hwf as [Hshape _].
    destruct Hshape as [(_ & _ & _ & ? & _)|[Hholder|[(_ & _ & ? & _)|Hplain]]];
      [congruence| |congruence|].
    + destruct Hholder as (_ & _ & _ & _ & l & Hcs & Hl & _).
      exists [], l. split_and!; [done|by right|constructor].
    + destruct Hplain as (_ & _ & (indexed & wildPart & Hcs & Hall & Hwp) & _).
      rewrite Hw in Hwp. destruct Hwp as (w & -> & Hwt).
      exists indexed, w. split_and!; [done|by left|].
      apply Forall_forall. intros c [j Hj]%list_elem_of_lookup Hc.
      destruct (Forall2_lookup_r _ _ _ _ _ Hall Hj) as (b & _ & _ & [?|Hh]);
        [congruence|].
      destruct Hh as (? & _). congruence.
  - intros n child w init Hw Hcs. by apply addChild_wild.
  - intros n child [Hw|Hcs].
    + by apply addChild_plain.
    + rewrite addChild_nil by done. by rewrite Hcs.
  - intros rs t n c Hrs Hsub Hin Hc.
    pose proof (wf_subnode n t (addRoutes_wf rs t Hrs) Hsub) as Hwf.
    apply wf_inv in Hwf as [Hshape _].
    destruct Hshape as [(_ & Hcs & _)|[Hholder|[Htail|Hplain]]].
    + rewrite Hcs in Hin. by apply elem_of_nil in Hin.
    + destruct Hholder as (_ & _ & _ & _ & l & Hcs & Hl & _).
      rewrite Hcs in Hin. apply list_elem_of_singleton in Hin as ->.
      congruence.
    + destruct Htail as (_ & _ & _ & c' & Hcs & Hc').
      rewrite Hcs in Hin. apply list_elem_of_singleton in Hin as ->.
      congruence.
    + destruct Hplain as (_ & _ & (indexed & wildPart & Hcs & Hall & Hwp) & _).
      rewrite Hcs in Hin |- *. apply elem_of_app in Hin as [Hin|Hin].
      * exfalso. apply list_elem_of_lookup in Hin as [j Hj].
        destruct (Forall2_lookup_r _ _ _ _ _ Hall Hj)
          as (b & _ & _ & [?|Hh]); [congruence|].
        destruct Hh as (? & _). congruence.
      * destruct (wildChild n).
        -- destruct Hwp as (w & -> & _).
           apply list_elem_of_singleton in Hin as ->.
           by rewrite last_snoc.
        -- subst wildPart. by apply elem_of_nil in Hin.
Qed.

(** C7 (as amended). After every sequence of successful registrations the
    root is not of kind catchAll and every catchAll node is one of two: a
    holder, child of a node that is not catchAll, with an empty segment
    (hence without '/'), the wildcard flag and exactly one child; or the
    leaf under a holder, which is the holder's only child (it has no
    sibling), has no children and carries "/*name" as its segment, the
    name non-empty and without '/'. *)
Theorem catchAll_nodes (rs : list (gostring * HandlersChain)) (t : node) :
  addRoutes rs zeroNode = Some t →
  t.(nType) ≠ catchAll
  ∧ ∀ parent c,
      subnode parent t → c ∈ parent.(children) → c.(nType) = catchAll →
      (isCatchAllHolder c ∧ parent.(nType) ≠ catchAll)
      ∨ (isCatchAllLeaf c ∧ parent.(children) = [c]
         ∧ isCatchAllHolder parent).
Proof.
  intros Hrs. split.
  - eapply addRoutes_rootOk in Hrs as [_ [Hr| ->]];
      [congruence|done|].
    split; [apply zeroNode_wf|by right].
  - intros parent c Hsub Hin Hc.
    pose proof (wf_subnode parent t (addRoutes_wf rs t Hrs) Hsub) as Hwf.
    apply wf_inv in Hwf as [Hshape _].
    destruct Hshape as [Hleaf|[Hholder|[Htail|Hplain]]].
    + destruct Hleaf as (_ & Hcs & _). rewrite Hcs in Hin.
      by apply elem_of_nil in Hin.
    + right. pose proof Hholder as (_ & _ & _ & _ & l & Hcs & Hl).
      rewrite Hcs in Hin. apply list_elem_of_singleton in Hin as ->. done.
    + destruct Htail as (_ & _ & _ & c0 & Hcs & Hst).
      rewrite Hcs in Hin. apply list_elem_of_singleton in Hin as ->.
      congruence.
    + left. destruct Hplain
        as (Hnc & _ & (indexed & wildPart & Hcs & Hall & Hwp) & _).
      split; [|done]. rewrite Hcs in Hin.
      apply elem_of_app in Hin as [Hin|Hin].
      * apply list_elem_of_lookup in Hin as [j Hj].
        destruct (Forall2_lookup_r _ _ _ _ _ Hall Hj)
          as (b & _ & _ & [?|Hh]); [congruence|done].
      * destruct parent.(wildChild).
        -- destruct Hwp as (w & -> & Hw).
           apply list_elem_of_singleton in Hin as ->. congruence.
        -- subst wildPart. by apply elem_of_nil in Hin.
Qed.

(** C8 (as amended). After every sequence of successful registrations the
    firstBytes of every node are pairwise distinct and, unless the node is
    a param node whose single child is the un-indexed tail made by
    insertChild, its children are the indexed children, one per byte of
    firstBytes and in the same order, followed by the wildcard child
    exactly when the flag is set; the byte of an indexed child is the
    first byte of its segment, or '/' when its segment is empty. *)
Theorem indices_match_children (rs : list (gostring * HandlersChain))
    (t n : node) :
  addRoutes rs zeroNode = Some t → subnode n t →
  NoDup n.(indices)
  ∧ (isParamTail n
     ∨ ∃ indexed wildPart,
         n.(children) = indexed ++ wildPart
         ∧ Forall2 headOk n.(indices) indexed
         ∧ length wildPart = if n.(wildChild) then 1 else 0).
Proof.
  intros Hrs Hsub.
  pose proof (wf_subnode n t (addRoutes_wf rs t Hrs) Hsub) as Hwf.
  apply wf_inv in Hwf as [Hshape _].
  destruct Hshape as [Hleaf|[Hholder|[Htail|Hplain]]].
  - destruct Hleaf as (_ & Hcs & Hi & Hw & _). rewrite Hi, Hcs, Hw.
    split; [constructor|right]. exists [], []. split_and!; [done|constructor|done].
  - destruct Hholder as (_ & _ & Hi & Hw & l & Hcs & _). rewrite Hi, Hcs, Hw.
    split; [constructor|right]. exists [], [l].
    split_and!; [done|constructor|done].
  - pose proof Htail as (_ & Hi & _). rewrite Hi. split; [constructor|by left].
  - destruct Hplain as (_ & Hnd & (indexed & wildPart & Hcs & Hall & Hwp) & _).
    split; [done|right]. exists indexed, wildPart. split_and!; [done| |].
    + eapply Forall2_impl; [exact Hall|]. by intros b c [? _].
    + destruct n.(wildChild); [|by subst]. by destruct Hwp as (w & -> & _).
Qed.

(** ** Further properties of the code *)

Lemma wp_result {A} (m : M A) (n n' : node) (r : result A) :
  wp m (λ r0 n0, r0 = r ∧ n0 = n') n → m n = (n', r).
Proof. unfold wp. destruct (m n) as [n0 r0]. simpl. by intros [-> ->]. Qed.

(** X1. [longestCommonPrefix a b] is the length of the longest common
    prefix of [a] and [b]: it does not exceed either length, the two
    strings agree on that many leading bytes, and where both go on they
    differ at that index.  The order of the arguments does not matter. *)
Theorem longestCommonPrefix_spec (a b : gostring) :
  let i := longestCommonPrefix a b in
  i ≤ length a ∧ i ≤ length b ∧ take i a = take i b
  ∧ (∀ x y, a !! i = Some x → b !! i = Some y → x ≠ y)
  ∧ longestCommonPrefix b a = i.
Proof.
  cbn zeta. rewrite !longestCommonPrefix_eq. split_and!.
  - apply commonPrefix_le_l.
  - apply commonPrefix_le_r.
  - apply commonPrefix_take.
  - intros x y. apply commonPrefix_differ.
  - revert b. induction a as [|x a IH]; intros [|y b]; simpl; try done.
    rewrite (Ascii.eqb_sym y x). destruct (x =? y)%char; [|done].
    by rewrite IH.
Qed.

Lemma findWildcard_token (pre : gostring) (c : ascii) (tok rest : gostring) :
  Forall noWild pre → isWildByte c = true → Forall notSlash tok →
  rest = [] ∨ head rest = Some "/"%char →
  findWildcard (pre ++ c :: tok ++ rest)
  = (c :: tok, Z.of_nat (length pre), negb (existsb isWildByte tok)).
Proof.
  intros Hpre Hc Htok Hr. unfold findWildcard.
  by rewrite (findWildcardStart_some _ [] pre c tok rest).
Qed.

(** X2. [insertChild] with a path that holds no ':' and no '*': the loop
    is left at once and the node takes the whole path as its segment, the
    action and the full path; nothing else of the node changes and no child
    is made. *)
Theorem insertChild_static (p fullP : gostring) (hs : HandlersChain)
    (n : node) :
  Forall noWild p →
  insertChild p fullP hs n
  = (mkNode p n.(indices) n.(wildChild) n.(nType) n.(priority) n.(children)
            hs fullP, Ok tt).
Proof.
  intros Hp. unfold insertChild. cbn [insertChild_loop].
  unfold findWildcard. by rewrite findWildcardStart_none.
Qed.

(** X3. The two panics of [insertChild] about the name of the first
    wildcard token [c :: tok] of the path (the token runs up to the next
    '/'): a token that holds a second ':' or '*' gives "only one wildcard
    per path segment is allowed" with the token and the full path in the
    message; a token that is the marker alone gives "wildcards must be
    named with a non-empty name".  In both cases the node is left as it
    was. *)
Theorem insertChild_wildcard_name_errors (pre : gostring) (c : ascii)
    (tok rest fullP : gostring) (hs : HandlersChain) (n : node) :
  Forall noWild pre → isWildByte c = true → Forall notSlash tok →
  rest = [] ∨ head rest = Some "/"%char →
  (existsb isWildByte tok = true →
   insertChild (pre ++ c :: tok ++ rest) fullP hs n
   = (n, Fail (Panic (msg_onlyOneWildcard (c :: tok) fullP))))
  ∧ (tok = [] →
     insertChild (pre ++ c :: tok ++ rest) fullP hs n
     = (n, Fail (Panic (msg_unnamedWildcard fullP)))).
Proof.
  intros Hpre Hc Htok Hr. unfold insertChild. cbn [insertChild_loop].
  rewrite findWildcard_token by done.
  destruct (Z.ltb_spec (Z.of_nat (length pre)) 0); [lia|].
  split.
  - by intros ->.
  - by intros ->.
Qed.

(** X4. The two panics of [insertChild] about the place of a named
    catch-all token ['*' :: tok] that is the first wildcard of the path:
    when something follows the token the panic is "catch-all routes are
    only allowed at the end of the path"; when the token ends the path, the
    node's segment does not end in '/' and the byte before '*' is not '/',
    the panic is "no / before catch-all".  In both cases the node is left
    as it was. *)
Theorem insertChild_catchAll_place_errors (pre tok rest fullP : gostring)
    (hs : HandlersChain) (n : node) :
  Forall noWild pre → Forall notSlash tok → tok ≠ [] →
  existsb isWildByte tok = false →
  rest = [] ∨ head rest = Some "/"%char →
  (rest ≠ [] →
   insertChild (pre ++ "*"%char :: tok ++ rest) fullP hs n
   = (n, Fail (Panic (msg_catchAllNotLast fullP))))
  ∧ (rest = [] → endsWithSlash n.(path) = false →
     ∀ pre0 b, pre = pre0 ++ [b] → b ≠ "/"%char →
     insertChild (pre ++ "*"%char :: tok ++ rest) fullP hs n
     = (n, Fail (Panic (msg_noSlashBeforeCatchAll fullP)))).
Proof.
  intros Hpre Htok Hne Hv Hr. unfold insertChild. cbn [insertChild_loop].
  rewrite findWildcard_token by done. rewrite Hv. cbn [negb].
  destruct (Z.ltb_spec (Z.of_nat (length pre)) 0); [lia|].
  destruct (Nat.ltb_spec (length ("*"%char :: tok)) 2) as [Hlt|_].
  { destruct tok; [done|simpl in Hlt; lia]. }
  split.
  - intros Hrest. apply wp_result. wp_steps. cbn [byteAt lookup list_lookup].
    cbn [Ascii.eqb Bool.eqb andb]. cbn beta iota.
    destruct (Z.eqb_spec (Z.of_nat (length pre)
                          + Z.of_nat (length ("*"%char :: tok)))
                (Z.of_nat (length (pre ++ "*"%char :: tok ++ rest))))
      as [Hend|_]; cbn [negb]; [|by wp_steps].
    rewrite length_app in Hend. cbn [length] in Hend.
    rewrite length_app in Hend. destruct rest; [done|simpl in Hend; lia].
  - intros -> Hslash pre0 b -> Hb. apply wp_result. wp_steps.
    cbn [byteAt lookup list_lookup]. cbn [Ascii.eqb Bool.eqb andb].
    cbn beta iota.
    destruct (Z.eqb_spec (Z.of_nat (length (pre0 ++ [b]))
                          + Z.of_nat (length ("*"%char :: tok)))
                (Z.of_nat (length ((pre0 ++ [b]) ++ "*"%char :: tok ++ []))))
      as [_|Hend]; cbn [negb].
    2:{ exfalso. apply Hend. rewrite !length_app. simpl.
        rewrite length_app. simpl. lia. }
    wp_steps. fold (endsWithSlash n.(path)). rewrite Hslash.
    replace (Z.of_nat (length (pre0 ++ [b])) - 1)%Z
      with (Z.of_nat (length pre0)) by (rewrite length_app; simpl; lia).
    rewrite byteAtZ_nat, <- app_assoc. cbn [app].
    rewrite list_lookup_middle by done. wp_steps.
    destruct (Ascii.eqb_spec b "/"); [done|]. cbn [negb]. by wp_steps.
Qed.

Lemma insertChild_param_run (pre tok rest fullP : gostring)
    (hs : HandlersChain) (n : node) :
  Forall noWild pre → Forall notSlash tok → tok ≠ [] →
  existsb isWildByte tok = false →
  rest = [] ∨ head rest = Some "/"%char → Forall noWild rest →
  n.(wildChild) = false →
  insertChild (pre ++ ":"%char :: tok ++ rest) fullP hs n
  = (mkNode (match pre with [] => n.(path) | _ :: _ => pre end)
            n.(indices) true n.(nType) n.(priority)
            (n.(children)
               ++ [match rest with
                   | [] => mkNode (":"%char :: tok) [] false param 1 [] hs
                                  fullP
                   | _ :: _ =>
                       mkNode (":"%char :: tok) [] false param 1
                              [mkNode rest [] false static 1 [] hs fullP]
                              None fullP
                   end])
            n.(handlers) n.(fullPath), Ok tt).
Proof.
  intros Hpre Htok Hne Hv Hr Hrest Hw. unfold insertChild.
  cbn [insertChild_loop].
  rewrite findWildcard_token by done. rewrite Hv. cbn [negb].
  destruct (Z.ltb_spec (Z.of_nat (length pre)) 0); [lia|].
  destruct (Nat.ltb_spec (length (":"%char :: tok)) 2) as [Hlt|_].
  { destruct tok; [done|simpl in Hlt; lia]. }
  apply wp_result. wp_steps. cbn [byteAt lookup list_lookup].
  cbn [Ascii.eqb Bool.eqb andb]. cbn beta iota.
  apply wp_seq with
    (Qmid := λ r n1, r = Ok (":"%char :: tok ++ rest)
                     ∧ n1 = match pre with
                            | [] => n
                            | _ :: _ => set_path pre n
                            end).
  { destruct pre as [|b0 pre0]; [by wp_steps|].
    destruct (Z.ltb_spec 0 (Z.of_nat (length (b0 :: pre0))));
      [|simpl in *; lia].
    wp_steps. rewrite sliceZ_pre. wp_steps.
    by rewrite sliceZ_post. }
  2:{ by intros e n' [? _]. }
  intros p1 n1 [[= ->] ->].
  set (n1 := match pre with [] => n | _ :: _ => set_path pre n end).
  assert (n1.(wildChild) = false) as Hw1 by (unfold n1; by destruct pre).
  wp_step. eapply wp_eq; [by apply addChild_plain|]. cbn beta iota.
  wp_steps. nsimpl.
  rewrite lookup_app_r, Nat.sub_diag by lia. cbn [lookup list_lookup].
  wp_steps.
  destruct rest as [|r0 rest0].
  - rewrite app_nil_r.
    destruct (Nat.ltb_spec (length (":"%char :: tok))
                (length (":"%char :: tok))); [lia|].
    wp_steps. split; [done|].
    rewrite insert_app_r_alt, Nat.sub_diag by lia. cbn [insert list_insert].
    unfold n1. by destruct pre.
  - destruct (Nat.ltb_spec (length (":"%char :: tok))
                (length (":"%char :: tok ++ r0 :: rest0))) as [_|Hge].
    2:{ simpl in Hge. rewrite length_app in Hge. simpl in Hge. lia. }
    wp_steps.
    change (":"%char :: tok ++ r0 :: rest0)
      with ((":"%char :: tok) ++ r0 :: rest0).
    rewrite slice_post. wp_step.
    eapply wp_eq; [by apply addChild_nil|]. cbn beta iota.
    wp_step. nsimpl. cbn [lookup list_lookup].
    destruct (length (pre ++ (":"%char :: tok) ++ r0 :: rest0)) as [|fuel]
      eqn:Hfuel.
    { rewrite length_app in Hfuel. simpl in Hfuel. lia. }
    cbn [insertChild_loop]. unfold findWildcard.
    rewrite findWildcardStart_none by done. cbn [Z.ltb Z.compare].
    wp_steps. split; [done|]. cbn [insert list_insert]. nsimpl.
    rewrite insert_app_r_alt, Nat.sub_diag by lia. cbn [insert list_insert].
    unfold n1. by destruct pre.
Qed.

(** X5. [insertChild] with a path [pre ++ ':' :: tok ++ rest] whose only
    wildcard is the named param token [':' :: tok], on a node without
    wildcard child: the node keeps its segment when [pre] is empty and
    takes [pre] otherwise, its wildcard flag is set and a param child
    holding the token is put after its children, with priority 1.  When
    the token ends the path the param child carries the action; otherwise
    it has no action and one static child of priority 1 that holds the rest
    of the path and the action.  The node's own action, kind, priority,
    full path and first bytes are not touched. *)
Theorem insertChild_param (pre tok rest fullP : gostring)
    (hs : HandlersChain) (n : node) :
  Forall noWild pre → Forall notSlash tok → tok ≠ [] →
  existsb isWildByte tok = false →
  rest = [] ∨ head rest = Some "/"%char → Forall noWild rest →
  n.(wildChild) = false →
  insertChild (pre ++ ":"%char :: tok ++ rest) fullP hs n
  = (mkNode (match pre with [] => n.(path) | _ :: _ => pre end)
            n.(indices) true n.(nType) n.(priority)
            (n.(children)
               ++ [match rest with
                   | [] => mkNode (":"%char :: tok) [] false param 1 [] hs
                                  fullP
                   | _ :: _ =>
                       mkNode (":"%char :: tok) [] false param 1
                              [mkNode rest [] false static 1 [] hs fullP]
                              None fullP
                   end])
            n.(handlers) n.(fullPath), Ok tt).
Proof. apply insertChild_param_run. Qed.

Lemma insertChild_catchAll_run (pre0 tok fullP : gostring)
    (hs : HandlersChain) (n : node) :
  Forall noWild pre0 → Forall notSlash tok → tok ≠ [] →
  existsb isWildByte tok = false →
  endsWithSlash n.(path) = false → n.(wildChild) = false →
  insertChild (pre0 ++ "/"%char :: "*"%char :: tok) fullP hs n
  = (mkNode pre0 ["/"%char] false n.(nType) n.(priority)
            (n.(children)
               ++ [mkNode [] [] true catchAll 1
                     [mkNode ("/"%char :: "*"%char :: tok) [] false catchAll
                             1 [] hs fullP]
                     None fullP])
            n.(handlers) n.(fullPath), Ok tt).
Proof.
  intros Hpre Htok Hne Hv Hslash Hw. unfold insertChild.
  cbn [insertChild_loop].
  assert (pre0 ++ "/"%char :: "*"%char :: tok
          = (pre0 ++ ["/"%char]) ++ "*"%char :: tok ++ []) as Hp.
  { by rewrite <- app_assoc, app_nil_r. }
  assert (findWildcard (pre0 ++ "/"%char :: "*"%char :: tok)
          = ("*"%char :: tok, Z.of_nat (length (pre0 ++ ["/"%char])), true))
    as Hfw.
  { rewrite Hp, findWildcard_token, ?Hv; try done; [|by left].
    apply Forall_app. split; [done|]. by repeat constructor. }
  rewrite Hfw. cbn [negb].
  destruct (Z.ltb_spec (Z.of_nat (length (pre0 ++ ["/"%char]))) 0); [lia|].
  destruct (Nat.ltb_spec (length ("*"%char :: tok)) 2) as [Hlt|_].
  { destruct tok; [done|simpl in Hlt; lia]. }
  apply wp_result. wp_steps. cbn [byteAt lookup list_lookup].
  cbn [Ascii.eqb Bool.eqb andb]. cbn beta iota.
  destruct (Z.eqb_spec (Z.of_nat (length (pre0 ++ ["/"%char]))
                        + Z.of_nat (length ("*"%char :: tok)))
              (Z.of_nat (length (pre0 ++ "/"%char :: "*"%char :: tok))))
    as [_|Hend]; cbn [negb].
  2:{ exfalso. apply Hend. rewrite !length_app. simpl. lia. }
  wp_steps. fold (endsWithSlash n.(path)). rewrite Hslash.
  replace (Z.of_nat (length (pre0 ++ ["/"%char])) - 1)%Z
    with (Z.of_nat (length pre0)) by (rewrite length_app; simpl; lia).
  rewrite byteAtZ_nat, list_lookup_middle by done. wp_steps.
  cbn [Ascii.eqb Bool.eqb andb negb]. cbn beta iota.
  wp_steps. rewrite sliceZ_pre. wp_steps.
  eapply wp_eq; [by apply addChild_plain|]. cbn beta iota.
  wp_steps. nsimpl.
  rewrite lookup_app_r, Nat.sub_diag by lia. cbn [lookup list_lookup].
  wp_steps. rewrite sliceZ_post. wp_steps. split; [done|].
  rewrite insert_app_r_alt, Nat.sub_diag by lia.
  unfold set_children, set_indices, set_path, incPriority, set_priority.
  nsimpl. by rewrite Hw.
Qed.

(** X6. [insertChild] with a path [pre0 ++ "/*" ++ tok] that ends in a
    named catch-all token preceded by '/', [pre0] holding neither ':' nor
    '*' (it is the text before the first wildcard), on a node without
    wildcard child whose segment does not end in '/': the node's segment
    becomes
    [pre0] (also when [pre0] is empty), its first bytes become "/", and a
    catch-all child with an empty segment, the wildcard flag and priority 1
    is put after its children; that child has one child, a catch-all node
    of priority 1 that holds "/*" ++ tok and the action. *)
Theorem insertChild_catchAll (pre0 tok fullP : gostring)
    (hs : HandlersChain) (n : node) :
  Forall noWild pre0 → Forall notSlash tok → tok ≠ [] →
  existsb isWildByte tok = false →
  endsWithSlash n.(path) = false → n.(wildChild) = false →
  insertChild (pre0 ++ "/"%char :: "*"%char :: tok) fullP hs n
  = (mkNode pre0 ["/"%char] false n.(nType) n.(priority)
            (n.(children)
               ++ [mkNode [] [] true catchAll 1
                     [mkNode ("/"%char :: "*"%char :: tok) [] false catchAll
                             1 [] hs fullP]
                     None fullP])
            n.(handlers) n.(fullPath), Ok tt).
Proof. apply insertChild_catchAll_run. Qed.

Lemma addRoute_empty_run (p : gostring) (hs : HandlersChain) (t : node) :
  t.(path) = [] → t.(children) = [] → Forall noWild p →
  addRoute p hs t
  = (mkNode p t.(indices) t.(wildChild) root (wrap32 (t.(priority) + 1)) []
            hs p, Ok tt).
Proof.
  intros Hp Hc Hnw. unfold addRoute. apply wp_result. wp_steps. nsimpl.
  rewrite Hp, Hc. cbn [length Nat.eqb andb].
  apply wp_bind. eapply wp_eq; [by apply insertChild_static|].
  cbn beta iota. wp_steps. nsimpl. by rewrite Hc.
Qed.

(** X7. [addRoute] on a tree whose root has an empty segment and no
    children (the "empty tree" test of the source, which the zero value of
    [node] passes) with a path without ':' and '*': the root takes the
    whole path as segment and as full path, the action, and kind root; its
    priority goes up by one; it still has no children.  An action the root
    had before is replaced without any error. *)
Theorem addRoute_empty_tree (p : gostring) (hs : HandlersChain) (t : node) :
  t.(path) = [] → t.(children) = [] → Forall noWild p →
  addRoute p hs t
  = (mkNode p t.(indices) t.(wildChild) root (wrap32 (t.(priority) + 1)) []
            hs p, Ok tt).
Proof. apply addRoute_empty_run. Qed.

(** X8. Registering the empty pattern leaves the tree "empty" for the
    test of [addRoute]: the next registration of a path without wildcards
    takes the root over, and the action of the empty pattern is lost
    without any error. *)
Theorem addRoute_empty_pattern_replaced (p : gostring)
    (h0 hs : HandlersChain) :
  Forall noWild p →
  addRoutes [([], h0); (p, hs)] zeroNode
  = Some (mkNode p [] false root 2 [] hs p).
Proof.
  intros Hp. cbn [addRoutes].
  rewrite (addRoute_empty_run [] h0 zeroNode) by done.
  by rewrite addRoute_empty_run.
Qed.

Lemma walk_at_target_run (fuel : nat) (fullP : gostring)
    (hs : HandlersChain) (pfi : nat) (n : node) :
  walk (S fuel) n.(path) fullP hs pfi n
  = match n.(handlers) with
    | Some _ => (n, Fail (Panic (msg_duplicate fullP)))
    | None =>
        (mkNode n.(path) n.(indices) n.(wildChild) n.(nType) n.(priority)
                n.(children) hs fullP, Ok tt)
    end.
Proof.
  pose proof (commonPrefix_app n.(path) []) as E. rewrite app_nil_r in E.
  destruct n.(handlers) as [h|] eqn:Hh; apply wp_result; cbn [walk];
    do 2 wp_step; rewrite longestCommonPrefix_eq, E, Nat.ltb_irrefl;
    wp_steps; rewrite Hh.
  - rewrite bool_decide_eq_true_2 by done. by wp_steps.
  - rewrite bool_decide_eq_false_2 by (intros H; by apply H).
    by wp_steps.
Qed.

(** X9. The end of the walk: when the remaining path is exactly the
    segment of the cursor node, one more iteration of the loop ends the
    registration at that node.  If the node already carries an action the
    call panics with "handlers are already registered for path" and the
    full path, and the node is left as it was; otherwise the node takes the
    action and the full path and nothing else of it changes. *)
Theorem walk_at_target (fuel : nat) (fullP : gostring)
    (hs : HandlersChain) (pfi : nat) (n : node) :
  walk (S fuel) n.(path) fullP hs pfi n
  = match n.(handlers) with
    | Some _ => (n, Fail (Panic (msg_duplicate fullP)))
    | None =>
        (mkNode n.(path) n.(indices) n.(wildChild) n.(nType) n.(priority)
                n.(children) hs fullP, Ok tt)
    end.
Proof. apply walk_at_target_run. Qed.

(** ** What a registration may do on a tree built by registrations *)

Lemma addRoutes_outcome (rs : list (gostring * HandlersChain)) (t : node)
    (p : gostring) (hs : HandlersChain) :
  addRoutes rs zeroNode = Some t →
  outcome (noCatchAll p) (λ _ t', wf t' ∧ t'.(nType) = root)
          (addRoute p hs t).2 (addRoute p hs t).1.
Proof.
  intros Hrs. apply addRoute_outcome.
  eapply addRoutes_rootOk; [|exact Hrs].
  split; [apply zeroNode_wf|by right].
Qed.

(** The bound [walkFuel] is enough on every well-formed root, and so is
    the bound of [insertChild]. *)
Lemma walk_fuel_enough (p : gostring) (hs : HandlersChain) (t : node) :
  rootOk t → (addRoute p hs t).2 ≠ Fail OutOfFuel.
Proof.
  intros Hroot Hr. pose proof (addRoute_outcome p hs t Hroot) as H.
  unfold wp in H. by rewrite Hr in H.
Qed.

(** X10. The loops of [addRoute] terminate: on every tree built by
    successful registrations and for every path, the walk needs no more
    iterations than the bound the embedding gives it (twice the height of
    the tree plus two) and the loop of [insertChild] no more than the length
    of its path plus one.  So a call always ends: normally, by a panic, or
    by a run-time error. *)
Theorem addRoute_terminates (rs : list (gostring * HandlersChain))
    (t : node) (p : gostring) (hs : HandlersChain) :
  addRoutes rs zeroNode = Some t →
  (addRoute p hs t).2 ≠ Fail OutOfFuel.
Proof.
  intros Hrs Hr. pose proof (addRoutes_outcome rs t p hs Hrs) as H.
  by rewrite Hr in H.
Qed.

(** X11. On every tree built by successful registrations, registering a
    path that holds no '*' never runs into an index or slice out of range:
    the call ends normally or with one of the explicit panics. *)
Theorem addRoute_no_runtime_error (rs : list (gostring * HandlersChain))
    (t : node) (p : gostring) (hs : HandlersChain) :
  addRoutes rs zeroNode = Some t → "*"%char ∉ p →
  ∃ t', addRoute p hs t = (t', Ok tt)
        ∨ ∃ msg, addRoute p hs t = (t', Fail (Panic msg)).
Proof.
  intros Hrs Hp. pose proof (addRoutes_outcome rs t p hs Hrs) as H.
  destruct (addRoute p hs t) as [t' [[]|[msg| |]]]; simpl in H.
  - exists t'. by left.
  - exists t'. right. by exists msg.
  - by destruct H.
  - done.
Qed.

Lemma wf_child_kind (n c : node) :
  wf n → c ∈ n.(children) → c.(nType) ≠ root.
Proof.
  intros [Hshape _]%wf_inv Hin.
  destruct Hshape as [(_ & Hcs & _)|[Hholder|[Htail|Hplain]]].
  - rewrite Hcs in Hin. by apply elem_of_nil in Hin.
  - destruct Hholder as (_ & _ & _ & _ & l & Hcs & Hl & _).
    rewrite Hcs in Hin. apply list_elem_of_singleton in Hin as ->.
    by rewrite Hl.
  - destruct Htail as (_ & _ & _ & c0 & Hcs & Hst).
    rewrite Hcs in Hin. apply list_elem_of_singleton in Hin as ->.
    by rewrite Hst.
  - destruct Hplain as (_ & _ & (indexed & wildPart & Hcs & Hall & Hwp) & _).
    rewrite Hcs in Hin. apply elem_of_app in Hin as [Hin|Hin].
    + apply list_elem_of_lookup in Hin as [j Hj].
      destruct (Forall2_lookup_r _ _ _ _ _ Hall Hj) as (b & _ & _ & Hk).
      destruct Hk as [->|(-> & _)]; done.
    + destruct n.(wildChild).
      * destruct Hwp as (w & -> & Hw).
        apply list_elem_of_singleton in Hin as ->. by rewrite Hw.
      * subst wildPart. by apply elem_of_nil in Hin.
Qed.

Lemma addRoutes_root_kind (rs : list (gostring * HandlersChain))
    (t t' : node) :
  rootOk t → t.(nType) = root ∨ rs ≠ [] →
  addRoutes rs t = Some t' → t'.(nType) = root.
Proof.
  revert t. induction rs as [|[p hs] rs IH]; intros t Ht Hk; simpl.
  - intros [= <-]. by destruct Hk.
  - destruct (addRoute p hs t) as [t1 [[]|e]] eqn:Hrun; [|done].
    pose proof (wp_run _ _ _ _ _ (addRoute_outcome p hs t Ht) Hrun)
      as [Hwf1 Hty1].
    apply IH; [|by left]. split; [done|by left].
Qed.

(** X12. After at least one successful registration the root of the tree
    is of kind root, and it is the only node of that kind: no node below
    the root is of kind root. *)
Theorem root_kind (rs : list (gostring * HandlersChain)) (t : node) :
  addRoutes rs zeroNode = Some t → rs ≠ [] →
  t.(nType) = root
  ∧ ∀ c x, c ∈ t.(children) → subnode x c → x.(nType) ≠ root.
Proof.
  intros Hrs Hne. split.
  - eapply addRoutes_root_kind; [|by right|exact Hrs].
    split; [apply zeroNode_wf|by right].
  - intros c x Hc Hsub. pose proof (addRoutes_wf rs t Hrs) as Hwf.
    revert Hwf Hc. generalize t. clear Hrs Hne.
    induction Hsub as [|c d Hd _ IH]; intros t' Hwf Hc.
    + by eapply wf_child_kind.
    + apply (IH c); [|done].
      apply wf_inv in Hwf as [_ Hch]. rewrite Forall_forall in Hch.
      by apply Hch.
Qed.

(** X13. After every sequence of successful registrations, a node of kind
    param has no wildcard child and at most one child, and that child is
    not of kind param or root: what follows a parameter is one static
    segment (it starts with '/') or a catch-all. *)
Theorem param_nodes (rs : list (gostring * HandlersChain)) (t x : node) :
  addRoutes rs zeroNode = Some t → subnode x t → x.(nType) = param →
  x.(wildChild) = false ∧ length x.(children) ≤ 1
  ∧ ∀ c, c ∈ x.(children) → c.(nType) = static ∨ c.(nType) = catchAll.
Proof.
  intros Hrs Hsub Hp.
  pose proof (wf_subnode x t (addRoutes_wf rs t Hrs) Hsub) as Hwf.
  split_and!.
  - apply wf_inv in Hwf as [Hshape _].
    destruct Hshape as [(? & _)|[(? & _)|[Htail|Hplain]]]; [congruence..| |].
    + by destruct Htail as (_ & _ & ? & _).
    + destruct Hplain as (_ & _ & _ & Hpar). by destruct (Hpar Hp).
  - apply wf_inv in Hwf as [Hshape _].
    destruct Hshape as [(? & _)|[(? & _)|[Htail|Hplain]]]; [congruence..| |].
    + destruct Htail as (_ & _ & _ & c & -> & _). done.
    + destruct Hplain as (_ & _ & _ & Hpar). by destruct (Hpar Hp) as (_ & ? & _).
  - intros c Hc.
    destruct (param_child_kind x c Hwf Hp Hc) as [?|(? & _)]; eauto.
Qed.

(** ** The priority of the cursor node *)

Lemma wp_frame {A} (m : M A) (P : Prop) (n : node) :
  P → wp m (λ _ _, P) n.
Proof. done. Qed.

Lemma incrementChildPrio_priority (pos : nat) (n : node) :
  wp (incrementChildPrio pos) (λ _ n', n'.(priority) = n.(priority)) n.
Proof.
  unfold incrementChildPrio. wp_steps.
  destruct (children n !! pos) as [c|]; [|done].
  destruct (moveToFront _ _ _) as [cs' newPos]. wp_steps.
  case_bool_decide; wp_steps; [|done].
  match goal with |- match ?o with _ => _ end => destruct o end; [|done].
  by wp_steps.
Qed.

Lemma insertChild_loop_priority (fuel : nat) (p fullP : gostring)
    (hs : HandlersChain) (n : node) :
  wp (insertChild_loop fuel p fullP hs)
     (λ _ n', n'.(priority) = n.(priority)) n.
Proof.
  destruct fuel as [|fuel]; [done|]. cbn [insertChild_loop].
  destruct (findWildcard p) as [[w i] v].
  destruct (i <? 0)%Z; [by wp_steps|].
  destruct (negb v); [by wp_step|].
  destruct (length w <? 2); [by wp_step|].
  wp_steps. destruct (byteAt w 0) as [w0|]; [|done].
  destruct (w0 =? ":")%char.
  - apply wp_seq with (Qmid := λ _ n1, n1.(priority) = n.(priority)).
    + destruct (0 <? i)%Z; [|by wp_steps].
      wp_steps. destruct (sliceZ p 0 i); [|done]. wp_steps.
      by destruct (sliceZ p i _).
    + intros p1 n1 Hn1. wp_step. eapply wp_addChild. intros k cs' Hk.
      cbn beta iota. wp_steps. nsimpl. rewrite Hk. by apply wp_frame.
    + done.
  - destruct (negb _); [by wp_step|]. wp_steps.
    destruct (_ && _); [by wp_step|]. wp_steps.
    destruct (byteAtZ p (i - 1)) as [b|]; [|done].
    destruct (negb _); [by wp_step|]. wp_steps.
    destruct (sliceZ p 0 (i - 1)); [|done]. wp_steps.
    eapply wp_addChild. intros k cs' Hk. cbn beta iota.
    wp_steps. nsimpl. rewrite Hk. by apply wp_frame.
Qed.

Lemma walk_priority (fuel : nat) (p fullP : gostring) (hs : HandlersChain)
    (pfi : nat) (n : node) :
  wp (walk fuel p fullP hs pfi) (λ _ n', n'.(priority) = n.(priority)) n.
Proof.
  destruct fuel as [|fuel]; [done|]. cbn [walk]. do 2 wp_step.
  apply wp_seq with (Qmid := λ _ n1, n1.(priority) = n.(priority)).
  - destruct (Nat.ltb_spec (longestCommonPrefix p (path n)) (length (path n)))
      as [Hlt|_]; [|by wp_steps].
    destruct (splitNode_run n p fullP pfi Hlt) as (b & _ & Hrun).
    cbn zeta in Hrun. unfold wp. rewrite Hrun.
    by destruct (slice fullP 0 _).
  - intros [] n1 Hn1.
    destruct (_ <? length p); [|wp_steps; case_bool_decide; by wp_steps].
    wp_steps. destruct (slice p _ _) as [p'|]; [|done]. wp_steps.
    destruct (byteAt p' 0) as [c|]; [|done]. wp_steps.
    destruct (_ && _).
    { wp_step. nsimpl. destruct (children n1 !! 0); [|done].
      by apply wp_frame. }
    destruct (indexOfByte c (indices n1) 0) as [j|].
    { apply wp_seq with (Qmid := λ _ n2, n2.(priority) = n.(priority)).
      - eapply wp_mono; [apply incrementChildPrio_priority|].
        intros r n2 H. by rewrite H.
      - intros j' n2 Hn2. wp_step. nsimpl.
        destruct (children n2 !! j'); [|done]. by apply wp_frame.
      - done. }
    destruct (_ && _).
    { wp_steps. eapply wp_addChild. intros k cs' Hk. cbn beta iota.
      do 2 wp_step.
      apply wp_seq with (Qmid := λ _ n2, n2.(priority) = n.(priority)).
      - eapply wp_mono; [apply incrementChildPrio_priority|].
        intros r n2 H. by rewrite H.
      - intros j' n2 Hn2. wp_step. nsimpl.
        match goal with |- match ?o with _ => _ end => destruct o end;
          [|done].
        by apply wp_frame.
      - done. }
    destruct (wildChild n1).
    { wp_step. nsimpl. destruct (children n1 !! _); [|done].
      by apply wp_frame. }
    unfold insertChild. eapply wp_mono; [apply insertChild_loop_priority|].
    intros r n2 H. by rewrite H.
  - done.
Qed.

(** X14. Every call of [addRoute] adds one (in uint32) to the priority of
    the root, whatever the tree and the path and however the call ends:
    normally, by a panic or by a run-time error.  A failed registration is
    counted like a successful one. *)
Theorem addRoute_priority (p : gostring) (hs : HandlersChain) (t : node) :
  (addRoute p hs t).1.(priority) = ((t.(priority) + 1) mod 2 ^ 32)%Z.
Proof.
  change (wp (addRoute p hs)
            (λ _ t', t'.(priority) = wrap32 (t.(priority) + 1)) t).
  unfold addRoute. wp_steps.
  destruct (_ && _).
  - apply wp_seq
      with (Qmid := λ _ t', t'.(priority) = wrap32 (t.(priority) + 1)).
    + unfold insertChild.
      eapply wp_mono; [apply insertChild_loop_priority|].
      by intros r n2 ->.
    + intros [] n1 Hn1. by wp_steps.
    + done.
  - eapply wp_mono; [apply walk_priority|]. by intros r n2 ->.
Qed.

(** ** The order of the children *)

(** X15. [incrementChildPrio] keeps the children ordered by priority: when
    they are in non-increasing order of priority before the call and the
    priority of the bumped child does not overflow, they are in
    non-increasing order after it. *)
Theorem incrementChildPrio_keeps_order (n : node) (pos : nat) (c : node) :
  n.(children) !! pos = Some c →
  (0 ≤ c.(priority) < 2 ^ 32 - 1)%Z →
  byPriority n.(children) →
  byPriority (incrementChildPrio pos n).1.(children).
Proof.
  intros Hc Hrange Hsorted.
  pose proof (take_drop_middle _ _ _ Hc) as Hcs. symmetry in Hcs.
  pose proof (lookup_lt_Some _ _ _ Hc) as Hlt.
  destruct (incrementChildPrio_run n _ c _ Hcs)
    as (f1 & f2 & Hfr & Hf2 & Hf1 & Hrun).
  rewrite length_take, Nat.min_l in Hrun by lia.
  assert (wrap32 (c.(priority) + 1) = (c.(priority) + 1)%Z) as Hw.
  { unfold wrap32. apply Z.mod_small. lia. }
  rewrite Hw in Hf2, Hf1.
  assert ((incrementChildPrio pos n).1.(children)
          = f1 ++ incPriority c :: f2 ++ drop (S pos) n.(children)) as ->.
  { rewrite Hrun. cbn zeta. case_bool_decide; [|done].
    by destruct (indices n !! pos). }
  unfold byPriority in *. rewrite Hcs, Hfr in Hsorted.
  rewrite <- app_assoc in Hsorted.
  apply StronglySorted_app in Hsorted as (H1x & Hs1 & Hsorted).
  apply StronglySorted_app in Hsorted as (H2x & Hs2 & Hsorted).
  apply StronglySorted_cons in Hsorted as (Hcb & Hsb).
  assert ((incPriority c).(priority) = (c.(priority) + 1)%Z) as Hp'
    by (nsimpl; done).
  apply StronglySorted_app. split_and!; [|done|].
  - intros x1 x2 Hx1 Hx2. apply elem_of_cons in Hx2 as [->|Hx2].
    + rewrite Hp'. destruct Hf1 as [->|(f1' & y & -> & Hy)].
      { by apply elem_of_nil in Hx1. }
      apply elem_of_app in Hx1 as [Hx1|Hx1];
        [|by apply list_elem_of_singleton in Hx1 as ->].
      apply StronglySorted_app in Hs1 as (Hfy & _ & _).
      specialize (Hfy x1 y Hx1 (list_elem_of_here _ _)). simpl in Hfy. lia.
    + apply H1x; [done|]. apply elem_of_app in Hx2 as [?|?].
      * apply elem_of_app. by left.
      * apply elem_of_app. right. by right.
  - apply StronglySorted_cons. split.
    + apply Forall_app. split.
      * eapply Forall_impl; [exact Hf2|]. intros y Hy. simpl in *.
        rewrite Hp'. lia.
      * eapply Forall_impl; [exact Hcb|]. intros y Hy. simpl in *.
        rewrite Hp'. lia.
    + apply StronglySorted_app. split_and!; [|done..].
      intros x1 x2 Hx1 Hx2. apply H2x; [done|by right].
Qed.

(** ** Two registrations *)

Lemma wp_walk_unfold (fuel : nat) (p fullP : gostring) (hs : HandlersChain)
    (pfi : nat) (Q : result unit → node → Prop) (n : node) :
  commonPrefix p n.(path) = length n.(path) →
  wp (if length n.(path) <? length p then
        p ← checked (slice p (length n.(path)) (length p));
        c ← checked (byteAt p 0);
        n ← getN;
        if bool_decide (n.(nType) = param) && (c =? "/")%char
           && (length n.(children) =? 1) then
          in_child 0 (
            modify incPriority;;
            walk fuel p fullP hs (pfi + length n.(path)))
        else
          match indexOfByte c n.(indices) 0 with
          | Some j =>
              j ← incrementChildPrio j;
              in_child j (walk fuel p fullP hs (pfi + length n.(path)))
          | None =>
              if negb (c =? ":")%char && negb (c =? "*")%char
                 && negb (bool_decide (n.(nType) = catchAll)) then
                modify (set_indices (n.(indices) ++ [c]));;
                k ← addChild (mkNode [] [] false static 0 [] None fullP);
                n ← getN;
                newPos ← incrementChildPrio (length n.(indices) - 1);
                in_child (indexAfterMove (length n.(indices) - 1) newPos k)
                  (insertChild p fullP hs)
              else if n.(wildChild) then
                in_child (length n.(children) - 1) (
                  modify incPriority;;
                  n ← getN;
                  if wildcardMatches n p
                  then walk fuel p fullP hs pfi
                  else wildcardConflict p fullP)
              else insertChild p fullP hs
          end
      else
        n ← getN;
        if bool_decide (n.(handlers) ≠ None) then panic (msg_duplicate fullP)
        else
          modify (set_handlers hs);;
          modify (set_fullPath fullP)) Q n →
  wp (walk (S fuel) p fullP hs pfi) Q n.
Proof.
  intros Hcp H. cbn [walk]. do 2 wp_step.
  rewrite longestCommonPrefix_eq, Hcp, Nat.ltb_irrefl. by wp_steps.
Qed.

(** X16. A second registration of the root's own pattern: on a tree that
    is not empty for [addRoute]'s test, whose root holds the whole path as
    its segment and carries an action, [addRoute] panics with "handlers are
    already registered for path" and the path; the tree is left as it was
    but for the priority of the root, which has gone up by one. *)
Theorem addRoute_duplicate_at_root (p : gostring) (hs : HandlersChain)
    (h : nat) (t : node) :
  t.(path) = p → p ≠ [] ∨ t.(children) ≠ [] → t.(handlers) = Some h →
  addRoute p hs t = (incPriority t, Fail (Panic (msg_duplicate p))).
Proof.
  intros Hp Hne Hh. unfold addRoute. apply wp_result. wp_steps.
  assert ((length (path (incPriority t)) =? 0)
          && (length (children (incPriority t)) =? 0) = false) as ->.
  { nsimpl. rewrite Hp. destruct Hne as [Hne|Hne].
    - destruct p; [done|]. done.
    - destruct (children t); [done|]. by rewrite andb_false_r. }
  destruct (walkFuel (incPriority t)) as [|fuel] eqn:Hfuel.
  { unfold walkFuel in Hfuel. lia. }
  pose proof (walk_at_target_run fuel p hs 0 (incPriority t)) as Hrun.
  nsimpl in Hrun. rewrite Hp, Hh in Hrun.
  eapply wp_eq; [exact Hrun|]. done.
Qed.

Lemma commonPrefix_app_differ (pre s1 s2 : gostring) (a b : ascii) :
  a ≠ b → commonPrefix (pre ++ a :: s1) (pre ++ b :: s2) = length pre.
Proof.
  intros Hab. induction pre as [|x pre IH]; simpl.
  - by destruct (Ascii.eqb_spec a b).
  - by rewrite Ascii.eqb_refl, IH.
Qed.

(** X17. Two registrations of wildcard-free paths that part after a
    common prefix, on the empty tree: the root is split at the prefix.  It
    ends with the prefix as segment and no action, kind root, priority 2,
    the two bytes that follow the prefix as first bytes, and two static
    leaves of priority 1 in the order of registration, each with the rest
    of its path, its action and its full path. *)
Theorem addRoute_two_static (pre s1 s2 : gostring) (a b : ascii)
    (h1 h2 : HandlersChain) :
  Forall noWild (pre ++ a :: s1) → Forall noWild (pre ++ b :: s2) → a ≠ b →
  addRoutes [(pre ++ a :: s1, h1); (pre ++ b :: s2, h2)] zeroNode
  = Some (mkNode pre [a; b] false root 2
            [mkNode (a :: s1) [] false static 1 [] h1 (pre ++ a :: s1);
             mkNode (b :: s2) [] false static 1 [] h2 (pre ++ b :: s2)]
            None pre).
Proof.
  intros Hp1 Hp2 Hab. cbn [addRoutes].
  rewrite (addRoute_empty_run _ h1 zeroNode) by done.
  nsimpl. change (wrap32 (priority zeroNode + 1)) with 1%Z.
  change (indices zeroNode) with (@nil ascii).
  change (wildChild zeroNode) with false.
  match goal with
  | |- match addRoute ?p ?hs ?t with _ => _ end = Some ?r =>
      assert (addRoute p hs t = (r, Ok tt)) as ->; [|done]
  end.
  apply wp_result. unfold addRoute. wp_steps. nsimpl.
  assert ((length (pre ++ a :: s1) =? 0) = false) as ->.
  { apply Nat.eqb_neq. rewrite length_app. simpl. lia. }
  cbn [andb].
  match goal with |- wp _ _ ?t => set (t1 := t) end.
  destruct (walkFuel t1) as [|fuel] eqn:Hfuel; [done|]. clear Hfuel.
  assert (commonPrefix (pre ++ b :: s2) (path t1) = length pre) as Hcp
    by (by apply commonPrefix_app_differ).
  assert (length pre < length (path t1)) as Hlt.
  { unfold t1. nsimpl. rewrite length_app. simpl. lia. }
  cbn [walk]. do 2 wp_step. rewrite longestCommonPrefix_eq, Hcp.
  destruct (Nat.ltb_spec (length pre) (length (path t1))); [|lia].
  apply wp_bind.
  destruct (splitNode_run t1 (pre ++ b :: s2) (pre ++ b :: s2) 0)
    as (x & Hx & Hrun).
  { by rewrite longestCommonPrefix_eq, Hcp. }
  cbn zeta in Hrun. rewrite longestCommonPrefix_eq, Hcp in Hx, Hrun.
  unfold t1 in Hx. nsimpl in Hx. rewrite list_lookup_middle in Hx by done.
  injection Hx as <-.
  rewrite slice_prefix in Hrun by (rewrite length_app; simpl; lia).
  eapply wp_eq; [exact Hrun|]. cbn beta iota.
  unfold t1. nsimpl. rewrite !take_app_length, drop_app_length.
  destruct (Nat.ltb_spec (length pre) (length (pre ++ b :: s2))) as [_|Hge].
  2:{ rewrite length_app in Hge. simpl in Hge. lia. }
  wp_steps. rewrite slice_suffix, drop_app_length
    by (rewrite length_app; simpl; lia).
  wp_steps. cbn [byteAt lookup list_lookup]. wp_steps. nsimpl.
  rewrite !bool_decide_eq_false_2 by done. cbn [andb negb].
  cbn [indexOfByte]. destruct (Ascii.eqb_spec b a) as [|_]; [congruence|].
  apply Forall_app in Hp2 as [_ Hbs].
  pose proof (proj1 (proj1 (Forall_cons _ _ _) Hbs)) as Hb.
  unfold noWild, isWildByte in Hb. apply orb_false_elim in Hb as [-> ->].
  cbn [andb negb]. wp_steps.
  eapply wp_eq; [by apply addChild_plain|]. cbn beta iota. wp_steps.
  nsimpl. cbn [app length Nat.sub].
  unfold incrementChildPrio. wp_steps. nsimpl.
  cbn [lookup list_lookup app]. wp_steps.
  change (wrap32 (wrap32 (1 + 1) - 1)) with 1%Z.
  change (wrap32 (1 + 1)) with 2%Z.
  nsimpl. change (wrap32 (0 + 1)) with 1%Z.
  cbn [moveToFront lookup list_lookup insert list_insert priority Z.ltb
       Z.compare Pos.compare Pos.compare_cont].
  wp_steps. rewrite bool_decide_eq_false_2 by (intros Hx; by apply Hx).
  wp_steps. cbn [indexAfterMove Nat.eqb]. wp_steps.
  nsimpl. cbn [lookup list_lookup].
  eapply wp_eq; [by apply insertChild_static|].
  cbn [insert list_insert]. nsimpl. split; [done|].
  by rewrite Nat.add_0_l, take_app_length.
Qed.

(** ** Wildcard conflicts *)

(** [strings.Index] finds the first occurrence: an occurrence of
    [u ++ c :: v] that follows a part without [c] is at the end of that
    part when [c] is not in [u] either. *)
Lemma strings_Index_from_first (a u : gostring) (c : ascii)
    (v b : gostring) (k : nat) :
  c ∉ a → c ∉ u →
  strings_Index_from (a ++ (u ++ c :: v) ++ b) (u ++ c :: v) k
  = Z.of_nat (k + length a).
Proof.
  intros Ha Hu. revert k. induction a as [|x a IH]; intros k;
    rewrite strings_Index_from_unfold.
  - cbn [app]. rewrite (proj2 (hasPrefix_spec _ _)) by eauto.
    simpl. f_equal. lia.
  - destruct (hasPrefix _ _) eqn:E.
    + exfalso. apply hasPrefix_spec in E as [t Ht].
      assert (((x :: a) ++ (u ++ c :: v) ++ b) !! length u = Some c) as Hl.
      { rewrite Ht, <- app_assoc. by apply list_lookup_middle. }
      rewrite <- app_assoc, app_assoc in Hl.
      rewrite lookup_app_l in Hl by (rewrite length_app; simpl; lia).
      apply list_elem_of_lookup_2 in Hl.
      apply elem_of_app in Hl as [?|?]; done.
    + cbn [app]. apply not_elem_of_cons in Ha as [_ Ha].
      rewrite IH by done. simpl. f_equal. lia.
Qed.

Lemma strings_SplitN_noslash (s : gostring) :
  Forall notSlash s → strings_SplitN_slash_2_0 s = s.
Proof.
  induction 1 as [|c s Hc _ IH]; simpl; [done|].
  destruct (Ascii.eqb_spec c "/"); [done|]. by rewrite IH.
Qed.

Lemma noWild_notin (c : ascii) (s : gostring) :
  isWildByte c = true → Forall noWild s → c ∉ s.
Proof.
  intros Hc Hs Hin. rewrite Forall_forall in Hs.
  specialize (Hs c Hin). unfold noWild in Hs. congruence.
Qed.

Lemma commonPrefix_nil_r (p : gostring) : commonPrefix p [] = 0.
Proof. by destruct p. Qed.

Lemma wp_result_snd {A} (m : M A) (n : node) (r : result A) :
  wp m (λ r0 _, r0 = r) n → m n = ((m n).1, r).
Proof. unfold wp. destruct (m n) as [n0 r0]. simpl. by intros ->. Qed.

(** X18. Two parameter names at the same place conflict, behind a prefix
    [pre] that holds neither ':' nor '*': after the registration of
    [pre ++ ':' :: name] on the empty tree, the registration of
    [pre ++ ':' :: other] with another name panics with the
    wildcard-conflict message that quotes the new token, the new path, the
    token of the tree and the path up to and including it. *)
Theorem param_name_conflict (pre name other : gostring)
    (h1 h2 : HandlersChain) :
  Forall noWild pre →
  name ≠ [] → Forall notSlash name → existsb isWildByte name = false →
  Forall notSlash other → name ≠ other →
  ∃ t t',
    addRoutes [(pre ++ ":"%char :: name, h1)] zeroNode = Some t
    ∧ addRoute (pre ++ ":"%char :: other) h2 t
      = (t', Fail (Panic (msg_wildcardConflict
                            (":"%char :: other) (pre ++ ":"%char :: other)
                            (":"%char :: name) (pre ++ ":"%char :: name)))).
Proof.
  intros Hpre Hne Hname Hv Hother Hdiff.
  assert (addRoute (pre ++ ":"%char :: name) h1 zeroNode
          = (mkNode pre [] true root 1
               [mkNode (":"%char :: name) [] false param 1 [] h1
                       (pre ++ ":"%char :: name)] None [], Ok tt)) as Hfirst.
  { unfold addRoute. apply wp_result. wp_steps. cbn [andb]. apply wp_bind.
    pose proof (insertChild_param_run pre name [] (pre ++ ":"%char :: name)
                  h1 (incPriority zeroNode) Hpre Hname Hne Hv
                  (or_introl eq_refl) (Forall_nil_2 _) eq_refl) as Hrun.
    rewrite app_nil_r in Hrun.
    eapply wp_eq; [exact Hrun|]. cbn beta iota. wp_steps.
    split; [done|]. by destruct pre. }
  eexists. eexists. cbn [addRoutes]. rewrite Hfirst. split; [done|].
  apply wp_result_snd. unfold addRoute. wp_steps. nsimpl.
  cbn [length Nat.eqb]. rewrite andb_false_r.
  match goal with |- wp _ _ ?t => set (t1 := t) end.
  destruct (walkFuel t1) as [|fuel] eqn:Hf; [done|]. clear Hf.
  apply wp_walk_unfold. { unfold t1. nsimpl. apply commonPrefix_app. }
  unfold t1. nsimpl.
  destruct (Nat.ltb_spec (length pre) (length (pre ++ ":"%char :: other)))
    as [_|Hge].
  2:{ rewrite length_app in Hge. simpl in Hge. lia. }
  wp_steps. rewrite slice_suffix, drop_app_length
    by (rewrite length_app; simpl; lia).
  wp_steps. cbn [byteAt lookup list_lookup]. wp_steps. nsimpl.
  rewrite (bool_decide_eq_false_2 (root = param)) by done.
  cbn [andb indexOfByte Ascii.eqb Bool.eqb negb length Nat.sub].
  wp_steps. nsimpl. cbn [lookup list_lookup]. wp_steps. nsimpl.
  match goal with
  | |- context [wildcardMatches ?pc ?q] =>
      assert (wildcardMatches pc q = false) as ->
  end.
  { apply not_true_iff_false. intros [Hc _]%wildcardMatches_spec.
    destruct Hc as (rest & Hrest & Hr). nsimpl in Hrest.
    injection Hrest as Hrest. destruct Hr as [->|Hr].
    - rewrite app_nil_r in Hrest. congruence.
    - destruct rest as [|r0 rest]; [done|]. simpl in Hr. simplify_eq.
      rewrite Forall_app, Forall_cons in Hother.
      by destruct Hother as (_ & ? & _). }
  unfold wildcardConflict. wp_steps. nsimpl.
  rewrite (bool_decide_eq_false_2 (param = catchAll)) by done. cbn [negb].
  rewrite (strings_SplitN_noslash (":"%char :: other))
    by (by constructor).
  pose proof (strings_Index_from_first pre [] ":"%char other [] 0) as Hi.
  cbn [app] in Hi. rewrite app_nil_r, Nat.add_0_l in Hi.
  unfold strings_Index.
  rewrite Hi; [|by apply noWild_notin|apply not_elem_of_nil].
  change 0%Z with (Z.of_nat 0).
  rewrite sliceZ_nat, slice_prefix, take_app_length
    by (rewrite length_app; simpl; lia).
  by wp_steps.
Qed.

(** X19. A catch-all pattern registered a second time is not reported as
    a duplicate: after the registration of [pre0 ++ "/*" ++ name], with
    [pre0] holding neither ':' nor '*', on the empty tree, registering the
    same pattern again panics with the wildcard-conflict message (the
    token "/*name" against itself), because the walk stops at the
    catch-all child before it can reach the node that carries the
    action. *)
Theorem catchAll_registered_twice (pre0 name : gostring)
    (h1 h2 : HandlersChain) :
  Forall noWild pre0 →
  name ≠ [] → Forall notSlash name → existsb isWildByte name = false →
  let p := pre0 ++ "/"%char :: "*"%char :: name in
  ∃ t t',
    addRoutes [(p, h1)] zeroNode = Some t
    ∧ addRoute p h2 t
      = (t', Fail (Panic (msg_wildcardConflict
                            ("/"%char :: "*"%char :: name) p
                            ("/"%char :: "*"%char :: name) p)))
    ∧ msg_wildcardConflict ("/"%char :: "*"%char :: name) p
        ("/"%char :: "*"%char :: name) p ≠ msg_duplicate p.
Proof.
  intros Hpre Hne Hname Hv p.
  assert (addRoute p h1 zeroNode
          = (mkNode pre0 ["/"%char] false root 1
               [mkNode [] [] true catchAll 1
                  [mkNode ("/"%char :: "*"%char :: name) [] false catchAll 1
                          [] h1 p]
                  None p] None [], Ok tt)) as Hfirst.
  { unfold addRoute. apply wp_result. wp_steps. cbn [andb]. apply wp_bind.
    pose proof (insertChild_catchAll_run pre0 name p h1 (incPriority zeroNode)
                  Hpre Hname Hne Hv eq_refl eq_refl) as Hrun.
    eapply wp_eq; [exact Hrun|]. cbn beta iota. by wp_steps. }
  eexists. eexists. cbn [addRoutes]. rewrite Hfirst.
  split; [done|]. split; [|done].
  apply wp_result_snd. unfold addRoute. wp_steps. nsimpl.
  cbn [length Nat.eqb]. rewrite andb_false_r.
  match goal with |- wp _ _ ?t => set (t1 := t) end.
  assert (∃ fuel, walkFuel t1 = S (S fuel)) as [fuel ->]
    by (by eexists).
  apply wp_walk_unfold. { unfold t1. nsimpl. apply commonPrefix_app. }
  unfold t1. nsimpl.
  destruct (Nat.ltb_spec (length pre0) (length p)) as [_|Hge].
  2:{ unfold p in Hge. rewrite length_app in Hge. simpl in Hge. lia. }
  wp_steps. unfold p at 1 2. rewrite slice_suffix, drop_app_length
    by (rewrite length_app; simpl; lia).
  wp_steps. cbn [byteAt lookup list_lookup]. wp_steps. nsimpl.
  rewrite (bool_decide_eq_false_2 (root = param)) by done.
  cbn [andb indexOfByte Ascii.eqb Bool.eqb negb].
  wp_step. unfold incrementChildPrio. wp_steps. nsimpl.
  cbn [lookup list_lookup moveToFront insert list_insert]. wp_steps.
  rewrite bool_decide_eq_false_2 by (intros Hx; by apply Hx).
  wp_steps. nsimpl. cbn [lookup list_lookup].
  apply wp_walk_unfold. { nsimpl. apply commonPrefix_nil_r. }
  nsimpl. cbn [length Nat.ltb Nat.leb]. wp_steps.
  change (S (S (length name)))
    with (length ("/"%char :: "*"%char :: name)).
  rewrite slice_suffix, drop_0 by (simpl; lia). wp_steps.
  cbn [byteAt lookup list_lookup]. wp_steps. nsimpl.
  rewrite (bool_decide_eq_false_2 (catchAll = param)) by done.
  cbn [andb indexOfByte Ascii.eqb Bool.eqb negb].
  rewrite (bool_decide_eq_true_2 (catchAll = catchAll)) by done.
  cbn [andb negb length Nat.sub]. wp_steps. nsimpl.
  cbn [lookup list_lookup]. wp_steps. nsimpl.
  match goal with
  | |- context [wildcardMatches ?pc ?q] =>
      assert (wildcardMatches pc q = false) as ->
  end.
  { apply not_true_iff_false. by intros [_ Hc]%wildcardMatches_spec. }
  unfold wildcardConflict. wp_steps. nsimpl.
  rewrite (bool_decide_eq_true_2 (catchAll = catchAll)) by done. cbn [negb].
  pose proof (strings_Index_from_first pre0 ["/"%char] "*"%char name [] 0)
    as Hi.
  cbn [app] in Hi. rewrite app_nil_r, Nat.add_0_l in Hi.
  unfold strings_Index, p at 1 2.
  rewrite Hi; [|by apply noWild_notin|].
  2:{ by intros ?%list_elem_of_singleton. }
  change 0%Z with (Z.of_nat 0).
  rewrite sliceZ_nat, slice_prefix, take_app_length
    by (rewrite length_app; simpl; lia).
  by wp_steps.
Qed.

(** ** Routes of wildcard-free trees *)

Lemma staticTree_inv n :
  staticTree n →
  n.(wildChild) = false ∧ (n.(nType) = static ∨ n.(nType) = root)
  ∧ Forall staticTree n.(children).
Proof. by inversion 1. Qed.

Lemma findStatic_unfold n p :
  findStatic n p
  = let i := commonPrefix p n.(path) in
    if i <? length n.(path) then None
    else
      match drop i p with
      | [] => Some n.(handlers)
      | c :: _ =>
          match indexOfByte c n.(indices) 0 with
          | Some k =>
              match n.(children) !! k with
              | Some ch => findStatic ch (drop i p)
              | None => None
              end
          | None => None
          end
      end.
Proof.
  destruct n as [pa idx w ty pr cs h fp]. cbn [findStatic path indices
    children handlers]. cbn zeta.
  destruct (_ <? _); [done|]. destruct (drop _ p) as [|c r] eqn:Hd; [done|].
  destruct (indexOfByte c idx 0) as [k|]; [|done].
  revert k. induction cs as [|c0 cs IH]; intros [|k]; done.
Qed.

Lemma findStatic_app n rest :
  findStatic n (n.(path) ++ rest)
  = match rest with
    | [] => Some n.(handlers)
    | c :: _ =>
        match indexOfByte c n.(indices) 0 with
        | Some k =>
            match n.(children) !! k with
            | Some ch => findStatic ch rest
            | None => None
            end
        | None => None
        end
    end.
Proof.
  rewrite findStatic_unfold. cbn zeta.
  rewrite commonPrefix_app, Nat.ltb_irrefl, drop_app_length. done.
Qed.

Lemma findStatic_Some_prefix n p x :
  findStatic n p = Some x → ∃ rest, p = n.(path) ++ rest.
Proof.
  rewrite findStatic_unfold. cbn zeta.
  destruct (Nat.ltb_spec (commonPrefix p (path n)) (length (path n)))
    as [|Hge]; [done|].
  intros _. exists (drop (length n.(path)) p).
  pose proof (commonPrefix_le_r p n.(path)).
  apply commonPrefix_full. lia.
Qed.

Lemma findStatic_here n : findStatic n n.(path) = Some n.(handlers).
Proof.
  pose proof (findStatic_app n []) as E. by rewrite app_nil_r in E.
Qed.

Lemma findStatic_fields n m p :
  n.(path) = m.(path) → n.(indices) = m.(indices) →
  n.(children) = m.(children) → n.(handlers) = m.(handlers) →
  findStatic n p = findStatic m p.
Proof.
  intros Hp Hi Hc Hh. rewrite !findStatic_unfold. cbn zeta.
  by rewrite Hp, Hi, Hc, Hh.
Qed.

Lemma keepsRoutes_refl n : keepsRoutes n n.
Proof. by intros q h. Qed.

Lemma keepsRoutes_trans n1 n2 n3 :
  keepsRoutes n1 n2 → keepsRoutes n2 n3 → keepsRoutes n1 n3.
Proof. intros H1 H2 q h Hq. by apply H2, H1. Qed.

(** The routes survive when the pairs of first byte and child are kept,
    in any order, each child keeping its routes. *)
Lemma keepsRoutes_pairs n n' :
  n'.(path) = n.(path) →
  (∀ h, n.(handlers) = Some h → n'.(handlers) = Some h) →
  NoDup n'.(indices) →
  (∀ b c, (b, c) ∈ zip n.(indices) n.(children) →
     ∃ c', (b, c') ∈ zip n'.(indices) n'.(children) ∧ keepsRoutes c c') →
  keepsRoutes n n'.
Proof.
  intros Hp Hh Hnd Hpairs q h Hq.
  destruct (findStatic_Some_prefix _ _ _ Hq) as [rest ->].
  rewrite findStatic_app in Hq. rewrite <- Hp, findStatic_app.
  destruct rest as [|b rest]; [f_equal; apply Hh; by simplify_eq|].
  destruct (indexOfByte b (indices n) 0) as [k|] eqn:Hk; [|done].
  destruct (children n !! k) as [c|] eqn:Hc; [|done].
  apply indexOfByte_Some in Hk as (_ & Hk & _). rewrite Nat.sub_0_r in Hk.
  destruct (Hpairs b c) as (c' & Hin & Hkeep).
  { apply elem_of_lookup_zip_with. by exists k, b, c. }
  apply elem_of_lookup_zip_with in Hin as (k' & b' & c'' & [= <- <-] & Hb & Hc').
  rewrite (indexOfByte_NoDup b _ k') by done. rewrite Hc'. by apply Hkeep.
Qed.

Lemma zip_elem_of_app {A B} (l1 l2 : list A) (k1 k2 : list B) (x : A * B) :
  length l1 = length k1 →
  x ∈ zip (l1 ++ l2) (k1 ++ k2) ↔ x ∈ zip l1 k1 ∨ x ∈ zip l2 k2.
Proof.
  intros Hl. by rewrite (zip_with_app pair l1 l2 k1 k2), elem_of_app.
Qed.

(** Moving one pair of first byte and child to the front part, as
    [incrementChildPrio] does. *)
Lemma keepsRoutes_reorder n n' (if1 if2 iback : gostring) (b : ascii)
    (f1 f2 back tail : list node) (cj cj' : node) :
  n.(indices) = if1 ++ if2 ++ b :: iback →
  n.(children) = (f1 ++ f2 ++ cj :: back) ++ tail →
  n'.(indices) = if1 ++ b :: if2 ++ iback →
  n'.(children) = f1 ++ cj' :: f2 ++ back ++ tail →
  length if1 = length f1 → length if2 = length f2 →
  n'.(path) = n.(path) →
  (∀ h, n.(handlers) = Some h → n'.(handlers) = Some h) →
  NoDup n.(indices) →
  keepsRoutes cj cj' →
  keepsRoutes n n'.
Proof.
  intros Hi Hc Hi' Hc' Hl1 Hl2 Hp Hh Hnd Hkeep.
  apply keepsRoutes_pairs; try done.
  { rewrite Hi'. rewrite Hi in Hnd.
    by rewrite <- (Permutation_middle if2 iback b) in Hnd. }
  assert (∀ x c,
            (x, c) ∈ zip n'.(indices) n'.(children)
            ↔ (x, c) ∈ zip if1 f1 ∨ (x, c) = (b, cj')
              ∨ (x, c) ∈ zip if2 f2 ∨ (x, c) ∈ zip iback (back ++ tail))
    as Hz'.
  { intros x c. rewrite Hi', Hc'.
    rewrite zip_elem_of_app by done. cbn [zip_with].
    by rewrite elem_of_cons, zip_elem_of_app by done. }
  intros x c. rewrite Hi, Hc. rewrite <- !app_assoc. cbn [app].
  rewrite !zip_elem_of_app by done. cbn [zip_with].
  rewrite elem_of_cons.
  intros [?|[?|[[= -> ->]|?]]].
  - exists c. rewrite Hz'. split; [by left|apply keepsRoutes_refl].
  - exists c. rewrite Hz'. split; [right; right; by left|apply keepsRoutes_refl].
  - exists cj'. rewrite Hz'. split; [right; by left|done].
  - exists c. rewrite Hz'. split; [right; right; by right|apply keepsRoutes_refl].
Qed.

Lemma height_pos n : 0 < height n.
Proof. destruct n. simpl. lia. Qed.

Lemma staticTree_incPriority n : staticTree n → staticTree (incPriority n).
Proof. intros (? & ? & ?)%staticTree_inv. by constructor. Qed.

(** The walk along a route that carries an action ends with the duplicate
    panic, and the routes of the tree survive it. *)
Lemma walk_static_duplicate (fullP : gostring) (hs : HandlersChain)
    (fuel : nat) (n : node) (p : gostring) (pfi : nat) (h : nat) :
  wf n → staticTree n → findStatic n p = Some (Some h) →
  height n ≤ fuel →
  wp (walk fuel p fullP hs pfi)
     (λ r n', r = Fail (Panic (msg_duplicate fullP)) ∧ keepsRoutes n n') n.
Proof.
  revert n p pfi.
  induction fuel as [|fuel IH]; intros n p pfi Hwf Hst Hfind Hfuel.
  { pose proof (height_pos n). lia. }
  destruct (findStatic_Some_prefix _ _ _ Hfind) as [rest ->].
  rewrite findStatic_app in Hfind.
  apply wp_walk_unfold; [apply commonPrefix_app|].
  destruct (staticTree_inv _ Hst) as (Hw & Hty & Hcs).
  destruct rest as [|c rest].
  - rewrite app_nil_r, Nat.ltb_irrefl. wp_steps.
    injection Hfind as Hfind. rewrite Hfind.
    rewrite bool_decide_eq_true_2 by done. wp_steps.
    split; [done|apply keepsRoutes_refl].
  - destruct (Nat.ltb_spec (length (path n)) (length (path n ++ c :: rest)))
      as [_|Hge].
    2:{ rewrite length_app in Hge. simpl in Hge. lia. }
    wp_steps. rewrite slice_suffix, drop_app_length
      by (rewrite length_app; simpl; lia).
    wp_steps. cbn [byteAt lookup list_lookup]. wp_steps.
    rewrite (bool_decide_eq_false_2 (nType n = param))
      by (destruct Hty as [-> | ->]; done).
    cbn [andb].
    destruct (indexOfByte c (indices n) 0) as [j|] eqn:Hidx; [|done].
    destruct (children n !! j) as [cj0|] eqn:Hcj0; [|done].
    apply indexOfByte_Some in Hidx as (_ & Hj & _).
    rewrite Nat.sub_0_r in Hj.
    assert (isPlain n) as Hplain
      by (apply plain_of_wf; [done|destruct Hty as [-> | ->]; done..]).
    destruct Hplain
      as (Hnc & Hnd & (indexed & wildPart & Hch & Hall & Hwp) & _).
    rewrite Hw in Hwp. subst wildPart.
    destruct (incrementChildPrio_indexed n indexed [] j c Hch
                (Forall2_length _ _ _ Hall) Hj)
      as (f1 & f2 & cj & back & if1 & if2 & iback & n2 & Hindexed
          & Hindices & Hl1 & Hl2 & Hlj & Hrun & Hch2 & Hi2 & Hp2 & Ht2
          & Hw2 & _ & Hh2 & _).
    assert (cj0 = cj) as ->.
    { rewrite Hch, Hindexed, app_nil_r, app_assoc in Hcj0.
      rewrite <- Hlj, list_lookup_middle in Hcj0 by done. by simplify_eq. }
    assert (cj ∈ children n) as Hin by (by eapply list_elem_of_lookup_2).
    wp_step. eapply wp_eq; [exact Hrun|]. cbn beta iota.
    wp_step. rewrite Hch2, list_lookup_middle by done.
    apply wf_inv in Hwf as [_ Hwfc]. rewrite Forall_forall in Hwfc, Hcs.
    eapply wp_mono.
    { apply (IH (incPriority cj) (c :: rest) (pfi + length (path n))).
      - apply wf_incPriority. by apply Hwfc.
      - apply staticTree_incPriority. by apply Hcs.
      - by rewrite (findStatic_fields (incPriority cj) cj).
      - rewrite (height_fields (incPriority cj) cj) by done.
        pose proof (height_child cj n Hin). lia. }
    cbn beta. intros r cj' [-> Hkeep]. split; [done|].
    rewrite insert_app_r_alt, Nat.sub_diag by lia.
    cbn [insert list_insert].
    apply (keepsRoutes_reorder n _ if1 if2 iback c f1 f2 back [] cj cj'
             Hindices).
    + by rewrite Hch, Hindexed.
    + done.
    + done.
    + done.
    + done.
    + done.
    + nsimpl. intros. congruence.
    + done.
    + intros q hq Hq. apply Hkeep.
      by rewrite (findStatic_fields (incPriority cj) cj).
Qed.

(** Putting a new pair of first byte and child between the others. *)
Lemma keepsRoutes_insert n n' (if1 if2 : gostring) (b : ascii)
    (f1 f2 tail : list node) (x : node) :
  n.(indices) = if1 ++ if2 →
  n.(children) = (f1 ++ f2) ++ tail →
  n'.(indices) = if1 ++ b :: if2 →
  n'.(children) = f1 ++ x :: f2 ++ tail →
  length if1 = length f1 → length if2 = length f2 →
  n'.(path) = n.(path) →
  (∀ h, n.(handlers) = Some h → n'.(handlers) = Some h) →
  NoDup n'.(indices) →
  keepsRoutes n n'.
Proof.
  intros Hi Hc Hi' Hc' Hl1 Hl2 Hp Hh Hnd.
  apply keepsRoutes_pairs; try done.
  intros y c. rewrite Hi, Hc, Hi', Hc'. rewrite <- app_assoc.
  rewrite !zip_elem_of_app by done. intros Hin.
  exists c. split; [|apply keepsRoutes_refl].
  rewrite zip_elem_of_app by done. cbn [zip_with]. rewrite elem_of_cons.
  destruct Hin as [?|?]; [by left|right; by right].
Qed.

(** Splitting a node keeps its routes. *)
Lemma keepsRoutes_split n n1 child (i : nat) (b : ascii) :
  n.(path) !! i = Some b →
  n1.(path) = take i n.(path) → n1.(indices) = [b] →
  n1.(children) = [child] →
  child.(path) = drop i n.(path) → child.(indices) = n.(indices) →
  child.(children) = n.(children) → child.(handlers) = n.(handlers) →
  keepsRoutes n n1.
Proof.
  intros Hb Hp1 Hi1 Hc1 Hpc Hic Hcc Hhc q h Hq.
  destruct (findStatic_Some_prefix _ _ _ Hq) as [rest ->].
  rewrite findStatic_app in Hq.
  rewrite <- (take_drop i (path n)), <- app_assoc, <- Hp1.
  rewrite findStatic_app, (drop_S _ _ _ Hb). cbn [app].
  rewrite Hi1. cbn [indexOfByte]. rewrite Ascii.eqb_refl, Hc1.
  cbn [lookup list_lookup].
  change (b :: drop (S i) (path n) ++ rest)
    with ((b :: drop (S i) (path n)) ++ rest).
  rewrite <- (drop_S _ _ _ Hb), <- Hpc, findStatic_app.
  by rewrite Hic, Hcc, Hhc.
Qed.

(** The routes of a split node are those of the node it was made of. *)
Lemma keepsRoutes_unsplit n n1 child (i : nat) (b : ascii) :
  n.(path) !! i = Some b →
  n1.(path) = take i n.(path) → n1.(indices) = [b] →
  n1.(children) = [child] → n1.(handlers) = None →
  child.(path) = drop i n.(path) → child.(indices) = n.(indices) →
  child.(children) = n.(children) → child.(handlers) = n.(handlers) →
  keepsRoutes n1 n.
Proof.
  intros Hb Hp1 Hi1 Hc1 Hh1 Hpc Hic Hcc Hhc q h Hq.
  destruct (findStatic_Some_prefix _ _ _ Hq) as [rest ->].
  rewrite findStatic_app in Hq.
  destruct rest as [|c rest]; [by rewrite Hh1 in Hq|].
  rewrite Hi1 in Hq. cbn [indexOfByte] in Hq.
  destruct (Ascii.eqb_spec c b) as [->|]; [|done].
  rewrite Hc1 in Hq. cbn [lookup list_lookup] in Hq.
  destruct (findStatic_Some_prefix _ _ _ Hq) as [rest' Hr].
  rewrite Hr in Hq |- *. rewrite findStatic_app in Hq.
  rewrite Hp1, Hpc, app_assoc, take_drop, findStatic_app.
  by rewrite <- Hic, <- Hcc, <- Hhc.
Qed.

Lemma onlyRoutes_refl p hs n : onlyRoutes p hs n n.
Proof. intros q h Hq. by left. Qed.

Lemma onlyRoutes_keeps p hs n n1 n' :
  keepsRoutes n1 n → onlyRoutes p hs n1 n' → onlyRoutes p hs n n'.
Proof.
  intros Hk Ho q h Hq.
  destruct (Ho q h Hq) as [?|?]; [left; by apply Hk|by right].
Qed.

(** No route is added but [p] when every pair of first byte and child of
    the new node holds the routes of a pair of the old one only. *)
Lemma onlyRoutes_pairs p hs n n' :
  n'.(path) = n.(path) →
  (∀ h, n'.(handlers) = Some h →
        n.(handlers) = Some h ∨ (n.(path) = p ∧ hs = Some h)) →
  NoDup n.(indices) →
  (∀ b c' rest h,
     (b, c') ∈ zip n'.(indices) n'.(children) →
     findStatic c' (b :: rest) = Some (Some h) →
     (∃ c, (b, c) ∈ zip n.(indices) n.(children)
           ∧ findStatic c (b :: rest) = Some (Some h))
     ∨ (n.(path) ++ b :: rest = p ∧ hs = Some h)) →
  onlyRoutes p hs n n'.
Proof.
  intros Hp Hh Hnd Hpairs q h Hq.
  destruct (findStatic_Some_prefix _ _ _ Hq) as [rest ->].
  rewrite findStatic_app in Hq. rewrite Hp, findStatic_app.
  destruct rest as [|b rest].
  - injection Hq as Hq. rewrite app_nil_r.
    destruct (Hh h Hq) as [->|[? ?]]; [by left|by right].
  - destruct (indexOfByte b (indices n') 0) as [k|] eqn:Hk; [|done].
    destruct (children n' !! k) as [c'|] eqn:Hc; [|done].
    apply indexOfByte_Some in Hk as (_ & Hk & _). rewrite Nat.sub_0_r in Hk.
    destruct (Hpairs b c' rest h) as [(c & Hin & Hfc)|[? ?]].
    + apply elem_of_lookup_zip_with. by exists k, b, c'.
    + done.
    + left.
      apply elem_of_lookup_zip_with in Hin
        as (k' & b' & c'' & [= <- <-] & Hb & Hc').
      by rewrite (indexOfByte_NoDup b _ k'), Hc'.
    + by right.
Qed.

Lemma onlyRoutes_reorder p hs n n' (if1 if2 iback : gostring) (b : ascii)
    (f1 f2 back tail : list node) (cj cj' : node) (rest0 : gostring) :
  n.(indices) = if1 ++ if2 ++ b :: iback →
  n.(children) = (f1 ++ f2 ++ cj :: back) ++ tail →
  n'.(indices) = if1 ++ b :: if2 ++ iback →
  n'.(children) = f1 ++ cj' :: f2 ++ back ++ tail →
  length if1 = length f1 → length if2 = length f2 →
  n'.(path) = n.(path) → n'.(handlers) = n.(handlers) →
  NoDup n.(indices) →
  p = n.(path) ++ rest0 →
  onlyRoutes rest0 hs cj cj' →
  onlyRoutes p hs n n'.
Proof.
  intros Hi Hc Hi' Hc' Hl1 Hl2 Hp Hh Hnd Hpp Honly.
  apply onlyRoutes_pairs; try done.
  { intros h. rewrite Hh. by left. }
  assert (∀ x c,
            (x, c) ∈ zip n.(indices) n.(children)
            ↔ (x, c) ∈ zip if1 f1 ∨ (x, c) ∈ zip if2 f2 ∨ (x, c) = (b, cj)
              ∨ (x, c) ∈ zip iback (back ++ tail))
    as Hz.
  { intros x c. rewrite Hi, Hc. rewrite <- !app_assoc. cbn [app].
    rewrite !zip_elem_of_app by done. cbn [zip_with].
    by rewrite elem_of_cons. }
  intros x c' rest h. rewrite Hi', Hc'.
  rewrite zip_elem_of_app by done. cbn [zip_with].
  rewrite elem_of_cons, zip_elem_of_app by done.
  intros [?|[[= -> ->]|[?|?]]] Hf.
  - left. exists c'. rewrite Hz. split; [by left|done].
  - destruct (Honly _ _ Hf) as [?|[<- ->]].
    + left. exists cj. rewrite Hz. split; [right; right; by left|done].
    + right. by rewrite Hpp.
  - left. exists c'. rewrite Hz. split; [right; by left|done].
  - left. exists c'. rewrite Hz. split; [right; right; by right|done].
Qed.

Lemma onlyRoutes_insert p hs n n' (if1 if2 : gostring) (b : ascii)
    (f1 f2 tail : list node) (x : node) (rest0 : gostring) :
  n.(indices) = if1 ++ if2 →
  n.(children) = (f1 ++ f2) ++ tail →
  n'.(indices) = if1 ++ b :: if2 →
  n'.(children) = f1 ++ x :: f2 ++ tail →
  length if1 = length f1 → length if2 = length f2 →
  n'.(path) = n.(path) → n'.(handlers) = n.(handlers) →
  NoDup n.(indices) →
  p = n.(path) ++ rest0 →
  (∀ q h, findStatic x q = Some (Some h) → q = rest0 ∧ hs = Some h) →
  onlyRoutes p hs n n'.
Proof.
  intros Hi Hc Hi' Hc' Hl1 Hl2 Hp Hh Hnd Hpp Hx.
  apply onlyRoutes_pairs; try done.
  { intros h. rewrite Hh. by left. }
  intros y c' rest h. rewrite Hi', Hc'.
  rewrite zip_elem_of_app by done. cbn [zip_with].
  rewrite elem_of_cons. rewrite Hi, Hc, <- app_assoc.
  intros [?|[[= -> ->]|?]] Hf.
  - left. exists c'. rewrite !zip_elem_of_app by done. split; [by left|done].
  - destruct (Hx _ _ Hf) as [<- ->]. right. by rewrite Hpp.
  - left. exists c'. rewrite !zip_elem_of_app by done.
    split; [by right|done].
Qed.

(** A node without children holds one route, its own segment. *)
Lemma findStatic_leaf x q hx :
  x.(children) = [] → findStatic x q = Some hx →
  q = x.(path) ∧ hx = x.(handlers).
Proof.
  intros Hc Hq. destruct (findStatic_Some_prefix _ _ _ Hq) as [rest ->].
  rewrite findStatic_app in Hq. destruct rest as [|c rest].
  - rewrite app_nil_r. by injection Hq as <-.
  - rewrite Hc in Hq. by destruct (indexOfByte c (indices x) 0).
Qed.

Lemma findStatic_child n (w : gostring) (c : ascii) (rest : gostring)
    (k : nat) (ch : node) :
  n.(path) = w → NoDup n.(indices) →
  n.(indices) !! k = Some c → n.(children) !! k = Some ch →
  findStatic n (w ++ c :: rest) = findStatic ch (c :: rest).
Proof.
  intros <- Hnd Hk Hc. rewrite findStatic_app.
  by rewrite (indexOfByte_NoDup c _ k), Hc.
Qed.

Section walk_static.
Variables (fullP : gostring) (hs : HandlersChain) (fuel : nat).
Hypothesis IH : ∀ p pfi n,
  wf n → staticTree n → Forall noWild p →
  height n ≤ fuel → pfi + length p ≤ length fullP →
  wp (walk fuel p fullP hs pfi) (staticWalkPost hs p n) n.

Lemma walk_static_step (p : gostring) (pfi : nat) (n0 : node) :
  wf n0 → staticTree n0 → Forall noWild p →
  height n0 ≤ S fuel → pfi + length p ≤ length fullP →
  wp (walk (S fuel) p fullP hs pfi) (staticWalkPost hs p n0) n0.
Proof.
  intros Hwf Hst Hp Hfuel Hpfi. cbn [walk]. do 2 wp_step.
  destruct (staticTree_inv _ Hst) as (Hw & Hty & Hcs).
  assert (isPlain n0) as Hplain
    by (apply plain_of_wf; [done|destruct Hty as [-> | ->]; done..]).
  destruct Hplain as (_ & Hnd & (indexed & wildPart & Hch & Hall & Hwp) & _).
  rewrite Hw in Hwp. subst wildPart. rewrite app_nil_r in Hch. subst indexed.
  pose proof (Forall2_length _ _ _ Hall) as Hlen.
  pose proof (proj2 (wf_inv _ Hwf)) as Hwfc.
  apply wp_seq with
    (Qmid := λ r n1,
       match r with
       | Ok _ =>
           n1.(wildChild) = false
           ∧ (n1.(nType) = static ∨ n1.(nType) = root)
           ∧ Forall staticTree n1.(children)
           ∧ Forall wf n1.(children)
           ∧ NoDup n1.(indices)
           ∧ length n1.(indices) = length n1.(children)
           ∧ commonPrefix p n0.(path) = length n1.(path)
           ∧ take (length n1.(path)) p = n1.(path)
           ∧ keepsRoutes n0 n1 ∧ keepsRoutes n1 n0
           ∧ (n1 = n0
              ∨ n1.(handlers) = None
                ∧ ∀ c, p !! length n1.(path) = Some c → c ∉ n1.(indices))
       | Fail _ => False
       end).
  { rewrite longestCommonPrefix_eq.
    destruct (Nat.ltb_spec (commonPrefix p n0.(path)) (length n0.(path)))
      as [Hlt|Hge].
    - rewrite <- longestCommonPrefix_eq in Hlt.
      destruct (splitNode_run n0 p fullP pfi Hlt) as (b & Hb & Hrun).
      cbn zeta in Hrun. rewrite longestCommonPrefix_eq in *.
      assert (take (commonPrefix p (path n0)) (path n0)
              = take (commonPrefix p (path n0)) p) as Htake
        by (symmetry; apply commonPrefix_take).
      assert (length (take (commonPrefix p (path n0)) (path n0))
              = commonPrefix p (path n0)) as Hlt'
        by (rewrite length_take; lia).
      pose proof (commonPrefix_le_l p n0.(path)) as Hle.
      rewrite slice_prefix in Hrun by lia.
      eapply wp_eq; [exact Hrun|].
      nsimpl. split_and!.
      + done.
      + done.
      + apply Forall_singleton. constructor; nsimpl; [done|by left|done].
      + apply Forall_singleton. constructor; nsimpl; [|done].
        right; right; right. split_and!; nsimpl; try done.
        exists n0.(children), []. by rewrite app_nil_r, Hw.
      + apply NoDup_singleton.
      + done.
      + by rewrite Hlt'.
      + by rewrite Hlt'.
      + by eapply (keepsRoutes_split n0 _ _ (commonPrefix p (path n0)) b).
      + by eapply (keepsRoutes_unsplit n0 _ _ (commonPrefix p (path n0)) b).
      + right. split; [done|]. rewrite Hlt'.
        intros c Hc ->%list_elem_of_singleton.
        by eapply commonPrefix_differ.
    - wp_steps.
      pose proof (commonPrefix_le_r p n0.(path)).
      assert (commonPrefix p (path n0) = length (path n0)) as E by lia.
      split_and!; try done.
      + rewrite <- E. rewrite commonPrefix_take. by rewrite E, firstn_all.
      + apply keepsRoutes_refl.
      + apply keepsRoutes_refl.
      + by left. }
  2:{ done. }
  intros [] n (Hw1 & Hty1 & Hcs1 & Hwfc1 & Hnd1 & Hlen1 & Hi & Hprefix
               & Hk1 & Hk1' & Hsplit).
  rewrite longestCommonPrefix_eq, Hi.
  apply wp_mono
    with (Q := λ r n',
            match r with
            | Ok _ => staticTree n' ∧ findStatic n' p = Some hs
                      ∧ keepsRoutes n n' ∧ onlyRoutes p hs n n'
            | Fail _ => n = n0 ∧ ∃ h, findStatic n p = Some (Some h)
            end).
  2:{ intros [[]|e] n'; unfold staticWalkPost.
      - intros (? & ? & ? & ?). split_and!; try done.
        + by eapply keepsRoutes_trans.
        + by eapply onlyRoutes_keeps.
      - by intros [-> ?]. }
  assert (n = n0 ∧ height n ≤ S fuel
          ∨ n.(handlers) = None
            ∧ ∀ c, p !! length n.(path) = Some c → c ∉ n.(indices))
    as Hsplit'.
  { destruct Hsplit as [->|?]; [by left|by right]. }
  clear Hwf Hst Hw Hty Hcs Hnd Hall Hlen Hwfc Hi Hk1 Hk1' Hsplit Hfuel.
  assert (p = n.(path) ++ drop (length n.(path)) p) as Hpp.
  { rewrite <- Hprefix at 1. by rewrite take_drop. }
  assert (n.(nType) ≠ param ∧ n.(nType) ≠ catchAll) as [Hnp Hnc]
    by (destruct Hty1 as [-> | ->]; done).
  destruct (Nat.ltb_spec (length n.(path)) (length p)) as [Hlt|Hge].
  - wp_steps. rewrite slice_suffix by lia. wp_steps.
    destruct (drop (length n.(path)) p) as [|c p''] eqn:Hp'.
    { exfalso. rewrite Hpp, length_app in Hlt. simpl in Hlt. lia. }
    cbn [byteAt lookup list_lookup]. wp_steps.
    rewrite (bool_decide_eq_false_2 (nType n = param)) by done.
    cbn [andb].
    assert (Forall noWild (c :: p'')) as Hp''.
    { rewrite Hpp in Hp. by apply Forall_app in Hp as [_ ?]. }
    assert (p !! length (path n) = Some c) as Hpc.
    { rewrite Hpp. by rewrite list_lookup_middle. }
    destruct (indexOfByte c (indices n) 0) as [j|] eqn:Hidx.
    + (* a child with the next path byte exists *)
      apply indexOfByte_Some in Hidx as (_ & Hj & _).
      rewrite Nat.sub_0_r in Hj.
      destruct Hsplit' as [[Hn0 Hfuel]|[_ Hfresh]].
      2:{ exfalso. apply (Hfresh c Hpc). by eapply list_elem_of_lookup_2. }
      destruct (incrementChildPrio_indexed n (children n) [] j c
                  (eq_sym (app_nil_r _)) Hlen1 Hj)
        as (f1 & f2 & cj & back & if1 & if2 & iback & n2 & Hindexed
            & Hindices & Hl1 & Hl2 & Hlj & Hrun & Hch2 & Hi2 & Hp2 & Ht2
            & Hw2 & _ & Hh2 & _).
      wp_step. eapply wp_eq; [exact Hrun|]. cbn beta iota.
      wp_step. rewrite Hch2, list_lookup_middle by done.
      assert (children n !! j = Some cj) as Hcj.
      { rewrite Hindexed, app_assoc, <- Hlj. by apply list_lookup_middle. }
      assert (height cj ≤ fuel) as Hhj.
      { pose proof (height_child cj n (list_elem_of_lookup_2 _ _ _ Hcj)).
        lia. }
      rewrite Hindexed in Hcs1, Hwfc1.
      rewrite !Forall_app, Forall_cons in Hcs1, Hwfc1.
      destruct Hcs1 as (Hs1 & Hs2 & Hsj & Hsb).
      destruct Hwfc1 as (Hwf1 & Hwf2 & Hwfj & Hwfb).
      eapply wp_mono.
      { apply (IH (c :: p'') (pfi + length (path n)) (incPriority cj)).
        - by apply wf_incPriority.
        - by apply staticTree_incPriority.
        - done.
        - by rewrite (height_fields (incPriority cj) cj).
        - rewrite Hpp, length_app in Hpfi. lia. }
      assert (NoDup (indices n2)) as Hnd2.
      { rewrite Hi2. rewrite Hindices in Hnd1.
        by rewrite <- (Permutation_middle if2 iback c) in Hnd1. }
      intros [[]|e] cj' HW; unfold staticWalkPost in HW.
      * destruct HW as (Hstj & Hfj & Hkj & Hoj).
        rewrite insert_app_r_alt, Nat.sub_diag by lia.
        cbn [insert list_insert]. rewrite app_nil_r.
        split_and!.
        -- constructor; nsimpl; [congruence|by rewrite Ht2|].
           rewrite Forall_app, Forall_cons, Forall_app. done.
        -- rewrite Hpp.
           rewrite (findStatic_child _ (path n) c p'' (length f1) cj');
             nsimpl; try done.
           ++ rewrite Hi2, <- Hl1. by apply list_lookup_middle.
           ++ by apply list_lookup_middle.
        -- apply (keepsRoutes_reorder n _ if1 if2 iback c f1 f2 back [] cj
                    cj' Hindices).
           ++ by rewrite Hindexed, app_nil_r.
           ++ done.
           ++ nsimpl. by rewrite app_nil_r.
           ++ done.
           ++ done.
           ++ done.
           ++ nsimpl. intros. congruence.
           ++ done.
           ++ intros q hq Hq. apply Hkj.
              by rewrite (findStatic_fields (incPriority cj) cj).
        -- apply (onlyRoutes_reorder p hs n _ if1 if2 iback c f1 f2 back []
                    cj cj' (c :: p'') Hindices).
           ++ by rewrite Hindexed, app_nil_r.
           ++ done.
           ++ nsimpl. by rewrite app_nil_r.
           ++ done.
           ++ done.
           ++ done.
           ++ done.
           ++ done.
           ++ done.
           ++ intros q hq Hq. destruct (Hoj q hq Hq) as [Hq'|?]; [|by right].
              left. by rewrite (findStatic_fields (incPriority cj) cj) in Hq'.
      * destruct HW as [h Hh].
        rewrite (findStatic_fields (incPriority cj) cj) in Hh by done.
        split; [done|]. exists h. rewrite Hpp.
        by rewrite (findStatic_child n (path n) c p'' j cj).
    + (* a new static child *)
      pose proof (proj1 (proj1 (Forall_cons _ _ _) Hp'')) as Hc.
      unfold noWild, isWildByte in Hc. apply orb_false_elim in Hc as [-> ->].
      rewrite (bool_decide_eq_false_2 (nType n = catchAll)) by done.
      cbn [andb negb]. apply indexOfByte_None in Hidx.
      wp_steps.
      eapply wp_eq; [by apply addChild_plain|].
      cbn beta iota. wp_steps. nsimpl.
      replace (length (indices n ++ [c]) - 1) with (length (children n))
        by (rewrite length_app; simpl; lia).
      match goal with
      | |- wp _ _ ?n1 =>
          destruct (incrementChildPrio_indexed n1 (children n ++ [mkNode [] []
                      false static 0 [] None fullP]) []
                      (length (children n)) c)
            as (f1 & f2 & cj & back & if1 & if2 & iback & n2 & Hindexed
                & Hindices & Hl1 & Hl2 & Hlj & Hrun & Hch2 & Hi2 & Hp2 & Ht2
                & Hw2 & _ & Hh2 & _)
      end.
      { nsimpl. by rewrite app_nil_r. }
      { nsimpl. rewrite !length_app. simpl. lia. }
      { nsimpl. rewrite lookup_app_r by lia.
        by replace (length (children n) - length (indices n)) with 0 by lia. }
      nsimpl in Hindices. nsimpl in Hp2. nsimpl in Ht2. nsimpl in Hw2.
      nsimpl in Hh2.
      rewrite app_assoc in Hindexed, Hindices.
      apply app_inj_1 in Hindexed as [Hindexed Hfresh]; [|done].
      rewrite length_app in Hlj.
      apply app_inj_1 in Hindices as [Hindices Hc];
        [|rewrite length_app; lia].
      injection Hfresh as <- <-. injection Hc as <-.
      eapply wp_eq; [exact Hrun|]. cbn beta iota.
      unfold indexAfterMove. rewrite Nat.eqb_refl.
      wp_step. rewrite Hch2, list_lookup_middle by done.
      eapply wp_eq; [by apply insertChild_static|].
      rewrite insert_app_r_alt, Nat.sub_diag by lia.
      cbn [insert list_insert]. rewrite !app_nil_r.
      rewrite Hindexed in Hcs1. apply Forall_app in Hcs1 as [Hs1 Hs2].
      assert (NoDup (indices n2)) as Hnd2.
      { rewrite Hi2, app_nil_r. rewrite Hindices in Hnd1, Hidx.
        rewrite <- Permutation_middle. by apply NoDup_cons. }
      split_and!.
      * constructor; nsimpl; [congruence|by rewrite Ht2|].
        rewrite Forall_app, Forall_cons. split_and!; try done.
        constructor; nsimpl; [done|by left|constructor].
      * rewrite Hpp.
        rewrite (findStatic_child _ (path n) c p'' (length f1)
                   (mkNode (c :: p'') [] false static (wrap32 (0 + 1)) []
                           hs fullP));
          nsimpl; try done.
        -- match goal with |- findStatic ?x _ = _ =>
             apply (findStatic_here x) end.
        -- rewrite Hi2, <- Hl1. by apply list_lookup_middle.
        -- by apply list_lookup_middle.
      * eapply (keepsRoutes_insert n _ if1 if2 c f1 f2 [] _ Hindices).
        -- by rewrite Hindexed, app_nil_r.
        -- nsimpl. by rewrite Hi2, app_nil_r.
        -- nsimpl. rewrite app_nil_r. reflexivity.
        -- done.
        -- done.
        -- done.
        -- nsimpl. intros. congruence.
        -- done.
      * eapply (onlyRoutes_insert p hs n _ if1 if2 c f1 f2 [] _ (c :: p'')
                  Hindices).
        -- by rewrite Hindexed, app_nil_r.
        -- nsimpl. by rewrite Hi2, app_nil_r.
        -- nsimpl. rewrite app_nil_r. reflexivity.
        -- done.
        -- done.
        -- done.
        -- done.
        -- done.
        -- done.
        -- intros q h Hq. apply findStatic_leaf in Hq as [-> Hh]; [|done].
           done.
  - (* the node itself is the target *)
    assert (p = path n) as Hpn
      by (rewrite <- Hprefix; symmetry; by apply take_ge).
    wp_steps. case_bool_decide as Hh.
    + wp_steps. destruct Hsplit' as [[? _]|[Hnone _]]; [|done].
      split; [done|]. rewrite Hpn, findStatic_here.
      destruct (handlers n) as [h|]; [by exists h|done].
    + wp_steps.
      assert (handlers n = None) as Hnone by (by destruct (handlers n)).
      split_and!.
      * by constructor; nsimpl.
      * rewrite Hpn.
        match goal with |- findStatic ?x _ = _ =>
          apply (findStatic_here x) end.
      * apply keepsRoutes_pairs; nsimpl.
        -- done.
        -- intros h. by rewrite Hnone.
        -- done.
        -- intros b c Hbc. exists c. split; [done|apply keepsRoutes_refl].
      * apply onlyRoutes_pairs; nsimpl.
        -- done.
        -- intros h ->. by right.
        -- done.
        -- intros b c rest h Hbc Hf. left. by exists c.
Qed.
End walk_static.

(** The walk of [addRoute] on a tree without wildcards, for a path
    without wildcards. *)
Lemma walk_static fullP hs fuel (p : gostring) (pfi : nat) (n : node) :
  wf n → staticTree n → Forall noWild p →
  height n ≤ fuel → pfi + length p ≤ length fullP →
  wp (walk fuel p fullP hs pfi) (staticWalkPost hs p n) n.
Proof.
  revert p pfi n. induction fuel as [|fuel IH]; intros p pfi n.
  - intros _ _ _ Hh. pose proof (height_pos n). lia.
  - by apply walk_static_step.
Qed.

(** ** Registrations of wildcard-free paths *)

Lemma findStatic_empty n (p : gostring) :
  n.(path) = [] → n.(children) = [] → p ≠ [] → findStatic n p = None.
Proof.
  intros Hp Hc Hne. rewrite findStatic_unfold. cbn zeta.
  rewrite Hp, Hc, commonPrefix_nil_r. cbn [length Nat.ltb Nat.leb drop].
  destruct p as [|c p]; [done|]. rewrite drop_0.
  by destruct (indexOfByte c (indices n) 0).
Qed.

Lemma addRoute_nonempty (p : gostring) (hs : HandlersChain) (t : node)
    (Q : result unit → node → Prop) :
  ¬ (t.(path) = [] ∧ t.(children) = []) →
  wp (walk (walkFuel (incPriority t)) p p hs 0) Q (incPriority t) →
  wp (addRoute p hs) Q t.
Proof.
  intros Hne HW. unfold addRoute. wp_steps. nsimpl.
  replace ((length (path t) =? 0) && (length (children t) =? 0)) with false;
    [done|].
  symmetry. apply andb_false_iff.
  destruct (path t) as [|? ?] eqn:E1; [|by left].
  destruct (children t) as [|? ?] eqn:E2; [|by right].
  by destruct Hne.
Qed.

(** One registration of a wildcard-free path on a wildcard-free tree: it
    fails only where the path leads to an action already; otherwise the
    tree stays wildcard-free, the path leads to its action, the routes
    that were there are kept and no other route appears. *)
Lemma addRoute_static (p : gostring) (hs : HandlersChain) (t : node) :
  rootOk t → staticTree t → Forall noWild p →
  wp (addRoute p hs)
     (λ r t',
        match r with
        | Ok _ =>
            staticTree t' ∧ findStatic t' p = Some hs
            ∧ (∀ q h, q ≠ [] → findStatic t q = Some (Some h) →
                      findStatic t' q = Some (Some h))
            ∧ onlyRoutes p hs t t'
        | Fail _ => ∃ h, findStatic t p = Some (Some h)
        end) t.
Proof.
  intros [Hwf Hroot] Hst Hp.
  destruct (staticTree_inv _ Hst) as (Hw & Hty & Hcs).
  destruct (decide (t.(path) = [] ∧ t.(children) = [])) as [[Hpa Hch]|Hne].
  - eapply wp_eq; [by apply addRoute_empty_run|]. split_and!.
    + constructor; nsimpl; [done|by right|done].
    + match goal with |- findStatic ?x _ = _ =>
        apply (findStatic_here x) end.
    + intros q h Hq. by rewrite findStatic_empty.
    + intros q h Hq. right.
      apply findStatic_leaf in Hq as [-> Hh]; [|done]. by split.
  - apply addRoute_nonempty; [done|].
    eapply wp_mono.
    { apply (walk_static p hs (walkFuel (incPriority t)) p 0
               (incPriority t)).
      - by apply wf_incPriority.
      - by apply staticTree_incPriority.
      - done.
      - unfold walkFuel. lia.
      - simpl. lia. }
    intros [[]|e] n'; unfold staticWalkPost.
    + intros (? & ? & Hk & Ho). split_and!; try done.
      * intros q h _ Hq. apply Hk.
        by rewrite (findStatic_fields (incPriority t) t).
      * intros q h Hq. destruct (Ho q h Hq) as [Hq'|?]; [left|by right].
        by rewrite (findStatic_fields (incPriority t) t) in Hq'.
    + intros [h Hh]. exists h.
      by rewrite (findStatic_fields (incPriority t) t) in Hh.
Qed.

(** Registering again a path that leads to an action fails as a
    duplicate, and the routes of the tree survive the failing call. *)
Lemma addRoute_static_duplicate_keeps (p : gostring) (hs : HandlersChain)
    (t : node) (h : nat) :
  rootOk t → staticTree t → p ≠ [] → findStatic t p = Some (Some h) →
  wp (addRoute p hs)
     (λ r t', r = Fail (Panic (msg_duplicate p)) ∧ keepsRoutes t t') t.
Proof.
  intros [Hwf _] Hst Hp Hh.
  assert (¬ (t.(path) = [] ∧ t.(children) = [])) as Hnonempty.
  { intros [E1 E2]. by rewrite findStatic_empty in Hh. }
  apply addRoute_nonempty; [done|].
  eapply wp_mono.
  { apply (walk_static_duplicate p hs (walkFuel (incPriority t))
             (incPriority t) p 0 h).
    - by apply wf_incPriority.
    - by apply staticTree_incPriority.
    - by rewrite (findStatic_fields (incPriority t) t).
    - unfold walkFuel. lia. }
  intros r n' [-> Hk]. split; [done|].
  intros q hq Hq. apply Hk.
  by rewrite (findStatic_fields (incPriority t) t).
Qed.

Lemma addRoute_static_duplicate (p : gostring) (hs : HandlersChain)
    (t : node) (h : nat) :
  rootOk t → staticTree t → p ≠ [] → findStatic t p = Some (Some h) →
  (addRoute p hs t).2 = Fail (Panic (msg_duplicate p)).
Proof.
  intros Hroot Hst Hp Hh.
  by destruct (addRoute_static_duplicate_keeps p hs t h Hroot Hst Hp Hh).
Qed.

Lemma routesOf_zeroNode : routesOf [] zeroNode.
Proof.
  split_and!.
  - done.
  - split; [apply zeroNode_wf|by right].
  - by constructor; [|left|].
  - intros q h. split; [|by intros ?%elem_of_nil].
    intros Hq. by apply findStatic_leaf in Hq as [_ ?].
Qed.

Lemma routesOf_step (seen : list (gostring * HandlersChain)) (t : node)
    (p : gostring) (hs : HandlersChain) :
  routesOf seen t → p ≠ [] → Forall noWild p →
  wp (addRoute p hs)
     (λ r t',
        match r with
        | Ok _ => routesOf (seen ++ [(p, hs)]) t'
        | Fail e => e = Panic (msg_duplicate p) ∧ ∃ h, (p, Some h) ∈ seen
        end) t.
Proof.
  intros (Hne & Hroot & Hst & Hroutes) Hp Hnw.
  destruct (addRoute p hs t) as [t' r] eqn:Hrun.
  eapply wp_eq; [exact Hrun|].
  pose proof (wp_run _ _ _ _ _ (addRoute_static p hs t Hroot Hst Hnw) Hrun)
    as HW.
  destruct r as [[]|e].
  - destruct HW as (Hst' & Hf & Hk & Ho). split_and!.
    + rewrite Forall_app, Forall_singleton. done.
    + by eapply addRoute_rootOk.
    + done.
    + intros q h. rewrite elem_of_app, list_elem_of_singleton. split.
      * intros Hq. destruct (Ho q h Hq) as [Hq'|[-> ->]]; [left|by right].
        by apply Hroutes.
      * intros [Hin|[= -> ->]]; [|done].
        apply Hk; [|by apply Hroutes].
        rewrite Forall_forall in Hne. apply (Hne _ Hin).
  - destruct HW as [h Hh]. split; [|exists h; by apply Hroutes].
    pose proof (addRoute_static_duplicate p hs t h Hroot Hst Hp Hh) as Hr.
    rewrite Hrun in Hr. by injection Hr.
Qed.

Lemma addRoutes_routesOf (rs : list (gostring * HandlersChain)) :
  ∀ (seen : list (gostring * HandlersChain)) (t t' : node),
  Forall (λ r, r.1 ≠ [] ∧ Forall noWild r.1) rs →
  routesOf seen t → addRoutes rs t = Some t' → routesOf (seen ++ rs) t'.
Proof.
  induction rs as [|[p hs] rs IH]; intros seen t t' Hrs Hinv.
  - cbn [addRoutes]. intros [= <-]. by rewrite app_nil_r.
  - cbn [addRoutes].
    apply Forall_cons in Hrs as [[Hp1 Hp2] Hrs]. cbn [fst] in *.
    pose proof (routesOf_step seen t p hs Hinv Hp1 Hp2) as HW.
    unfold wp in HW.
    destruct (addRoute p hs t) as [t1 [[]|e]]; [|done].
    replace (seen ++ (p, hs) :: rs) with ((seen ++ [(p, hs)]) ++ rs)
      by (by rewrite <- app_assoc).
    by apply IH.
Qed.

(** On a tree built by registrations of non-empty paths without
    wildcards, a path without wildcards is refused, as a duplicate, when
    and only when it was registered with an action. *)
Lemma static_run (rs : list (gostring * HandlersChain))
    (t : node) (p : gostring) (hs : HandlersChain) :
  Forall (λ r, r.1 ≠ [] ∧ Forall noWild r.1) rs →
  addRoutes rs zeroNode = Some t → Forall noWild p →
  match (addRoute p hs t).2 with
  | Ok _ => ∀ h, (p, Some h) ∉ rs
  | Fail e => e = Panic (msg_duplicate p) ∧ ∃ h, (p, Some h) ∈ rs
  end.
Proof.
  intros Hrs Hrun Hnw.
  pose proof (addRoutes_routesOf rs [] zeroNode t Hrs routesOf_zeroNode Hrun)
    as (Hne & Hroot & Hst & Hroutes).
  cbn [app] in *. rewrite Forall_forall in Hne.
  pose proof (addRoute_static p hs t Hroot Hst Hnw) as HW. unfold wp in HW.
  destruct (addRoute p hs t) as [t' [[]|e]] eqn:Hr; cbn [snd fst] in *.
  - intros h Hin. pose proof (Hne _ Hin) as Hp. cbn [fst] in Hp.
    apply Hroutes in Hin.
    pose proof (addRoute_static_duplicate p hs t h Hroot Hst Hp Hin) as Hd.
    by rewrite Hr in Hd.
  - destruct HW as [h Hh]. pose proof (proj1 (Hroutes _ _) Hh) as Hin.
    pose proof (Hne _ Hin) as Hp. cbn [fst] in Hp.
    pose proof (addRoute_static_duplicate p hs t h Hroot Hst Hp Hh) as Hd.
    rewrite Hr in Hd. cbn [snd] in Hd. split; [by injection Hd|by exists h].
Qed.

Lemma addRoutes_snoc (rs : list (gostring * HandlersChain)) (p : gostring)
    (hs : HandlersChain) (t0 : node) :
  addRoutes (rs ++ [(p, hs)]) t0
  = match addRoutes rs t0 with
    | Some t => match addRoute p hs t with
                | (t', Ok _) => Some t'
                | (_, Fail _) => None
                end
    | None => None
    end.
Proof.
  revert t0. induction rs as [|[q hq] rs IH]; intros t0; cbn [app addRoutes].
  - by destruct (addRoute p hs t0) as [t' [[]|e]].
  - by destruct (addRoute q hq t0) as [t' [[]|e]].
Qed.

(** X20. Duplicate detection for routes without wildcards: on a tree built
    by successful registrations of non-empty paths that hold neither ':'
    nor '*', registering again a path that was registered with handlers
    panics with "handlers are already registered for path", whatever the
    other routes made of the tree (splits, new children, reordering by
    priority). *)
Theorem static_duplicate_refused (rs : list (gostring * HandlersChain))
    (t : node) (p : gostring) (h : nat) (hs : HandlersChain) :
  Forall (λ r, r.1 ≠ [] ∧ Forall noWild r.1) rs →
  addRoutes rs zeroNode = Some t → (p, Some h) ∈ rs →
  ∃ t', addRoute p hs t = (t', Fail (Panic (msg_duplicate p))).
Proof.
  intros Hrs Hrun Hin.
  assert (Forall noWild p) as Hnw.
  { rewrite Forall_forall in Hrs. by destruct (Hrs _ Hin). }
  pose proof (static_run rs t p hs Hrs Hrun Hnw) as H.
  destruct (addRoute p hs t) as [t' [[]|e]]; cbn [snd] in H.
  - by destruct (H h).
  - exists t'. by destruct H as [-> _].
Qed.

(** X21. No false conflict between routes without wildcards: on such a
    tree, a path that holds neither ':' nor '*' and was not registered
    with handlers is accepted; the registration ends normally. *)
Theorem static_fresh_accepted (rs : list (gostring * HandlersChain))
    (t : node) (p : gostring) (hs : HandlersChain) :
  Forall (λ r, r.1 ≠ [] ∧ Forall noWild r.1) rs →
  addRoutes rs zeroNode = Some t →
  Forall noWild p → (∀ h, (p, Some h) ∉ rs) →
  ∃ t', addRoute p hs t = (t', Ok tt).
Proof.
  intros Hrs Hrun Hnw Hfresh.
  pose proof (static_run rs t p hs Hrs Hrun Hnw) as H.
  destruct (addRoute p hs t) as [t' [[]|e]]; cbn [snd] in H.
  - by exists t'.
  - destruct H as [_ [h Hin]]. by destruct (Hfresh h).
Qed.

(** X22. A list of routes without wildcards, each with a non-empty path and
    with handlers, is registered without a panic, from the empty tree,
    exactly when its paths are pairwise different. *)
Theorem static_routes_distinct (rs : list (gostring * HandlersChain)) :
  Forall (λ r, r.1 ≠ [] ∧ Forall noWild r.1 ∧ r.2 ≠ None) rs →
  is_Some (addRoutes rs zeroNode) ↔ NoDup rs.*1.
Proof.
  induction rs as [|[p hs] rs IH] using rev_ind; intros Hrs.
  - split; [intros _; constructor|by eexists].
  - apply Forall_app in Hrs as [Hrs Hp].
    apply Forall_singleton in Hp as (Hp1 & Hp2 & Hp3). cbn [fst snd] in *.
    specialize (IH Hrs).
    assert (Forall (λ r, r.1 ≠ [] ∧ Forall noWild r.1) rs) as Hrs'.
    { eapply Forall_impl; [exact Hrs|]. by intros r (? & ? & ?). }
    assert (p ∈ rs.*1 ↔ ∃ h, (p, Some h) ∈ rs) as Hmem.
    { rewrite list_elem_of_fmap. split.
      - intros ([q [h|]] & -> & Hin).
        + by exists h.
        + rewrite Forall_forall in Hrs. by destruct (Hrs _ Hin) as (_ & _ & ?).
      - intros [h Hin]. by exists (p, Some h). }
    rewrite addRoutes_snoc, fmap_app, NoDup_app. cbn [fmap list_fmap fst].
    split.
    + intros Hsome.
      destruct (addRoutes rs zeroNode) as [t|] eqn:Hrun;
        [|by destruct Hsome].
      split_and!.
      * apply IH. by eexists.
      * intros q Hq ->%list_elem_of_singleton.
        apply Hmem in Hq as [h Hin].
        pose proof (static_run rs t p hs Hrs' Hrun Hp2) as H.
        destruct (addRoute p hs t) as [t' [[]|e]]; cbn [snd] in H.
        -- by destruct (H h).
        -- by destruct Hsome.
      * apply NoDup_singleton.
    + intros (Hnd & Hnotin & _).
      destruct (proj2 IH Hnd) as [t Hrun]. rewrite Hrun.
      pose proof (static_run rs t p hs Hrs' Hrun Hp2) as H.
      destruct (addRoute p hs t) as [t' [[]|e]]; cbn [snd] in H.
      * by eexists.
      * destruct H as [_ [h Hin]]. exfalso.
        apply (Hnotin p); [|by apply list_elem_of_singleton].
        apply Hmem. by exists h.
Qed.

(** ** Concrete trees *)

(** C7, the claim as stated fails on the tree made by registering
    "/files/*path" and then "/filesx": the catchAll holder under the root
    has the static sibling "x", and the catchAll leaf below it has no child
    and carries "/*path", which contains '/'. *)
Lemma catchAll_shape_counterexample :
  ∃ t holder sibling leaf : node,
    addRoutes [(str "/files/*path", Some 1); (str "/filesx", Some 2)] zeroNode
    = Some t
    ∧ t.(children) = [holder; sibling]
    ∧ holder.(nType) = catchAll ∧ sibling.(nType) = static
    ∧ holder.(children) = [leaf]
    ∧ leaf.(nType) = catchAll ∧ leaf.(children) = []
    ∧ leaf.(path) = str "/*path"
    ∧ ¬ (∀ parent c,
           subnode parent t → c ∈ parent.(children) → c.(nType) = catchAll →
           parent.(children) = [c] ∧ length c.(children) = 1
           ∧ "/"%char ∉ c.(path)).
Proof.
  do 4 eexists. split; [vm_compute; reflexivity|].
  split_and!; try reflexivity.
  intros H.
  match goal with
  | H : ∀ parent c, subnode parent ?t → _ |- _ =>
      destruct (H t (hd zeroNode t.(children))) as (Hsib & _)
  end.
  - constructor.
  - apply list_elem_of_here.
  - reflexivity.
  - discriminate Hsib.
Qed.

(** C2, the claim as stated fails: after "/a/*x" and "/a:y" the root has
    the wildcard flag set and the children catchAll holder, param node, so
    its catch-all child is not the last one; after "/files/*path" and
    "/filesx" the root has the flag unset and the children catchAll
    holder, static node. *)
Lemma catchAll_child_not_last :
  ∃ t holder w u holder' sibling : node,
    addRoutes [(str "/a/*x", Some 1); (str "/a:y", Some 2)] zeroNode = Some t
    ∧ t.(wildChild) = true
    ∧ t.(children) = [holder; w]
    ∧ holder.(nType) = catchAll ∧ w.(nType) = param
    ∧ addRoutes [(str "/files/*path", Some 1); (str "/filesx", Some 2)]
        zeroNode = Some u
    ∧ u.(wildChild) = false
    ∧ u.(children) = [holder'; sibling]
    ∧ holder'.(nType) = catchAll ∧ sibling.(nType) = static
    ∧ ¬ (∀ n c,
           subnode n t → n.(wildChild) = true → c ∈ n.(children) →
           c.(nType) = param ∨ c.(nType) = catchAll →
           last n.(children) = Some c)
    ∧ ¬ (∀ n c,
           subnode n u → c ∈ n.(children) → c.(nType) = catchAll →
           last n.(children) = Some c).
Proof.
  do 6 eexists. split; [vm_compute; reflexivity|].
  do 4 (split; [reflexivity|]).
  split; [vm_compute; reflexivity|].
  do 4 (split; [reflexivity|]).
  split.
  - intros H.
    match goal with
    | H : ∀ n c, subnode n ?t → _ |- _ =>
        pose proof (H t (hd zeroNode t.(children))) as Hlast
    end.
    discriminate Hlast;
      [constructor|reflexivity|apply list_elem_of_here|by right].
  - intros H.
    match goal with
    | H : ∀ n c, subnode n ?u → _ |- _ =>
        pose proof (H u (hd zeroNode u.(children))) as Hlast
    end.
    discriminate Hlast; [constructor|apply list_elem_of_here|reflexivity].
Qed.

(** C9, the claim as stated fails for a valid child index that is not an
    index of firstBytes: on the root made by "/a", "/b" and "/:w" (first
    bytes "ab", three children) the call at index 2 bumps the param child
    and moves it to the front, and then ends in the slice-out-of-range
    panic instead of returning the final index and rebuilding
    firstBytes. *)
Lemma incrementChildPrio_unindexed_child :
  ∃ t a b w : node,
    addRoutes [(str "/a", Some 1); (str "/b", Some 2); (str "/:w", Some 3)]
      zeroNode = Some t
    ∧ t.(indices) = str "ab"
    ∧ t.(children) = [a; b; w]
    ∧ a.(priority) = 1%Z ∧ b.(priority) = 1%Z ∧ w.(priority) = 1%Z
    ∧ incrementChildPrio 2 t
      = (set_children [incPriority w; a; b] t, Fail RuntimeError)
    ∧ ¬ (∀ (n : node) (pos : nat),
           pos < length n.(children) →
           ∃ k, (incrementChildPrio pos n).2 = Ok k).
Proof.
  do 4 eexists. split; [vm_compute; reflexivity|].
  do 5 (split; [reflexivity|]).
  split; [vm_compute; reflexivity|].
  intros H.
  match goal with
  | |- False =>
      destruct (H (mkNode (str "/") (str "ab") true root 3
                     [mkNode (str "a") [] false static 1 [] (Some 1)
                        (str "/a");
                      mkNode (str "b") [] false static 1 [] (Some 2)
                        (str "/b");
                      mkNode (str ":w") [] false param 1 [] (Some 3)
                        (str "/:w")] None (str "/")) 2) as [k Hk]
  end.
  - simpl. lia.
  - vm_compute in Hk. discriminate Hk.
Qed.

(** C10, the claim as stated fails when an earlier check stops the call:
    on the root made by "/a/b" and "/a/c", whose segment "/a/" ends in
    '/', [insertChild] with the path "*x" (a catch-all token at offset 0)
    ends in the segment-root conflict panic, not in the out-of-range
    access; on the empty tree the path "*" ends in the panic for a
    wildcard without name. *)
Lemma catchAll_offset_0_other_panics :
  ∃ t : node,
    addRoutes [(str "/a/b", Some 1); (str "/a/c", Some 2)] zeroNode = Some t
    ∧ t.(path) = str "/a/"
    ∧ findWildcard (str "*x") = (str "*x", 0%Z, true)
    ∧ insertChild (str "*x") (str "/a/*x") (Some 3) t
      = (t, Fail (Panic (msg_catchAllConflict (str "/a/*x"))))
    ∧ findWildcard (str "*") = (str "*", 0%Z, true)
    ∧ insertChild (str "*") (str "*") (Some 3) zeroNode
      = (zeroNode, Fail (Panic (msg_unnamedWildcard (str "*"))))
    ∧ ¬ (∀ (n : node) (p fullP w : gostring) (hs : HandlersChain),
           findWildcard p = (w, 0%Z, true) → head w = Some "*"%char →
           2 ≤ length w → length w = length p →
           (insertChild p fullP hs n).2 = Fail RuntimeError).
Proof.
  eexists. split; [vm_compute; reflexivity|].
  do 2 (split; [vm_compute; reflexivity|]).
  match goal with
  | |- insertChild ?p ?fp ?hs ?t = ?r ∧ _ =>
      assert (insertChild p fp hs t = r) as Ht by (vm_compute; reflexivity);
      split; [exact Ht|]
  end.
  do 2 (split; [vm_compute; reflexivity|]).
  intros H.
  match type of Ht with
  | insertChild ?p ?fp ?hs ?t = _ =>
      pose proof (H t p fp (str "*x") hs eq_refl eq_refl) as Hr
  end.
  rewrite Ht in Hr. cbn [snd] in Hr.
  discriminate Hr; [vm_compute; lia|reflexivity].
Qed.

(** C8, the claim as stated fails: after "/files/*path" the root has the
    index byte '/' and no static child (the byte dispatches to the catchAll
    holder, whose segment is empty); after "/user/:name/a" the param node
    has the static child "/a" and no index byte. *)
Lemma indices_static_counterexample :
  ∃ t u pn : node,
    addRoutes [(str "/files/*path", Some 1)] zeroNode = Some t
    ∧ t.(indices) = str "/"
    ∧ filter (λ c, c.(nType) = static) t.(children) = []
    ∧ addRoutes [(str "/user/:name/a", Some 1)] zeroNode = Some u
    ∧ u.(children) = [pn] ∧ pn.(nType) = param ∧ pn.(indices) = []
    ∧ (path <$> filter (λ c, c.(nType) = static) pn.(children)) = [str "/a"]
    ∧ ¬ (length t.(indices)
         = length (filter (λ c, c.(nType) = static) t.(children)))
    ∧ ¬ (length pn.(indices)
         = length (filter (λ c, c.(nType) = static) pn.(children))).
Proof.
  do 3 eexists. split; [vm_compute; reflexivity|].
  split; [reflexivity|]. split; [reflexivity|].
  split; [vm_compute; reflexivity|].
  split_and!; try reflexivity; vm_compute; discriminate.
Qed.

(** ** The theorems at concrete inputs *)

Lemma findWildcard_spec_witness :
  findWildcard (str "/user/:name*/home") = (str ":name*", 6%Z, false)
  ∧ findWildcard (str "/static") = ([], (-1)%Z, false).
Proof.
  split.
  - apply (proj1 (proj2 (findWildcard_spec (str "/user/:name*/home")))
             (str "/user/") ":"%char (str "name*") (str "/home")).
    + reflexivity.
    + repeat constructor.
    + reflexivity.
    + repeat constructor; discriminate.
    + right. reflexivity.
  - apply (proj1 (findWildcard_spec (str "/static"))).
    repeat constructor.
Defined.

Lemma incrementChildPrio_spec_witness :
  let a := mkNode (str "a") [] false static 1 [] (Some 1) (str "/a") in
  let b := mkNode (str "b") [] false static 1 [] (Some 2) (str "/b") in
  let n := mkNode (str "/") (str "ab") false root 2 [a; b] None [] in
  n.(children) !! 1 = Some b
  ∧ ∃ f1 f2 back,
      n.(children) = f1 ++ f2 ++ b :: back ∧ length (f1 ++ f2) = 1
      ∧ (incPriority b).(priority) = 2%Z.
Proof.
  intros a b n. split; [reflexivity|].
  destruct (incrementChildPrio_spec n 1 b eq_refl)
    as (f1 & f2 & back & Hcs & Hlen & Hprio & _).
  exists f1, f2, back. split_and!; [exact Hcs|exact Hlen|reflexivity].
Defined.

Lemma splitNode_spec_witness :
  let n := mkNode (str "/ab") [] false root 2 [] (Some 1) (str "/ab") in
  longestCommonPrefix (str "/ac") n.(path) < length n.(path)
  ∧ ∃ child,
      (splitNode (longestCommonPrefix (str "/ac") n.(path)) (str "/ac")
         (str "/ac") 0 n).1.(children) = [child]
      ∧ child.(path) = str "b" ∧ child.(handlers) = Some 1
      ∧ child.(priority) = 1%Z.
Proof.
  intros n.
  assert (longestCommonPrefix (str "/ac") n.(path) < length n.(path)) as Hlt
    by (vm_compute; lia).
  split; [exact Hlt|].
  destruct (splitNode_spec n (str "/ac") (str "/ac") 0 Hlt)
    as (child & Hcs & Hpath & _ & _ & _ & Hh & Hprio & _).
  exists child. split_and!; [exact Hcs|exact Hpath|exact Hh|exact Hprio].
Defined.

Lemma wildcard_child_last_witness :
  ∃ t init w,
    addRoutes [(str "/user/abc", Some 1); (str "/user/:name", Some 2);
               (str "/user/list", Some 3)] zeroNode = Some t
    ∧ t.(wildChild) = true
    ∧ t.(children) = init ++ [w]
    ∧ (w.(nType) = param ∨ w.(nType) = catchAll)
    ∧ Forall (λ c, c.(nType) ≠ param) init.
Proof.
  eexists.
  assert (∀ (P : node → Prop) (t : node), P t → ∃ t', t = t' ∧ P t') as Hex
    by (intros P t H; exists t; by split).
  match goal with
  | |- ∃ init w, ?r = Some ?t ∧ _ =>
      assert (r = Some t) as Hrs by (vm_compute; reflexivity)
  end.
  destruct (proj1 wildcard_child_last _ _ _ Hrs (subnode_here _) eq_refl)
    as (init & w & Hcs & Hw & Hinit).
  exists init, w. split_and!; [exact Hrs|reflexivity|exact Hcs|exact Hw|exact Hinit].
Defined.

Lemma catchAll_nodes_witness :
  ∃ t,
    addRoutes [(str "/files/*path", Some 1); (str "/filesx", Some 2)] zeroNode
    = Some t
    ∧ t.(nType) ≠ catchAll.
Proof.
  eexists.
  match goal with
  | |- ?r = Some ?t ∧ _ =>
      assert (r = Some t) as Hrs by (vm_compute; reflexivity)
  end.
  split; [exact Hrs|]. exact (proj1 (catchAll_nodes _ _ Hrs)).
Defined.

Lemma indices_match_children_witness :
  ∃ t,
    addRoutes [(str "/", Some 1); (str "/hi", Some 2); (str "/contact", Some 3)]
      zeroNode = Some t
    ∧ NoDup t.(indices).
Proof.
  eexists.
  match goal with
  | |- ?r = Some ?t ∧ _ =>
      assert (r = Some t) as Hrs by (vm_compute; reflexivity)
  end.
  split; [exact Hrs|].
  exact (proj1 (indices_match_children _ _ _ Hrs (subnode_here _))).
Defined.

Lemma insertChild_catchAll_offset_0_witness :
  findWildcard (str "*name") = (str "*name", 0%Z, true)
  ∧ insertChild (str "*name") (str "*name") (Some 1) zeroNode
    = (zeroNode, Fail RuntimeError).
Proof.
  split; [reflexivity|].
  apply (proj1 insertChild_catchAll_offset_0 zeroNode (str "*name")
           (str "*name") (str "*name") (Some 1)); try reflexivity.
  vm_compute. lia.
Defined.

(** ** The further properties at concrete inputs *)

Lemma insertChild_static_witness :
  insertChild (str "/ping") (str "/ping") (Some 1) zeroNode
  = (mkNode (str "/ping") [] false static 0 [] (Some 1) (str "/ping"), Ok tt).
Proof.
  apply (insertChild_static (str "/ping") (str "/ping") (Some 1) zeroNode).
  repeat constructor.
Defined.

Lemma insertChild_wildcard_name_errors_witness :
  insertChild (str "/a/:x:y/b") (str "/a/:x:y/b") (Some 1) zeroNode
  = (zeroNode,
     Fail (Panic (msg_onlyOneWildcard (str ":x:y") (str "/a/:x:y/b"))))
  ∧ insertChild (str "/a/:") (str "/a/:") (Some 1) zeroNode
    = (zeroNode, Fail (Panic (msg_unnamedWildcard (str "/a/:")))).
Proof.
  split.
  - apply (proj1 (insertChild_wildcard_name_errors (str "/a/") ":"%char
                    (str "x:y") (str "/b") (str "/a/:x:y/b") (Some 1)
                    zeroNode ltac:(repeat constructor) eq_refl
                    ltac:(repeat constructor; discriminate)
                    (or_intror eq_refl))).
    reflexivity.
  - apply (proj2 (insertChild_wildcard_name_errors (str "/a/") ":"%char
                    [] [] (str "/a/:") (Some 1)
                    zeroNode ltac:(repeat constructor) eq_refl
                    ltac:(constructor) (or_introl eq_refl))).
    reflexivity.
Defined.

Lemma insertChild_catchAll_place_errors_witness :
  insertChild (str "/a/*x/b") (str "/a/*x/b") (Some 1) zeroNode
  = (zeroNode, Fail (Panic (msg_catchAllNotLast (str "/a/*x/b"))))
  ∧ insertChild (str "/a*x") (str "/a*x") (Some 1) zeroNode
    = (zeroNode, Fail (Panic (msg_noSlashBeforeCatchAll (str "/a*x")))).
Proof.
  split.
  - apply (proj1 (insertChild_catchAll_place_errors (str "/a/") (str "x")
                    (str "/b") (str "/a/*x/b") (Some 1) zeroNode
                    ltac:(repeat constructor)
                    ltac:(repeat constructor; discriminate)
                    ltac:(discriminate) eq_refl (or_intror eq_refl))).
    discriminate.
  - apply (proj2 (insertChild_catchAll_place_errors (str "/a") (str "x")
                    [] (str "/a*x") (Some 1) zeroNode
                    ltac:(repeat constructor)
                    ltac:(repeat constructor; discriminate)
                    ltac:(discriminate) eq_refl (or_introl eq_refl))
             eq_refl eq_refl (str "/") "a"%char eq_refl).
    discriminate.
Defined.

Lemma insertChild_param_witness :
  insertChild (str "/u/:id/x") (str "/u/:id/x") (Some 1) zeroNode
  = (mkNode (str "/u/") [] true static 0
       [mkNode (str ":id") [] false param 1
          [mkNode (str "/x") [] false static 1 [] (Some 1) (str "/u/:id/x")]
          None (str "/u/:id/x")]
       None [], Ok tt).
Proof.
  apply (insertChild_param (str "/u/") (str "id") (str "/x")
           (str "/u/:id/x") (Some 1) zeroNode).
  - repeat constructor.
  - repeat constructor; discriminate.
  - discriminate.
  - reflexivity.
  - right. reflexivity.
  - repeat constructor.
  - reflexivity.
Defined.

Lemma insertChild_catchAll_witness :
  insertChild (str "/f/*p") (str "/f/*p") (Some 1) zeroNode
  = (mkNode (str "/f") (str "/") false static 0
       [mkNode [] [] true catchAll 1
          [mkNode (str "/*p") [] false catchAll 1 [] (Some 1) (str "/f/*p")]
          None (str "/f/*p")]
       None [], Ok tt).
Proof.
  apply (insertChild_catchAll (str "/f") (str "p") (str "/f/*p") (Some 1)
           zeroNode).
  - repeat constructor.
  - repeat constructor; discriminate.
  - discriminate.
  - reflexivity.
  - reflexivity.
  - reflexivity.
Defined.

Lemma addRoute_empty_tree_witness :
  addRoute (str "/ping") (Some 1) zeroNode
  = (mkNode (str "/ping") [] false root 1 [] (Some 1) (str "/ping"), Ok tt).
Proof.
  apply (addRoute_empty_tree (str "/ping") (Some 1) zeroNode);
    [reflexivity|reflexivity|repeat constructor].
Defined.

Lemma addRoute_empty_pattern_replaced_witness :
  addRoutes [([], Some 1); (str "/ping", Some 2)] zeroNode
  = Some (mkNode (str "/ping") [] false root 2 [] (Some 2) (str "/ping")).
Proof.
  apply (addRoute_empty_pattern_replaced (str "/ping") (Some 1) (Some 2)).
  repeat constructor.
Defined.

Lemma addRoute_terminates_witness :
  ∃ t,
    addRoutes [(str "/user/:name", Some 1); (str "/files/*path", Some 2)]
      zeroNode = Some t
    ∧ (addRoute (str "/user/:name/profile") (Some 3) t).2 ≠ Fail OutOfFuel.
Proof.
  eexists.
  match goal with
  | |- ?r = Some ?t ∧ _ =>
      assert (r = Some t) as Hrs by (vm_compute; reflexivity)
  end.
  split; [exact Hrs|]. exact (addRoute_terminates _ _ _ _ Hrs).
Defined.

Lemma addRoute_no_runtime_error_witness :
  ∃ t t',
    addRoutes [(str "/user/:name", Some 1)] zeroNode = Some t
    ∧ (addRoute (str "/user/:id") (Some 2) t = (t', Ok tt)
       ∨ ∃ msg, addRoute (str "/user/:id") (Some 2) t
                = (t', Fail (Panic msg))).
Proof.
  eexists.
  match goal with
  | |- ∃ t', ?r = Some ?t ∧ _ =>
      assert (r = Some t) as Hrs by (vm_compute; reflexivity)
  end.
  assert ("*"%char ∉ str "/user/:id") as Hp.
  { intros H. repeat (apply elem_of_cons in H as [H|H]; [discriminate H|]).
    by apply elem_of_nil in H. }
  destruct (addRoute_no_runtime_error _ _ (str "/user/:id") (Some 2) Hrs Hp)
    as [t' Ht'].
  exists t'. split; [exact Hrs|exact Ht'].
Defined.

Lemma root_kind_witness :
  ∃ t,
    addRoutes [(str "/a", Some 1); (str "/b", Some 2)] zeroNode = Some t
    ∧ t.(nType) = root.
Proof.
  eexists.
  match goal with
  | |- ?r = Some ?t ∧ _ =>
      assert (r = Some t) as Hrs by (vm_compute; reflexivity)
  end.
  split; [exact Hrs|].
  exact (proj1 (root_kind _ _ Hrs ltac:(discriminate))).
Defined.

Lemma param_nodes_witness :
  ∃ t x,
    addRoutes [(str "/user/:name/a", Some 1)] zeroNode = Some t
    ∧ t.(children) = [x] ∧ x.(nType) = param
    ∧ x.(wildChild) = false ∧ length x.(children) ≤ 1.
Proof.
  eexists.
  match goal with
  | |- ∃ x, ?r = Some ?t ∧ _ =>
      assert (r = Some t) as Hrs by (vm_compute; reflexivity)
  end.
  match type of Hrs with
  | _ = Some ?t =>
      exists (hd zeroNode t.(children));
      assert (subnode (hd zeroNode t.(children)) t) as Hsub
        by (apply (subnode_child _ t (hd zeroNode t.(children)));
            [apply list_elem_of_here|constructor])
  end.
  destruct (param_nodes _ _ _ Hrs Hsub eq_refl) as (Hw & Hlen & _).
  split_and!; [exact Hrs|reflexivity|reflexivity|exact Hw|exact Hlen].
Defined.

Lemma incrementChildPrio_keeps_order_witness :
  let a := mkNode (str "a") [] false static 1 [] (Some 1) (str "/a") in
  let b := mkNode (str "b") [] false static 1 [] (Some 2) (str "/b") in
  let n := mkNode (str "/") (str "ab") false root 2 [a; b] None [] in
  byPriority n.(children)
  ∧ byPriority (incrementChildPrio 1 n).1.(children).
Proof.
  intros a b n.
  assert (byPriority n.(children)) as Hs.
  { repeat constructor; simpl; lia. }
  split; [exact Hs|].
  apply (incrementChildPrio_keeps_order n 1 b eq_refl); [|exact Hs].
  simpl. lia.
Defined.

Lemma addRoute_duplicate_at_root_witness :
  let t := mkNode (str "/ping") [] false root 1 [] (Some 1) (str "/ping") in
  addRoute (str "/ping") (Some 2) t
  = (incPriority t, Fail (Panic (msg_duplicate (str "/ping")))).
Proof.
  intros t.
  apply (addRoute_duplicate_at_root (str "/ping") (Some 2) 1 t);
    [reflexivity|left; discriminate|reflexivity].
Defined.

Lemma addRoute_two_static_witness :
  addRoutes [(str "/hi", Some 1); (str "/contact", Some 2)] zeroNode
  = Some (mkNode (str "/") (str "hc") false root 2
            [mkNode (str "hi") [] false static 1 [] (Some 1) (str "/hi");
             mkNode (str "contact") [] false static 1 [] (Some 2)
                    (str "/contact")]
            None (str "/")).
Proof.
  apply (addRoute_two_static (str "/") (str "i") (str "ontact") "h"%char
           "c"%char (Some 1) (Some 2));
    [repeat constructor|repeat constructor|discriminate].
Defined.

Lemma param_name_conflict_witness :
  ∃ t t',
    addRoutes [(str "/user/:name", Some 1)] zeroNode = Some t
    ∧ addRoute (str "/user/:id") (Some 2) t
      = (t', Fail (Panic (msg_wildcardConflict (str ":id") (str "/user/:id")
                            (str ":name") (str "/user/:name")))).
Proof.
  apply (param_name_conflict (str "/user/") (str "name") (str "id")
           (Some 1) (Some 2)).
  - repeat constructor.
  - discriminate.
  - repeat constructor; discriminate.
  - reflexivity.
  - repeat constructor; discriminate.
  - discriminate.
Defined.

Lemma catchAll_registered_twice_witness :
  ∃ t t',
    addRoutes [(str "/files/*path", Some 1)] zeroNode = Some t
    ∧ addRoute (str "/files/*path") (Some 2) t
      = (t', Fail (Panic (msg_wildcardConflict (str "/*path")
                            (str "/files/*path") (str "/*path")
                            (str "/files/*path")))).
Proof.
  destruct (catchAll_registered_twice (str "/files") (str "path") (Some 1)
              (Some 2)) as (t & t' & H1 & H2 & _).
  - repeat constructor.
  - discriminate.
  - repeat constructor; discriminate.
  - reflexivity.
  - exists t, t'. split; [exact H1|exact H2].
Defined.

Lemma static_duplicate_refused_witness :
  ∃ t t',
    addRoutes [(str "/search", Some 1); (str "/support", Some 2);
               (str "/s", Some 3)] zeroNode = Some t
    ∧ addRoute (str "/support") (Some 4) t
      = (t', Fail (Panic (msg_duplicate (str "/support")))).
Proof.
  eexists.
  match goal with
  | |- ∃ t', ?r = Some ?t ∧ _ =>
      assert (r = Some t) as Hrs by (vm_compute; reflexivity)
  end.
  match type of Hrs with
  | _ = Some ?t =>
      destruct (static_duplicate_refused
                  [(str "/search", Some 1); (str "/support", Some 2);
                   (str "/s", Some 3)] t (str "/support") 2 (Some 4))
        as [t' Ht']
  end.
  - repeat constructor; discriminate.
  - exact Hrs.
  - right; left.
  - exists t'. split; [exact Hrs|exact Ht'].
Defined.

Lemma static_fresh_accepted_witness :
  ∃ t t',
    addRoutes [(str "/search", Some 1); (str "/support", Some 2)] zeroNode
    = Some t
    ∧ addRoute (str "/se") (Some 3) t = (t', Ok tt).
Proof.
  eexists.
  match goal with
  | |- ∃ t', ?r = Some ?t ∧ _ =>
      assert (r = Some t) as Hrs by (vm_compute; reflexivity)
  end.
  match type of Hrs with
  | _ = Some ?t =>
      destruct (static_fresh_accepted
                  [(str "/search", Some 1); (str "/support", Some 2)] t
                  (str "/se") (Some 3))
        as [t' Ht']
  end.
  - repeat constructor; discriminate.
  - exact Hrs.
  - repeat constructor.
  - intros h Hin. repeat (apply elem_of_cons in Hin as [Hin|Hin];
      [discriminate Hin|]). by apply elem_of_nil in Hin.
  - exists t'. split; [exact Hrs|exact Ht'].
Defined.

Lemma static_routes_distinct_witness :
  is_Some (addRoutes [(str "/search", Some 1); (str "/support", Some 2);
                      (str "/s", Some 3)] zeroNode).
Proof.
  apply (static_routes_distinct
           [(str "/search", Some 1); (str "/support", Some 2);
            (str "/s", Some 3)]).
  - repeat constructor; discriminate.
  - cbn [fmap list_fmap fst].
    repeat (apply NoDup_cons_2;
            [intros Hin;
             repeat (apply elem_of_cons in Hin as [Hin|Hin];
                     [discriminate Hin|]);
             by apply elem_of_nil in Hin|]).
    apply NoDup_nil_2.
Defined.


